(** * mystic: differential evolution solvers and collapse detectors

  A shallow embedding of [mystic/differential_evolution.py] and
  [mystic/collapse.py], with the properties of the specification that
  concern them.

  Python floats are kept abstract: a type [num] with the comparisons and
  the few operations the code applies to them.  Python lists updated in
  place are functional lists; a slice copy [v[:]] is the list itself.
  An exception is a [Raise] result. *)

From Stdlib Require Import ZArith.
From Stdlib Require DecimalString DecimalZ.
From stdpp Require Import gmap strings list fin_maps.

Local Open Scope Z_scope.
Local Open Scope nat_scope.

(** ** Exceptions *)

Inductive exn := IndexError | TypeError | ValueError | AttributeError | SyntaxError.

Inductive result (A : Type) :=
| Ok (a : A)
| Raise (e : exn).
Arguments Ok {A} a.
Arguments Raise {A} e.

#[global] Instance result_ret : MRet result := λ A a, Ok a.
#[global] Instance result_bind : MBind result := λ A B f m,
match m with Ok a => f a | Raise e => Raise e end.

(** [for candidate in cands: body] over an explicit state. *)
Fixpoint for_each {S : Type} (cands : list nat) (body : nat → S → result S)
  (s : S) : result S :=
match cands with
| [] => Ok s
| c :: cands' => s' ← body c s; for_each cands' body s'
end.

(** [l[i]], raising [IndexError] out of range. *)
Definition getitem {A} (l : list A) (i : nat) : result A :=
match l !! i with Some a => Ok a | None => Raise IndexError end.

(** [l[i] = a], raising [IndexError] out of range. *)
Definition setitem {A} (l : list A) (i : nat) (a : A) : result (list A) :=
match l !! i with Some _ => Ok (<[i:=a]> l) | None => Raise IndexError end.

(** ** The differential evolution solvers *)

Module DE.
Section Solver.

Context {num rng : Type}.
(** [<] on floats; [0.0], [1.0E20] and [numpy.inf]. *)
Variable ltb : num → num → bool.
Variables zero huge inf : num.

Local Abbreviation vec := (list num).

(** The solver object: the members of [AbstractSolver] that [Solve]
    reads or writes, and [genealogy], [scale], [probability] of
    [DifferentialEvolutionSolver.__init__]. *)
Record Solver := mkSolver {
  nDim : nat;
  nPop : nat;
  population : list vec;
  popEnergy : list num;
  bestSolution : vec;
  bestEnergy : num;
  trialSolution : vec;
  genealogy : list (list vec);
  energy_history : list num;
  generations : nat;
  _maxiter : option Z;
  _maxfun : option Z;
  _useStrictRange : bool;
  _strictMin : vec;
  _strictMax : vec;
  _EARLYEXIT : bool;
  probability : num;
  scale : num
}.

Definition set_population (v : list vec) (s : Solver) : Solver :=
  mkSolver (nDim s) (nPop s) v (popEnergy s) (bestSolution s) (bestEnergy s)
    (trialSolution s) (genealogy s) (energy_history s) (generations s)
    (_maxiter s) (_maxfun s) (_useStrictRange s) (_strictMin s) (_strictMax s)
    (_EARLYEXIT s) (probability s) (scale s).
Definition set_popEnergy (v : list num) (s : Solver) : Solver :=
  mkSolver (nDim s) (nPop s) (population s) v (bestSolution s) (bestEnergy s)
    (trialSolution s) (genealogy s) (energy_history s) (generations s)
    (_maxiter s) (_maxfun s) (_useStrictRange s) (_strictMin s) (_strictMax s)
    (_EARLYEXIT s) (probability s) (scale s).
Definition set_bestSolution (v : vec) (s : Solver) : Solver :=
  mkSolver (nDim s) (nPop s) (population s) (popEnergy s) v (bestEnergy s)
    (trialSolution s) (genealogy s) (energy_history s) (generations s)
    (_maxiter s) (_maxfun s) (_useStrictRange s) (_strictMin s) (_strictMax s)
    (_EARLYEXIT s) (probability s) (scale s).
Definition set_bestEnergy (v : num) (s : Solver) : Solver :=
  mkSolver (nDim s) (nPop s) (population s) (popEnergy s) (bestSolution s) v
    (trialSolution s) (genealogy s) (energy_history s) (generations s)
    (_maxiter s) (_maxfun s) (_useStrictRange s) (_strictMin s) (_strictMax s)
    (_EARLYEXIT s) (probability s) (scale s).
Definition set_trialSolution (v : vec) (s : Solver) : Solver :=
  mkSolver (nDim s) (nPop s) (population s) (popEnergy s) (bestSolution s)
    (bestEnergy s) v (genealogy s) (energy_history s) (generations s)
    (_maxiter s) (_maxfun s) (_useStrictRange s) (_strictMin s) (_strictMax s)
    (_EARLYEXIT s) (probability s) (scale s).
Definition set_genealogy (v : list (list vec)) (s : Solver) : Solver :=
  mkSolver (nDim s) (nPop s) (population s) (popEnergy s) (bestSolution s)
    (bestEnergy s) (trialSolution s) v (energy_history s) (generations s)
    (_maxiter s) (_maxfun s) (_useStrictRange s) (_strictMin s) (_strictMax s)
    (_EARLYEXIT s) (probability s) (scale s).
Definition set_energy_history (v : list num) (s : Solver) : Solver :=
  mkSolver (nDim s) (nPop s) (population s) (popEnergy s) (bestSolution s)
    (bestEnergy s) (trialSolution s) (genealogy s) v (generations s)
    (_maxiter s) (_maxfun s) (_useStrictRange s) (_strictMin s) (_strictMax s)
    (_EARLYEXIT s) (probability s) (scale s).
Definition set_generations (v : nat) (s : Solver) : Solver :=
  mkSolver (nDim s) (nPop s) (population s) (popEnergy s) (bestSolution s)
    (bestEnergy s) (trialSolution s) (genealogy s) (energy_history s) v
    (_maxiter s) (_maxfun s) (_useStrictRange s) (_strictMin s) (_strictMax s)
    (_EARLYEXIT s) (probability s) (scale s).
Definition set_limits (mi mf : option Z) (s : Solver) : Solver :=
  mkSolver (nDim s) (nPop s) (population s) (popEnergy s) (bestSolution s)
    (bestEnergy s) (trialSolution s) (genealogy s) (energy_history s)
    (generations s) mi mf (_useStrictRange s) (_strictMin s) (_strictMax s)
    (_EARLYEXIT s) (probability s) (scale s).
Definition set_EARLYEXIT (v : bool) (s : Solver) : Solver :=
  mkSolver (nDim s) (nPop s) (population s) (popEnergy s) (bestSolution s)
    (bestEnergy s) (trialSolution s) (genealogy s) (energy_history s)
    (generations s) (_maxiter s) (_maxfun s) (_useStrictRange s)
    (_strictMin s) (_strictMax s) v (probability s) (scale s).
Definition set_mutation (cr f : num) (s : Solver) : Solver :=
  mkSolver (nDim s) (nPop s) (population s) (popEnergy s) (bestSolution s)
    (bestEnergy s) (trialSolution s) (genealogy s) (energy_history s)
    (generations s) (_maxiter s) (_maxfun s) (_useStrictRange s)
    (_strictMin s) (_strictMax s) (_EARLYEXIT s) cr f.

(** What the run does to the world outside the solver object, in order:
    the two monitors, the user callback, the termination condition. *)
Inductive event :=
  | StepMonitor (x : vec) (e : num)
  | EvaluationMonitor (x : vec) (e : num)
  | callback (x : vec)
  | termination_called (stop : bool).

(** The solver object together with what [Solve] holds besides it: the
    call counter [fcalls[0]] of [wrap_function], the random generator
    the strategy draws from, and the events so far. *)
Record State := mkState {
  self : Solver;
  fcalls : nat;
  rand : rng;
  trace : list event
}.

Definition with_self (f : Solver → Solver) (st : State) : State :=
  mkState (f (self st)) (fcalls st) (rand st) (trace st).
Definition emit (ev : event) (st : State) : State :=
  mkState (self st) (fcalls st) (rand st) (trace st ++ [ev]).

(** *** The arguments of [Solve] *)

(** The user's cost function with [ExtraArgs] applied. *)
Variable cost : vec → num.
(** [termination(self)]: true for any non-false answer. *)
Variable termination : Solver → bool.
(** [strategy(self, candidate)] leaves its trial in [self.trialSolution];
    it reads the solver and draws random numbers. *)
Variable strategy : Solver → nat → rng → vec * rng.
(** Whether the [callback] keyword was given. *)
Variable has_callback : bool.
(** Whether the interrupt handler has set [_EARLYEXIT] by the end of
    generation [g]. *)
Variable sigint : nat → bool.
(** [AbstractSolver._clipGuessWithinRangeBoundary], not part of this
    source: taken as given. *)
Variable _clipGuessWithinRangeBoundary : Solver → vec → vec.

(** Modelled from the spec: [mystic.tools.wrap_bounds] in its hard form
    (4.4), the test being [any((x<min)|(x>max))]. *)
Fixpoint violates (x lo hi : vec) : bool :=
  match x, lo, hi with
  | xi :: x', l :: lo', h :: hi' =>
      ltb xi l || ltb h xi || violates x' lo' hi'
  | _, _, _ => false
  end.

(** The value [costfunction(x)] returns once wrapped: [bounds] is
    [Some (min, max)] when [wrap_bounds] was applied. *)
Definition wrapped_cost (bounds : option (vec * vec)) (x : vec) : num :=
  match bounds with
  | Some (lo, hi) => if violates x lo hi then inf else cost x
  | None => cost x
  end.

(** Modelled from the spec: [mystic.tools.wrap_function] (4.5) under
    [wrap_bounds]: an out-of-range point never reaches the counter or
    the evaluation monitor. *)
Definition costfunction (bounds : option (vec * vec)) (x : vec) (st : State)
    : num * State :=
  match bounds with
  | Some (lo, hi) =>
      if violates x lo hi then (inf, st)
      else (cost x, emit (EvaluationMonitor x (cost x))
                      (mkState (self st) (S (fcalls st)) (rand st) (trace st)))
  | None =>
      (cost x, emit (EvaluationMonitor x (cost x))
                 (mkState (self st) (S (fcalls st)) (rand st) (trace st)))
  end.

(** [strategy(self, candidate)] *)
Definition call_strategy (candidate : nat) (st : State) : State :=
  let '(trial, r) := strategy (self st) candidate (rand st) in
  mkState (set_trialSolution trial (self st)) (fcalls st) r (trace st).

(** [UpdateGenealogyRecords(id, newchild)] *)
Definition UpdateGenealogyRecords (id : nat) (newchild : vec) (s : Solver)
    : result Solver :=
  line ← getitem (genealogy s) id;
  Ok (set_genealogy (<[id := line ++ [newchild]]> (genealogy s)) s).

(** *** [DifferentialEvolutionSolver.Solve] *)

(** The body of [for candidate in range(self.nPop)], lines 212-225. *)
Definition candidate_step (bounds : option (vec * vec)) (candidate : nat)
    (st : State) : result State :=
  let st := call_strategy candidate st in
  let '(trialEnergy, st) := costfunction bounds (trialSolution (self st)) st in
  let s := self st in
  e ← getitem (popEnergy s) candidate;
  if ltb trialEnergy e then
    pe ← setitem (popEnergy s) candidate trialEnergy;
    let s := set_popEnergy pe s in
    pop ← setitem (population s) candidate (trialSolution s);
    let s := set_population pop s in
    s ← UpdateGenealogyRecords candidate (trialSolution s) s;
    let s :=
      if ltb trialEnergy (bestEnergy s)
      then set_bestSolution (trialSolution s) (set_bestEnergy trialEnergy s)
      else s in
    Ok (with_self (λ _, s) st)
  else Ok st.


(** Which [break] ended [for generation in range(self._maxiter)], if any. *)
Inductive exit := Exhausted | MaxFunBreak | StopBreak.

(** Lines 227-233: the history entry, the callback, and the test that
    ends the loop.  Python's [or] does not call [termination] once
    [_EARLYEXIT] is set. *)
Definition finish_generation (generation : nat) (st : State) : State * bool :=
  let st := with_self (λ s, set_energy_history
              (energy_history s ++ [bestEnergy s]) s) st in
  let st := if has_callback then emit (callback (bestSolution (self st))) st
            else st in
  let st := with_self (λ s, set_EARLYEXIT (_EARLYEXIT s || sigint generation) s)
              st in
  if _EARLYEXIT (self st) then (st, true)
  else
    let stop := termination (self st) in
    (emit (termination_called stop) st, stop).

(** One turn of the generation loop, lines 209-233: [Some why] when it
    ends in a [break]. *)
Definition generation_step (bounds : option (vec * vec)) (maxfun : Z)
    (generation : nat) (st : State) : result (State * option exit) :=
  let st := emit (StepMonitor (bestSolution (self st)) (bestEnergy (self st)))
              st in
  if (maxfun <=? Z.of_nat (fcalls st))%Z then Ok (st, Some MaxFunBreak)
  else
    st ← for_each (seq 0 (nPop (self st))) (candidate_step bounds) st;
    let '(st, stop) := finish_generation generation st in
    Ok (st, if stop then Some StopBreak else None).

(** [for generation in range(self._maxiter)]: [todo] is what is left of
    the range, [generation] the next value of the loop variable and
    [last] the value it has now. *)
Fixpoint generation_loop (bounds : option (vec * vec)) (maxfun : Z)
    (todo generation last : nat) (st : State) : result (State * nat * exit) :=
  match todo with
  | O => Ok (st, last, Exhausted)
  | S todo' =>
      '(st, brk) ← generation_step bounds maxfun generation st;
      match brk with
      | Some why => Ok (st, generation, why)
      | None => generation_loop bounds maxfun todo' (S generation) generation st
      end
  end.

(** Lines 185-205: what [Solve] does before the loop. *)
Definition clip_population (s : Solver) : result Solver :=
  for_each (seq 0 (nPop s))
    (λ i s, x ← getitem (population s) i;
            pop ← setitem (population s) i (_clipGuessWithinRangeBoundary s x);
            Ok (set_population pop s)) s.

Definition default_limits (s : Solver) : Solver :=
  set_limits
    (Some (default (Z.of_nat (nDim s * nPop s * 10)) (_maxiter s)))
    (Some (default (Z.of_nat (nDim s * nPop s * 1000)) (_maxfun s))) s.

Definition prepare (CrossProbability ScalingFactor : num) (s : Solver)
    : result (Solver * option (vec * vec)) :=
  let s := set_EARLYEXIT false s in
  '(s, bounds) ← (if _useStrictRange s
                  then s' ← clip_population s;
                       Ok (s', Some (_strictMin s', _strictMax s'))
                  else Ok (s, None));
  let s := set_mutation CrossProbability ScalingFactor s in
  let s := set_bestEnergy huge s in
  Ok (default_limits s, bounds).

(** A limit once [prepare] has replaced [None]. *)
Definition limit (o : option Z) : Z := default 0%Z o.

(** [Solve] starts a fresh call counter; the monitors and the random
    generator are as they are handed in.  It returns [None]: the result
    is the solver object, here with the way the loop ended. *)
Definition Solve (CrossProbability ScalingFactor : num) (st : State)
    : result (State * exit) :=
  '(s, bounds) ← prepare CrossProbability ScalingFactor (self st);
  let st := mkState s 0 (rand st) (trace st) in
  '(st, generation, why) ←
     generation_loop bounds (limit (_maxfun s)) (Z.to_nat (limit (_maxiter s)))
       0 0 st;
  Ok (with_self (set_generations generation) st, why).

(** *** [DifferentialEvolutionSolver2.Solve] *)

(** Lines 353-356: the trials of a generation, kept in [trialPop]. *)
Definition build_trial (candidate : nat) (sp : State * list vec)
    : result (State * list vec) :=
  let '(st, trialPop) := sp in
  let st := call_strategy candidate st in
  trialPop ← setitem trialPop candidate (trialSolution (self st));
  Ok (st, trialPop).

(** Line 358: [map(costfunction, trialPop)], in order. *)
Fixpoint map_costfunction (bounds : option (vec * vec)) (xs : list vec)
    (st : State) : list num * State :=
  match xs with
  | [] => ([], st)
  | x :: xs' =>
      let '(e, st) := costfunction bounds x st in
      let '(es, st) := map_costfunction bounds xs' st in
      (e :: es, st)
  end.

(** The body of the second candidate loop, lines 361-370. *)
Definition replace_step (trialPop : list vec) (trialEnergy : list num)
    (candidate : nat) (s : Solver) : result Solver :=
  te ← getitem trialEnergy candidate;
  e ← getitem (popEnergy s) candidate;
  if ltb te e then
    pe ← setitem (popEnergy s) candidate te;
    let s := set_popEnergy pe s in
    trial ← getitem trialPop candidate;
    pop ← setitem (population s) candidate trial;
    let s := set_population pop s in
    s ← UpdateGenealogyRecords candidate (trialSolution s) s;
    if ltb te (bestEnergy s)
    then trial ← getitem trialPop candidate;
         Ok (set_bestSolution trial (set_bestEnergy te s))
    else Ok s
  else Ok s.

Definition lift_self (f : Solver → result Solver) (st : State) : result State :=
  s ← f (self st); Ok (with_self (λ _, s) st).

(** One turn of the generation loop, lines 351-378. *)
Definition generation_step2 (bounds : option (vec * vec)) (maxfun : Z)
    (generation : nat) (sp : State * list vec)
    : result (State * list vec * option exit) :=
  let '(st, trialPop) := sp in
  let st := emit (StepMonitor (bestSolution (self st)) (bestEnergy (self st)))
              st in
  if (maxfun <=? Z.of_nat (fcalls st))%Z then Ok (st, trialPop, Some MaxFunBreak)
  else
    '(st, trialPop) ← for_each (seq 0 (nPop (self st))) build_trial (st, trialPop);
    let '(trialEnergy, st) := map_costfunction bounds trialPop st in
    st ← for_each (seq 0 (nPop (self st)))
           (λ c, lift_self (replace_step trialPop trialEnergy c)) st;
    let '(st, stop) := finish_generation generation st in
    Ok (st, trialPop, if stop then Some StopBreak else None).

Fixpoint generation_loop2 (bounds : option (vec * vec)) (maxfun : Z)
    (todo generation last : nat) (sp : State * list vec)
    : result (State * nat * exit) :=
  match todo with
  | O => Ok (sp.1, last, Exhausted)
  | S todo' =>
      '(st, trialPop, brk) ← generation_step2 bounds maxfun generation sp;
      match brk with
      | Some why => Ok (st, generation, why)
      | None => generation_loop2 bounds maxfun todo' (S generation) generation
                  (st, trialPop)
      end
  end.

Definition Solve2 (CrossProbability ScalingFactor : num) (st : State)
    : result (State * exit) :=
  '(s, bounds) ← prepare CrossProbability ScalingFactor (self st);
  let st := mkState s 0 (rand st) (trace st) in
  let trialPop := replicate (nPop s) (replicate (nDim s) zero) in
  '(st, generation, why) ←
     generation_loop2 bounds (limit (_maxfun s)) (Z.to_nat (limit (_maxiter s)))
       0 0 (st, trialPop);
  Ok (with_self (set_generations generation) st, why).

(** *** [diffev] *)

(** What the [Sow] monitors hold: [stepmon.x] and [evalmon.x]. *)
Definition stepmon_x (tr : list event) : list vec :=
  omap (λ ev, match ev with StepMonitor x _ => Some x | _ => None end) tr.
Definition evalmon_x (tr : list event) : list vec :=
  omap (λ ev, match ev with EvaluationMonitor x _ => Some x | _ => None end) tr.

(** The four shapes of [retlist]. *)
Inductive retlist :=
  | ret_x (x : vec)
  | ret_x_allvecs (x : vec) (allvecs : list vec)
  | ret_full (x : vec) (fval : num) (iterations fcalls : nat) (warnflag : nat)
  | ret_full_allvecs (x : vec) (fval : num) (iterations fcalls : nat)
      (warnflag : nat) (allvecs : list vec).

(** Lines 510-519. *)
Definition diffev_warnflag (fcalls iterations : nat) (s : Solver) : nat :=
  if (limit (_maxfun s) <=? Z.of_nat fcalls)%Z then 1
  else if (limit (_maxiter s) <=? Z.of_nat iterations)%Z then 2
  else 0.

(** [solver] is the solver object as lines 476-492 configure it (the
    [AbstractSolver] setters are not part of this source), [r] the
    random generator; [termination] stands for the [VTR] or
    [ChangeOverGeneration] condition. *)
Definition diffev (solver : Solver) (r : rng) (cross scale : num)
    (full_output retall invariant_current : bool)
    : result (retlist * exit) :=
  let st := mkState solver 0 r [] in
  '(st, why) ← (if invariant_current then Solve2 cross scale st
                else Solve cross scale st);
  let solver := self st in
  let x := bestSolution solver in
  let fval := bestEnergy solver in
  let fcalls := length (evalmon_x (trace st)) in
  let iterations := length (stepmon_x (trace st)) in
  let allvecs := stepmon_x (trace st) in
  let warnflag := diffev_warnflag fcalls iterations solver in
  Ok (if full_output
      then (if retall then ret_full_allvecs x fval iterations fcalls warnflag allvecs
            else ret_full x fval iterations fcalls warnflag)
      else (if retall then ret_x_allvecs x allvecs else ret_x x),
      why).

(** *** Notions the properties are stated with *)

(** The three lists indexed by candidate have one slot per member. *)
Definition well_formed (s : Solver) : Prop :=
  length (population s) = nPop s ∧ length (popEnergy s) = nPop s ∧
  length (genealogy s) = nPop s.

(** Slot [i] holds a member together with what [costfunction] returns
    for it. *)
Definition aligned_at (bounds : option (vec * vec)) (s : Solver) (i : nat)
    : Prop :=
  ∃ x, population s !! i = Some x ∧
       popEnergy s !! i = Some (wrapped_cost bounds x).

(** Slot [i] of [s'] is as it was in [s]. *)
Definition untouched_at (s s' : Solver) (i : nat) : Prop :=
  population s' !! i = population s !! i ∧
  popEnergy s' !! i = popEnergy s !! i.

(** [s'] is [s] but for the scratch vector [trialSolution]. *)
Definition frozen (s s' : Solver) : Prop :=
  ∃ t, s' = set_trialSolution t s.

(** The sizes and limits of [s'] are those of [s]. *)
Definition same_limits (s s' : Solver) : Prop :=
  nPop s' = nPop s ∧ nDim s' = nDim s ∧
  _maxiter s' = _maxiter s ∧ _maxfun s' = _maxfun s.

Definition is_evaluation (ev : event) : Prop :=
  match ev with EvaluationMonitor _ _ => True | _ => False end.

(** The events of one generation that ran to its end, after the
    evaluations: the callback if there is one, the termination test if
    it was reached. *)
Definition is_closing (ev : event) : Prop :=
  match ev with callback _ | termination_called _ => True | _ => False end.

(** What a run of at most [n] candidates does to the solver and to the
    world: evaluations only, each slot left alone or aligned. *)
Definition candidates_post (bounds : option (vec * vec)) (n : nat)
    (st st' : State) : Prop :=
  well_formed (self st') ∧ same_limits (self st) (self st') ∧
  energy_history (self st') = energy_history (self st) ∧
  _EARLYEXIT (self st') = _EARLYEXIT (self st) ∧
  (∃ evs, trace st' = trace st ++ evs ∧ Forall is_evaluation evs ∧
          fcalls st' = fcalls st + length evs ∧ length evs ≤ n ∧
          (bounds = None → length evs = n)) ∧
  (∀ i, untouched_at (self st) (self st') i ∨ aligned_at bounds (self st') i).

(** The events that close a generation: the callback if there is one,
    then the termination test unless [_EARLYEXIT] is set. *)
Definition closing_events (g : nat) (s : Solver) : list event :=
  let s' := set_EARLYEXIT (_EARLYEXIT s || sigint g)
              (set_energy_history (energy_history s ++ [bestEnergy s]) s) in
  (if has_callback then [callback (bestSolution s)] else []) ++
  (if _EARLYEXIT s' then [] else [termination_called (termination s')]).

(** What one turn of the generation loop does: one step event, then
    evaluations, then the closing events. *)
Definition generation_post (bounds : option (vec * vec)) (st st' : State)
    : Prop :=
  well_formed (self st') ∧ same_limits (self st) (self st') ∧
  (∀ i, untouched_at (self st) (self st') i ∨ aligned_at bounds (self st') i) ∧
  ∃ evs closing,
    trace st' = trace st ++
      StepMonitor (bestSolution (self st)) (bestEnergy (self st)) ::
      evs ++ closing ∧
    Forall is_evaluation evs ∧ Forall is_closing closing ∧
    fcalls st' = fcalls st + length evs.

(** What the generation loop does when it is given [todo] turns: the
    monitors count the turns and the evaluations. *)
Definition loop_post (maxfun : Z) (todo : nat) (st st' : State) (why : exit)
    : Prop :=
  well_formed (self st') ∧ same_limits (self st) (self st') ∧
  length (evalmon_x (trace st')) = fcalls st' ∧
  length (stepmon_x (trace st')) ≤ length (stepmon_x (trace st)) + todo ∧
  (why = Exhausted →
   length (stepmon_x (trace st')) = length (stepmon_x (trace st)) + todo) ∧
  (why = MaxFunBreak → (maxfun ≤ Z.of_nat (fcalls st'))%Z).

(** Slot [i] of [s'] holds the member, the energy and the genealogy
    line it held in [s]. *)
Definition slot_same (s s' : Solver) (i : nat) : Prop :=
  population s' !! i = population s !! i ∧
  popEnergy s' !! i = popEnergy s !! i ∧
  genealogy s' !! i = genealogy s !! i.

(** Slot [i] of [s'] holds a new member [x] with its energy, and its
    genealogy line is the one of [s] with [child] added. *)
Definition slot_replaced (bounds : option (vec * vec)) (s s' : Solver)
    (i : nat) (x child : vec) : Prop :=
  population s' !! i = Some x ∧
  popEnergy s' !! i = Some (wrapped_cost bounds x) ∧
  ∃ line, genealogy s !! i = Some line ∧
          genealogy s' !! i = Some (line ++ [child]).

(** The best of [s] is one of its members, with its energy. *)
Definition best_is_member (s : Solver) : Prop :=
  ∃ c, population s !! c = Some (bestSolution s) ∧
       popEnergy s !! c = Some (bestEnergy s).

(** The best of [s'] is the best of [s]. *)
Definition best_same (s s' : Solver) : Prop :=
  bestSolution s' = bestSolution s ∧ bestEnergy s' = bestEnergy s.

(** What the sequential solver makes of a solver [s1] that holds the
    trial [trial] of slot [c] in its scratch vector: the slot takes the
    trial and its energy [e], and the best follows if [e] is below it. *)
Definition accept (c : nat) (trial : vec) (e : num) (line : list vec)
    (s1 : Solver) : Solver :=
  let s3 :=
    set_genealogy (<[c := line ++ [trial]]> (genealogy s1))
      (set_population (<[c := trial]> (population s1))
         (set_popEnergy (<[c := e]> (popEnergy s1)) s1)) in
  if ltb e (bestEnergy s1)
  then set_bestSolution trial (set_bestEnergy e s3) else s3.

(** What the second solver makes of it: the genealogy takes the scratch
    vector, not the trial. *)
Definition accept2 (c : nat) (trial : vec) (e : num) (line : list vec)
    (s1 : Solver) : Solver :=
  let s3 :=
    set_genealogy (<[c := line ++ [trialSolution s1]]> (genealogy s1))
      (set_population (<[c := trial]> (population s1))
         (set_popEnergy (<[c := e]> (popEnergy s1)) s1)) in
  if ltb e (bestEnergy s1)
  then set_bestSolution trial (set_bestEnergy e s3) else s3.

(** What a run of the generation loop over [todo] turns leaves: the
    events added, with one step event per turn made; the value of the
    loop variable; and the call counter, which a turn is only entered
    with below [maxfun]. *)
Definition run_post (maxfun : Z) (todo g last : nat) (st st' : State)
    (g' : nat) : Prop :=
  nPop (self st') = nPop (self st) ∧
  ∃ tl, trace st' = trace st ++ tl ∧
    length (stepmon_x tl) ≤ todo ∧
    (0 < todo → 0 < length (stepmon_x tl)) ∧
    (length (stepmon_x tl) = 0 → g' = last) ∧
    (0 < length (stepmon_x tl) →
     g' = g + length (stepmon_x tl) - 1 ∧
     ∃ tl', tl = StepMonitor (bestSolution (self st)) (bestEnergy (self st))
                   :: tl') ∧
    (fcalls st' = fcalls st ∨
     (Z.of_nat (fcalls st') < maxfun + Z.of_nat (nPop (self st)))%Z).

End Solver.
End DE.

(** ** Python values, [repr] and [eval]

    The objects that masks, collapse results and termination messages are
    made of.  A set is held with its elements in iteration order and a
    dict with its items in iteration order; [py_eqb] is Python's [==],
    which looks at neither order.  Indices that come out of a numpy array
    are [numpy.int64], not [int]: the two are equal under [==] and print
    alike, and [type(i) is int] tells them apart. *)

Module Py.

#[warnings="-register-all"]
Inductive pyobj :=
  | PyNone
  | PyInt (n : Z)
  | NpInt (n : Z)
  | PyTuple (l : list pyobj)
  | PyList (l : list pyobj)
  | PySet (l : list pyobj)
  | PyDict (l : list (pyobj * pyobj)).

(** [hasattr(v, '__len__')] and [len(v)] *)
Definition has_len (v : pyobj) : bool :=
  match v with
  | PyTuple _ | PyList _ | PySet _ | PyDict _ => true
  | _ => false
  end.

Definition len (v : pyobj) : nat :=
  match v with
  | PyTuple l | PyList l | PySet l => length l
  | PyDict l => length l
  | _ => 0
  end.

(** [type(v) is int], [type(v) is set], [type(v) is dict] *)
Definition is_int (v : pyobj) : bool :=
  match v with PyInt _ => true | _ => false end.
Definition is_set (v : pyobj) : bool :=
  match v with PySet _ => true | _ => false end.
Definition is_dict (v : pyobj) : bool :=
  match v with PyDict _ => true | _ => false end.

(** [a == b] *)
Fixpoint py_eqb (a b : pyobj) {struct a} : bool :=
  let fix seq_eqb (l : list pyobj) (m : list pyobj) : bool :=
    match l, m with
    | [], [] => true
    | x :: l', y :: m' => py_eqb x y && seq_eqb l' m'
    | _, _ => false
    end in
  let fix incl_b (l : list pyobj) (m : list pyobj) : bool :=
    match l with
    | [] => true
    | x :: l' => existsb (py_eqb x) m && incl_b l' m
    end in
  let fix mem_b (l : list pyobj) (y : pyobj) : bool :=
    match l with
    | [] => false
    | x :: l' => py_eqb x y || mem_b l' y
    end in
  let fix items_b (l : list (pyobj * pyobj)) (m : list (pyobj * pyobj)) : bool :=
    match l with
    | [] => true
    | (k, v) :: l' =>
        existsb (λ kv, py_eqb k kv.1 && py_eqb v kv.2) m && items_b l' m
    end in
  let fix item_b (l : list (pyobj * pyobj)) (kv : pyobj * pyobj) : bool :=
    match l with
    | [] => false
    | (k, v) :: l' => py_eqb k kv.1 && py_eqb v kv.2 || item_b l' kv
    end in
  match a, b with
  | PyNone, PyNone => true
  | (PyInt n | NpInt n), (PyInt m | NpInt m) => (n =? m)%Z
  | PyTuple l, PyTuple m => seq_eqb l m
  | PyList l, PyList m => seq_eqb l m
  | PySet l, PySet m => incl_b l m && forallb (mem_b l) m
  | PyDict l, PyDict m => items_b l m && forallb (item_b l) m
  | _, _ => false
  end.

(** [v in container], over the elements of a container *)
Definition py_in (v : pyobj) (elems : list pyobj) : bool :=
  existsb (py_eqb v) elems.

(** *** [repr] *)

Definition repr_int (n : Z) : string :=
  DecimalString.NilEmpty.string_of_int (Z.to_int n).

Fixpoint join (sep : string) (l : list string) : string :=
  match l with
  | [] => ""
  | [x] => x
  | x :: l' => x +:+ sep +:+ join sep l'
  end.

Fixpoint repr (v : pyobj) : string :=
  match v with
  | PyNone => "None"
  | PyInt n | NpInt n => repr_int n
  | PyTuple l =>
      match l with
      | [a] => "(" +:+ repr a +:+ ",)"
      | _ => "(" +:+ join ", " (map repr l) +:+ ")"
      end
  | PyList l => "[" +:+ join ", " (map repr l) +:+ "]"
  | PySet l => "set([" +:+ join ", " (map repr l) +:+ "])"
  | PyDict l =>
      "{" +:+ join ", " (map (λ kv, repr kv.1 +:+ ": " +:+ repr kv.2) l) +:+ "}"
  end.

(** What [eval] makes of an [NpInt]'s text: an [int]. *)
Fixpoint as_evaluated (v : pyobj) : pyobj :=
  match v with
  | PyNone => PyNone
  | PyInt n | NpInt n => PyInt n
  | PyTuple l => PyTuple (map as_evaluated l)
  | PyList l => PyList (map as_evaluated l)
  | PySet l => PySet (map as_evaluated l)
  | PyDict l => PyDict (map (λ kv, (as_evaluated kv.1, as_evaluated kv.2)) l)
  end.

(** *** [eval]

    [eval] is modelled on the literals that [repr] prints: [None],
    decimal integers, tuples, lists, [set([...])] and dicts, with the
    spacing of [repr].  Any other text is a [SyntaxError] here. *)

(** [s] without its prefix [p] *)
Fixpoint strip (p s : string) : option string :=
  match p with
  | EmptyString => Some s
  | String c p' =>
      match s with
      | String d s' => if Ascii.eqb c d then strip p' s' else None
      | EmptyString => None
      end
  end.

Definition digit (c : Ascii.ascii) : option (Decimal.uint → Decimal.uint) :=
  match Ascii.is_nat c with
  | Some 0 => Some Decimal.D0
  | Some 1 => Some Decimal.D1
  | Some 2 => Some Decimal.D2
  | Some 3 => Some Decimal.D3
  | Some 4 => Some Decimal.D4
  | Some 5 => Some Decimal.D5
  | Some 6 => Some Decimal.D6
  | Some 7 => Some Decimal.D7
  | Some 8 => Some Decimal.D8
  | Some 9 => Some Decimal.D9
  | _ => None
  end.

(** The digits [s] starts with, and what follows them. *)
Fixpoint parse_uint (s : string) : Decimal.uint * string :=
  match s with
  | EmptyString => (Decimal.Nil, s)
  | String c s' =>
      match digit c with
      | Some d => let '(u, r) := parse_uint s' in (d u, r)
      | None => (Decimal.Nil, s)
      end
  end.

(** A decimal literal has no leading zero. *)
Definition decimal_literal (u : Decimal.uint) : bool :=
  match u with
  | Decimal.Nil => false
  | Decimal.D0 Decimal.Nil => true
  | Decimal.D0 _ => false
  | _ => true
  end.

Definition parse_int (s : string) : option (Z * string) :=
  match strip "-" s with
  | Some s' =>
      let '(u, r) := parse_uint s' in
      if decimal_literal u then Some (Z.of_int (Decimal.Neg u), r) else None
  | None =>
      let '(u, r) := parse_uint s in
      if decimal_literal u then Some (Z.of_int (Decimal.Pos u), r) else None
  end.

(** One or more items separated by [", "]. *)
Fixpoint parse_items (item : string → option (pyobj * string)) (n : nat)
    (s : string) : option (list pyobj * string) :=
  match n with
  | O => None
  | S n' =>
      '(v, r) ← item s;
      match strip ", " r with
      | Some r' => '(vs, r'') ← parse_items item n' r'; Some (v :: vs, r'')
      | None => Some ([v], r)
      end
  end.

(** One or more [key: value] entries separated by [", "]. *)
Fixpoint parse_entries (item : string → option (pyobj * string)) (n : nat)
    (s : string) : option (list (pyobj * pyobj) * string) :=
  match n with
  | O => None
  | S n' =>
      '(k, r) ← item s;
      r ← strip ": " r;
      '(v, r) ← item r;
      match strip ", " r with
      | Some r' => '(kvs, r'') ← parse_entries item n' r'; Some ((k, v) :: kvs, r'')
      | None => Some ([(k, v)], r)
      end
  end.

Fixpoint parse_val (fuel : nat) (s : string) : option (pyobj * string) :=
  match fuel with
  | O => None
  | S fuel' =>
      let item := parse_val fuel' in
      match strip "(" s with
      | Some r =>
          match strip ")" r with
          | Some r' => Some (PyTuple [], r')
          | None =>
              '(vs, r) ← parse_items item fuel' r;
              match strip ")" r with
              | Some r' =>
                  Some (match vs with [v] => v | _ => PyTuple vs end, r')
              | None =>
                  r' ← strip ",)" r;
                  match vs with [v] => Some (PyTuple [v], r') | _ => None end
              end
          end
      | None =>
      match strip "[" s with
      | Some r =>
          match strip "]" r with
          | Some r' => Some (PyList [], r')
          | None =>
              '(vs, r) ← parse_items item fuel' r;
              r' ← strip "]" r; Some (PyList vs, r')
          end
      | None =>
      match strip "set([" s with
      | Some r =>
          match strip "])" r with
          | Some r' => Some (PySet [], r')
          | None =>
              '(vs, r) ← parse_items item fuel' r;
              r' ← strip "])" r; Some (PySet vs, r')
          end
      | None =>
      match strip "{" s with
      | Some r =>
          match strip "}" r with
          | Some r' => Some (PyDict [], r')
          | None =>
              '(kvs, r) ← parse_entries item fuel' r;
              r' ← strip "}" r; Some (PyDict kvs, r')
          end
      | None =>
      match strip "None" s with
      | Some r => Some (PyNone, r)
      | None => '(n, r) ← parse_int s; Some (PyInt n, r)
      end end end end end
  end.

Definition eval (s : string) : result pyobj :=
  match parse_val (S (String.length s)) s with
  | Some (v, EmptyString) => Ok v
  | _ => Raise SyntaxError
  end.

(** *** Notions the properties are stated with *)

(** Whether [sep] occurs in [s]. *)
Fixpoint contains (sep s : string) : bool :=
  match strip sep s with
  | Some _ => true
  | None =>
      match s with
      | EmptyString => false
      | String _ s' => contains sep s'
      end
  end.

(** Whether every character of [s] passes [p]. *)
Fixpoint all_chars (p : Ascii.ascii → bool) (s : string) : bool :=
  match s with
  | EmptyString => true
  | String c s' => p c && all_chars p s'
  end.

(** The characters [repr] prints for the values of [pyobj]. *)
Definition repr_char (c : Ascii.ascii) : bool :=
  match digit c with
  | Some _ => true
  | None => existsb (Ascii.eqb c) (String.list_ascii_of_string "-None(), []set{}:")
  end.

(** Whether [s] starts with a character that passes [p]. *)
Definition starts_with (p : Ascii.ascii → bool) (s : string) : bool :=
  match s with
  | EmptyString => false
  | String c _ => p c
  end.

Definition is_digit (c : Ascii.ascii) : bool :=
  match digit c with Some _ => true | None => false end.

(** The characters the text of a value can start with. *)
Definition repr_head (c : Ascii.ascii) : bool :=
  is_digit c || existsb (Ascii.eqb c) (String.list_ascii_of_string "-N([s{").

(** [parse_val] with [fuel] reads the text of [v] back, whatever
    follows it that is not a digit. *)
Definition reads_back (fuel : nat) (v : pyobj) : Prop :=
  ∀ rest, starts_with is_digit rest = false →
    parse_val fuel (repr v +:+ rest) = Some (as_evaluated v, rest).

(** The number of values a value is made of. *)
Fixpoint py_size (v : pyobj) : nat :=
  match v with
  | PyTuple l | PyList l | PySet l => S (foldr (λ a n, py_size a + n) 0 l)
  | PyDict l => S (foldr (λ kv n, py_size kv.1 + py_size kv.2 + n) 0 l)
  | _ => 1
  end.

End Py.

(** ** The collapse detectors *)

Module Collapse.
Import Py.

(** [numpy.where] on a one-dimensional array of flags, counting from [i]. *)
Fixpoint where_ {A} (f : A → bool) (i : nat) (l : list A) : list nat :=
  match l with
  | [] => []
  | a :: l' => if f a then i :: where_ f (S i) l' else where_ f (S i) l'
  end.

(** [numpy.where] on a two-dimensional array: the cells in row order. *)
Fixpoint where2 {A} (f : A → bool) (r : nat) (rows : list (list A))
    : list (nat * nat) :=
  match rows with
  | [] => []
  | row :: rows' => map (pair r) (where_ f 0 row) ++ where2 f (S r) rows'
  end.

(** [itertools.combinations(items, 2)] *)
Fixpoint combinations2 (items : list nat) : list (nat * nat) :=
  match items with
  | [] => []
  | i :: items' => map (pair i) items' ++ combinations2 items'
  end.

(** [monitor.x[-n:]], the last [n] entries *)
Definition last_entries {A} (n : nat) (l : list A) : list A :=
  drop (length l - n) l.

Fixpoint filterM {A} (f : A → result bool) (l : list A) : result (list A) :=
  match l with
  | [] => Ok []
  | a :: l' =>
      b ← f a; r ← filterM f l'; Ok (if b : bool then a :: r else r)
  end.

(** The items of a tuple or a list. *)
Definition items (v : pyobj) : option (list pyobj) :=
  match v with
  | PyTuple l | PyList l => Some l
  | _ => None
  end.

(** Modelled from the spec: [mystic.tools._inverted], every pair turned
    round; unpacking anything but a pair raises as Python does. *)
Fixpoint _inverted (pairs : list pyobj) : result (list pyobj) :=
  match pairs with
  | [] => Ok []
  | p :: pairs' =>
      match items p with
      | Some [i; j] => r ← _inverted pairs'; Ok (PyTuple [j; i] :: r)
      | Some _ => Raise ValueError
      | None => Raise TypeError
      end
  end.

(** Modelled from the spec: [mystic.tools._symmetric], the pairs together
    with their inverses. *)
Definition _symmetric (pairs : list pyobj) : result (list pyobj) :=
  inv ← _inverted pairs; Ok (pairs ++ inv).

(** [numpy.array(v).shape] for nested tuples and lists: as deep as the
    items agree in length. *)
Fixpoint common_prefix (a b : list nat) : list nat :=
  match a, b with
  | x :: a', y :: b' => if x =? y then x :: common_prefix a' b' else []
  | _, _ => []
  end.

Fixpoint np_shape (v : pyobj) : list nat :=
  match v with
  | PyTuple l | PyList l =>
      length l ::
        match map np_shape l with
        | [] => []
        | sh :: shs => foldl common_prefix sh shs
        end
  | _ => []
  end.

Definition np_ndim (v : pyobj) : nat := length (np_shape v).

(** An index or a pair of indices read off a numpy array. *)
Definition np_index (i : nat) : pyobj := NpInt (Z.of_nat i).
Definition np_pair (p : nat * nat) : pyobj :=
  PyTuple [np_index p.1; np_index p.2].

(** What a product-measure detector returns, in the format of its mask:
    a dict by measure, a set of the cells, or the cells in [where]
    notation (a pair of tuples, or [()] when there is none). *)
Inductive collapse_result (A : Type) `{Countable A} :=
  | by_measure (d : gmap nat (gset A))
  | as_pairs (s : gset (nat * A))
  | as_where (cells : list (nat * A)).
Arguments by_measure {A _ _} d.
Arguments as_pairs {A _ _} s.
Arguments as_where {A _ _} cells.

(** The mask once its format is known. *)
Inductive mask_format :=
  | mask_None
  | mask_set (elems : list pyobj)
  | mask_dict (entries : list (pyobj * pyobj))
  | mask_where (measures indices : list pyobj).

Section Detectors.

Context {num : Type}.
(** [<=] on floats; [max], [min], [-] and [abs]. *)
Variable leb : num → num → bool.
Variables nmax nmin nsub : num → num → num.
Variable nabs : num → num.

(** Modelled from the spec: the monitor (3, 6) keeps the solver's
    parameter vectors and, for a product measure, its weights and
    positions by measure; one entry per generation. *)
Record Monitor := mkMonitor {
  x : list (list num);
  wts : list (list (list num));
  pos : list (list (list num))
}.

(** What is handed in as [stepmon] need not be a monitor. *)
Inductive stepmon_arg :=
  | a_monitor (m : Monitor)
  | not_a_monitor.

(** Modelled from the spec: [mystic.monitors._solutions], [_weights] and
    [_positions], the accessors [solutions(last_n)], [weights(last_n)],
    [positions(last_n)] of the monitor. *)
Definition _solutions (stepmon : stepmon_arg) (generations : nat)
    : result (list (list num)) :=
  match stepmon with
  | a_monitor m => Ok (last_entries generations (x m))
  | not_a_monitor => Raise AttributeError
  end.
Definition _weights (stepmon : stepmon_arg) (generations : nat)
    : result (list (list (list num))) :=
  match stepmon with
  | a_monitor m => Ok (last_entries generations (wts m))
  | not_a_monitor => Raise AttributeError
  end.
Definition _positions (stepmon : stepmon_arg) (generations : nat)
    : result (list (list (list num))) :=
  match stepmon with
  | a_monitor m => Ok (last_entries generations (pos m))
  | not_a_monitor => Raise AttributeError
  end.

(** [a.max(axis=0)], [a.min(axis=0)] and [a.ptp(axis=0)] on two and on
    three dimensions; numpy refuses to reduce over no generation. *)
Definition reduce0 {A} (f : A → A → A) (a : list A) : result A :=
  match a with
  | [] => Raise ValueError
  | a0 :: a' => Ok (foldl f a0 a')
  end.
Definition max0 := reduce0 (zip_with nmax).
Definition min0 := reduce0 (zip_with nmin).
Definition ptp0 (a : list (list num)) : result (list num) :=
  hi ← max0 a; lo ← min0 a; Ok (zip_with nsub hi lo).
Definition max0_3 := reduce0 (zip_with (zip_with nmax)).

(** Modelled from the spec: [mystic.tools.pairwise(a, True)], the
    distances [|x_i - x_j|] along the last axis and the pairs [i < j]. *)
Definition pair_distances (row : list num) : list num :=
  omap (λ p, a ← row !! p.1; b ← row !! p.2; Some (nabs (nsub a b)))
    (combinations2 (seq 0 (length row))).
Definition last_axis {A} (a : list (list A)) : nat :=
  length (default [] (head a)).

(** *** [collapse_at] *)

Inductive target_arg :=
  | target_None
  | target_value (t : num)
  | target_list (ts : list num).

(** A tolerance is a number or a list of them: [np.asarray(tolerance)]
    with [shape = (-1,1)] is the column of its values. *)
Inductive tolerance_arg :=
  | tol_value (t : num)
  | tol_list (ts : list num).
Definition tolerance_column (tolerance : tolerance_arg) : list num :=
  match tolerance with tol_value t => [t] | tol_list ts => ts end.

(** Lines 26-34. *)
Definition reject_bad_mask_at (mask : pyobj) : result unit :=
  match mask with
  | PyNone => Ok ()
  | PySet elems => if existsb has_len elems then Raise ValueError else Ok ()
  | _ => Raise TypeError
  end.

(** [abs(params - target)], broadcasting [target] along the rows. *)
Definition distance_to (target : list num) (params : list (list num))
    : list (list num) :=
  map (λ row, zip_with (λ v t, nabs (nsub v t)) row target) params.

(** Lines 39-40, before the comparison with [tolerance]. *)
Definition change_at (target : target_arg) (params : list (list num))
    : result (list num) :=
  match target with
  | target_None => ptp0 params
  | target_value t =>
      max0 (distance_to (replicate (last_axis params) t) params)
  | target_list ts =>
      if last_axis params =? length ts then max0 (distance_to ts params)
      else Raise ValueError
  end.

(** Lines 39-42: the comparison of a row of changes with the column of
    tolerances gives one row of flags per tolerance; [np.where(...)[-1]]
    keeps the column of every flag that is set. *)
Definition collapsed_at (change : list num) (tolerance : list num) : list nat :=
  map snd (where2 (λ '(c, t), leb c t) 0
             (map (λ t, map (λ c, (c, t)) change) tolerance)).

Definition collapse_at (stepmon : stepmon_arg) (target : target_arg)
    (tolerance : tolerance_arg) (generations : nat) (mask : pyobj)
    : result (gset nat) :=
  _ ← reject_bad_mask_at mask;
  let tolerance := tolerance_column tolerance in
  params ← _solutions stepmon generations;
  change ← change_at target params;
  let params := collapsed_at change tolerance in
  match mask with
  | PySet elems =>
      Ok (list_to_set (filter (λ i, ¬ py_in (np_index i) elems) params))
  | _ => Ok (list_to_set params)
  end.

(** *** [collapse_as] *)

(** Lines 61-69. *)
Definition reject_bad_mask_as (mask : pyobj) : result unit :=
  match mask with
  | PyNone => Ok ()
  | PySet elems =>
      if existsb (λ i, has_len i && negb (len i =? 2)) elems
      then Raise ValueError else Ok ()
  | _ => Raise TypeError
  end.

(** [_split_mask]: the elements that are [int], and the others. *)
Definition _split_mask (mask : list pyobj) : list pyobj * list pyobj :=
  (filter (λ i, is_int i) mask, filter (λ i, ¬ is_int i) mask).

(** The entry of an array that has one entry only, [depth] axes down. *)
Fixpoint only_entry (depth : nat) (v : pyobj) : pyobj :=
  match depth with
  | O => v
  | S depth' =>
      match items v with
      | Some [a] => only_entry depth' a
      | _ => v
      end
  end.

(** [numpy.int64(n) == v] where a truth value is asked of it: numpy
    compares [n] with every entry of [numpy.array(v)], and refuses to
    give the truth value of more than one flag; no flag is false. *)
Definition np_eq_truth (n : Z) (v : pyobj) : result bool :=
  match np_shape v with
  | [] => Ok (py_eqb (NpInt n) v)
  | shape =>
      match foldr Nat.mul 1 shape with
      | 0 => Ok false
      | 1 => Ok (py_eqb (NpInt n) (only_entry (length shape) v))
      | _ => Raise ValueError
      end
  end.

(** [tuple(x) == e] for a pair [x] read off a numpy array, as [in] asks
    for it.  Two tuples are compared item by item up to the first items
    that differ, and by their lengths when there is none; a pair and a
    numpy integer are compared by numpy, which gives the two flags of
    the members and no truth value; a pair equals nothing else. *)
Definition pair_eq (p : nat * nat) (e : pyobj) : result bool :=
  match e with
  | NpInt _ => Raise ValueError
  | PyTuple [] => Ok false
  | PyTuple (a :: l) =>
      b ← np_eq_truth (Z.of_nat p.1) a;
      if b : bool then
        match l with
        | [] => Ok false
        | c :: l' =>
            b' ← np_eq_truth (Z.of_nat p.2) c;
            Ok (b' && match l' with [] => true | _ => false end)
        end
      else Ok false
  | _ => Ok false
  end.

(** [tuple(x) in mask], over the elements of [mask] in turn. *)
Fixpoint pair_in (p : nat * nat) (mask : list pyobj) : result bool :=
  match mask with
  | [] => Ok false
  | e :: mask' => b ← pair_eq p e; if b : bool then Ok true else pair_in p mask'
  end.

(** [_pair_selector(mask)(x)]; [or] looks at the inverted mask only when
    the pair is not in the mask itself. *)
Definition _pair_selector (mask : list pyobj) (p : nat * nat) : result bool :=
  b ← pair_in p mask;
  if b : bool then Ok true
  else inv ← _inverted mask; pair_in p inv.

(** [_index_selector(mask)(x)] *)
Definition _index_selector (mask : list pyobj) (p : nat * nat) : bool :=
  py_in (PyInt (Z.of_nat p.1)) mask || py_in (PyInt (Z.of_nat p.2)) mask.

Definition selector (mask : list pyobj) (p : nat * nat) : result bool :=
  let '(indices, pairs) := _split_mask mask in
  b ← _pair_selector pairs p;
  Ok (b || _index_selector indices p).

(** Lines 84-87: one flag per pair. *)
Definition tracking (offset : bool) (distances : list (list num))
    : result (list num) :=
  if offset then ptp0 distances else max0 distances.

Definition collapse_as (stepmon : stepmon_arg) (offset : bool)
    (tolerance : num) (generations : nat) (mask : pyobj)
    : result (gset (nat * nat)) :=
  _ ← reject_bad_mask_as mask;
  distances ← _solutions stepmon generations;
  let nindices := last_axis distances in
  let pairs := combinations2 (seq 0 nindices) in
  let distances := map pair_distances distances in
  distances ← tracking offset distances;
  let distances :=
    omap (λ i, pairs !! i) (where_ (λ d, leb d tolerance) 0 distances) in
  match mask with
  | PySet elems =>
      kept ← filterM (λ p, b ← selector elems p; Ok (negb b)) distances;
      Ok (list_to_set kept)
  | _ => Ok (list_to_set distances)
  end.

(** *** [collapse_weight] *)

(** [for i in mask: ...], raising at the first bad element. *)
Definition each {A} (f : A → result unit) (l : list A) : result unit :=
  foldr (λ a rest, _ ← f a; rest) (Ok ()) l.

(** Lines 110-136. *)
Definition reject_bad_mask_weight (mask : pyobj) : result mask_format :=
  match mask with
  | PyNone => Ok mask_None
  | PySet elems =>
      _ ← each (λ i,
             if negb (has_len i) || negb (len i =? 2) then Raise ValueError
             else match items i with
                  | Some [a; b] =>
                      if negb (is_int a) || negb (is_int b)
                      then Raise ValueError else Ok ()
                  | _ => Raise TypeError
                  end) elems;
      Ok (mask_set elems)
  | PyDict entries =>
      _ ← each (λ '(i, j),
             match j with
             | PySet ks =>
                 if negb (is_int i) then Raise ValueError
                 else if existsb has_len ks then Raise ValueError else Ok ()
             | _ => Raise ValueError
             end) entries;
      Ok (mask_dict entries)
  | PyTuple [a; b] | PyList [a; b] =>
      if negb (np_ndim mask =? 2) then Raise TypeError
      else Ok (mask_where (default [] (items a)) (default [] (items b)))
  | PyTuple [] | PyList [] => Ok (mask_where [] [])
  | _ => Raise TypeError
  end.

(** The cells of a mask in [where] notation: its two members zipped. *)
Definition where_cells (measures indices : list pyobj) : list pyobj :=
  zip_with (λ m i, PyTuple [m; i]) measures indices.

(** [mask.get(i, set())] for a mask that is a dict of sets *)
Fixpoint mask_get (entries : list (pyobj * pyobj)) (i : nat) : list pyobj :=
  match entries with
  | [] => []
  | (k, v) :: entries' =>
      if py_eqb k (PyInt (Z.of_nat i))
      then match v with PySet ks => ks | _ => [] end
      else mask_get entries' i
  end.

(** The dict of the cells: every measure that has one, with its set. *)
Definition dict_of_cells `{Countable A} (cells : list (nat * A))
    : gmap nat (gset A) :=
  foldr (λ '(m, a) d, <[m := {[a]} ∪ default ∅ (d !! m)]> d) ∅ cells.

(** The dict selectors of [_weight_filter] and [_position_filter]:
    every set less what [hidden] says of its measure, the empty ones
    dropped. *)
Definition without `{Countable A} (hidden : nat → A → bool)
    (d : gmap nat (gset A)) : gmap nat (gset A) :=
  map_imap (λ m v,
    let v' := filter (λ a, ¬ hidden m a) v in
    if decide (v' = ∅) then None else Some v') d.

Definition weight_cell (c : nat * nat) : pyobj := np_pair c.

(** [_weight_filter(mask)] applied to the cells that collapsed,
    lines 140-152 and 264-279. *)
Definition _weight_filter (mask : mask_format) (cells : list (nat * nat))
    : collapse_result nat :=
  match mask with
  | mask_None => by_measure (dict_of_cells cells)
  | mask_set elems =>
      as_pairs (list_to_set
        (filter (λ c, ¬ py_in (weight_cell c) elems) cells))
  | mask_dict entries =>
      by_measure (without (λ m i, py_in (np_index i) (mask_get entries m))
                    (dict_of_cells cells))
  | mask_where measures indices =>
      as_where (filter (λ c, ¬ py_in (weight_cell c)
                                   (where_cells measures indices)) cells)
  end.

Definition collapse_weight (stepmon : stepmon_arg) (tolerance : num)
    (generations : nat) (mask : pyobj) : result (collapse_result nat) :=
  mask ← reject_bad_mask_weight mask;
  weights ← _weights stepmon generations;
  weights ← max0_3 weights;
  let wts := where2 (λ w, leb w tolerance) 0 weights in
  Ok (_weight_filter mask wts).

(** *** [collapse_position] *)

(** Lines 167-199. *)
Definition reject_bad_mask_position (mask : pyobj) : result mask_format :=
  match mask with
  | PyNone => Ok mask_None
  | PySet elems =>
      _ ← each (λ i,
             if negb (has_len i) || negb (len i =? 2) then Raise ValueError
             else match items i with
                  | Some [a; b] =>
                      if negb (is_int a) then Raise ValueError
                      else if negb (np_ndim b =? 1) then Raise ValueError
                      else Ok ()
                  | _ => Raise TypeError
                  end) elems;
      Ok (mask_set elems)
  | PyDict entries =>
      _ ← each (λ '(i, j),
             match j with
             | PySet ks =>
                 if negb (is_int i) then Raise ValueError
                 else if existsb (λ k, negb (has_len k) || negb (len k =? 2)) ks
                 then Raise ValueError else Ok ()
             | _ => Raise ValueError
             end) entries;
      Ok (mask_dict entries)
  | PyTuple [a; b] | PyList [a; b] =>
      if negb (np_ndim a =? 1) then Raise TypeError
      else if negb (np_ndim b =? 2) then Raise TypeError
      else Ok (mask_where (default [] (items a)) (default [] (items b)))
  | PyTuple [] | PyList [] => Ok (mask_where [] [])
  | _ => Raise TypeError
  end.

Definition position_cell (c : nat * (nat * nat)) : pyobj :=
  PyTuple [PyInt (Z.of_nat c.1); np_pair c.2].

(** The second members of the elements of a set mask. *)
Definition seconds (elems : list pyobj) : list pyobj :=
  omap (λ e, match items e with Some [_; p] => Some p | _ => None end) elems.
Definition firsts (elems : list pyobj) : list pyobj :=
  omap (λ e, match items e with Some [m; _] => Some m | _ => None end) elems.

(** [_position_filter(mask)] applied to the pairs that collapsed in each
    measure, lines 216-237 and 281-306. *)
Definition _position_filter (mask : mask_format)
    (cells : list (nat * (nat * nat))) : result (collapse_result (nat * nat)) :=
  match mask with
  | mask_None => Ok (by_measure (dict_of_cells cells))
  | mask_set elems =>
      inv ← _inverted (seconds elems);
      let _mask := where_cells (firsts elems) inv in
      Ok (as_pairs (list_to_set
        (filter (λ c, ¬ py_in (position_cell c) elems ∧
                      ¬ py_in (position_cell c) _mask) cells)))
  | mask_dict entries =>
      sym ← foldr (λ '(k, v) rest,
                     r ← rest;
                     s ← _symmetric (match v with PySet ks => ks | _ => [] end);
                     Ok ((k, PySet s) :: r)) (Ok []) entries;
      Ok (by_measure (without (λ m p, py_in (np_pair p) (mask_get sym m))
                        (dict_of_cells cells)))
  | mask_where measures pairs =>
      inv ← _inverted pairs;
      let mask := where_cells (measures ++ measures) (pairs ++ inv) in
      Ok (as_where (filter (λ c, ¬ py_in (position_cell c) mask) cells))
  end.

Definition collapse_position (stepmon : stepmon_arg) (tolerance : num)
    (generations : nat) (mask : pyobj)
    : result (collapse_result (nat * nat)) :=
  mask ← reject_bad_mask_position mask;
  distances ← _positions stepmon generations;
  let nindices := last_axis (default [] (head distances)) in
  let pairs := combinations2 (seq 0 nindices) in
  let distances := map (map pair_distances) distances in
  distances ← max0_3 distances;
  let cells :=
    omap (λ '(m, i), p ← pairs !! i; Some (m, p))
      (where2 (λ d, leb d tolerance) 0 distances) in
  _position_filter mask cells.

(** *** Notions the properties are stated with *)

(** One tolerance is below another when their columns are, entry by
    entry. *)
Definition tolerance_le (t1 t2 : tolerance_arg) : Prop :=
  Forall2 (λ a b, leb a b = true) (tolerance_column t1) (tolerance_column t2).

End Detectors.

(** *** The masks the validations take

    An element of a set mask of [collapse_weight] is to be a pair of
    [int], one of [collapse_position] an [int] with a flat sequence; an
    entry of a dict mask is to be an [int] with a set, of elements
    without a length for [collapse_weight] and of length 2 for
    [collapse_position]. *)
Definition weight_pair (i : pyobj) : bool :=
  match items i with
  | Some [a; b] => is_int a && is_int b
  | _ => false
  end.
Definition position_pair (i : pyobj) : bool :=
  match items i with
  | Some [a; b] => is_int a && (np_ndim b =? 1)
  | _ => false
  end.
Definition weight_entry (kv : pyobj * pyobj) : bool :=
  is_int kv.1 &&
  match kv.2 with
  | PySet ks => forallb (λ k, negb (has_len k)) ks
  | _ => false
  end.
Definition position_entry (kv : pyobj * pyobj) : bool :=
  is_int kv.1 &&
  match kv.2 with
  | PySet ks => forallb (λ k, has_len k && (len k =? 2)) ks
  | _ => false
  end.

(** A mask in [where] notation that the validations take: an empty
    sequence, or two members that make an array of two dimensions for
    [collapse_weight], of one and of two for [collapse_position]. *)
Definition weight_where (mask : pyobj) : bool :=
  match items mask with
  | Some [] => true
  | Some [_; _] => np_ndim mask =? 2
  | _ => false
  end.
Definition position_where (mask : pyobj) : bool :=
  match items mask with
  | Some [] => true
  | Some [a; b] => (np_ndim a =? 1) && (np_ndim b =? 2)
  | _ => false
  end.

(** A numpy integer. *)
Definition is_npint (v : pyobj) : bool :=
  match v with NpInt _ => true | _ => false end.

(** Containment of two results of one format: measure by measure,
    as sets of cells, or as cells in [where] notation, in order. *)
Definition contained `{Countable A} (r1 r2 : collapse_result A) : Prop :=
  match r1, r2 with
  | by_measure d1, by_measure d2 =>
      ∀ m, default ∅ (d1 !! m) ⊆ default ∅ (d2 !! m)
  | as_pairs s1, as_pairs s2 => s1 ⊆ s2
  | as_where c1, as_where c2 => sublist c1 c2
  | _, _ => False
  end.

(** *** The result handed back as a mask *)

Definition where_py (measures others : list pyobj) : pyobj :=
  match measures with
  | [] => PyTuple []
  | _ => PyTuple [PyTuple measures; PyTuple others]
  end.

Definition indices_py (s : gset nat) : pyobj :=
  PySet (map np_index (elements s)).
Definition pairs_py (s : gset (nat * nat)) : pyobj :=
  PySet (map np_pair (elements s)).

(** A mask of [collapse_as] written by hand: indices and pairs of
    indices, all [int]. *)
Definition py_index (i : nat) : pyobj := PyInt (Z.of_nat i).
Definition py_pair (p : nat * nat) : pyobj :=
  PyTuple [py_index p.1; py_index p.2].
Definition as_mask_py (indices : list nat) (pairs : list (nat * nat)) : pyobj :=
  PySet (map py_index indices ++ map py_pair pairs).

Definition weight_py (r : collapse_result nat) : pyobj :=
  match r with
  | by_measure d =>
      PyDict (map (λ '(m, v), (PyInt (Z.of_nat m), indices_py v)) (map_to_list d))
  | as_pairs s => PySet (map weight_cell (elements s))
  | as_where cells =>
      where_py (map (λ c, np_index c.1) cells) (map (λ c, np_index c.2) cells)
  end.

Definition position_py (r : collapse_result (nat * nat)) : pyobj :=
  match r with
  | by_measure d =>
      PyDict (map (λ '(m, v), (PyInt (Z.of_nat m), pairs_py v)) (map_to_list d))
  | as_pairs s => PySet (map position_cell (elements s))
  | as_where cells =>
      where_py (map (λ c, PyInt (Z.of_nat c.1)) cells)
        (map (λ c, np_pair c.2) cells)
  end.

(** The cells of a result, whatever its format. *)
Definition cells_of `{Countable A} (r : collapse_result A) : gset (nat * A) :=
  match r with
  | by_measure d =>
      list_to_set (map_to_list d ≫= λ mv, map (pair mv.1) (elements mv.2))
  | as_pairs s => s
  | as_where cells => list_to_set cells
  end.

(** Two results of one format. *)
Definition same_format `{Countable A} (r r' : collapse_result A) : Prop :=
  match r, r' with
  | by_measure _, by_measure _ | as_pairs _, as_pairs _
  | as_where _, as_where _ => True
  | _, _ => False
  end.

(** A cell of positions with its pair turned round. *)
Definition turned (c : nat * (nat * nat)) : nat * (nat * nat) :=
  (c.1, (c.2.2, c.2.1)).

(** The results of [collapse_weight] other than a set of cells that is
    not empty. *)
Definition not_own_pairs (r : collapse_result nat) : Prop :=
  match r with
  | as_pairs s => s = ∅
  | _ => True
  end.

(** *** [collapsed] *)

(** The first piece of a split with [c] put in front of it. *)
Definition cons_first (c : Ascii.ascii) (pieces : list string) : list string :=
  match pieces with
  | [] => [String c ""]
  | p :: ps => String c p :: ps
  end.

(** [s.split(sep)] for a separator that is not empty: [skip] counts the
    characters of a separator just found that are still to be passed. *)
Fixpoint split_from (sep : string) (skip : nat) (s : string) : list string :=
  match s with
  | EmptyString => [""]
  | String c s' =>
      match skip with
      | S skip' => split_from sep skip' s'
      | O =>
          match strip sep s with
          | Some _ => "" :: split_from sep (String.length sep - 1) s'
          | None => cons_first c (split_from sep 0 s')
          end
      end
  end.
Definition split (sep s : string) : list string := split_from sep 0 s.

(** [s.rsplit(sep, 1)]: what is before and after the last [sep], when
    there is one. *)
Fixpoint rsplit1 (sep s : string) : option (string * string) :=
  match s with
  | EmptyString => None
  | String c s' =>
      match rsplit1 sep s' with
      | Some (before, after) => Some (String c before, after)
      | None =>
          match strip sep s with
          | Some after => Some ("", after)
          | None => None
          end
      end
  end.

(** Lines 310-318. *)
Definition collapsed (message : string) : result (option (gmap string pyobj)) :=
  collapses ←
    foldl (λ acc message,
             collapses ← acc;
             match rsplit1 " at " message with
             | Some (name, msg) => v ← eval msg; Ok (<[name := v]> collapses)
             | None => Ok collapses
             end)
      (Ok (∅ : gmap string pyobj)) (split "; " message);
  Ok (if decide (collapses = ∅) then None else Some collapses).

(** The message of a detector-backed condition (4.9) and of their
    combination. *)
Definition encode (name : string) (result : pyobj) : string :=
  name +:+ " at " +:+ repr result.

End Collapse.

(** ** Small runs over the integers *)

Module Examples.
Import DE.

Definition huge : Z := 100000000000000000000.
Definition inf : Z := 1000000000000000000000.

(** The sum of the squares. *)
Definition cost (x : list Z) : Z := foldr (λ a b, a * a + b)%Z 0%Z x.

(** A strategy that halves the member of the slot; it draws nothing. *)
Definition halve (s : @Solver Z) (candidate : nat) (r : unit)
    : list Z * unit :=
  (map (λ a, a `div` 2)%Z (default [] (population s !! candidate)), r).

(** Each component moved to the nearest point of the strict range. *)
Definition clip (s : @Solver Z) (x : list Z) : list Z :=
  zip_with Z.max (_strictMin s) (zip_with Z.min (_strictMax s) x).

Definition never (s : @Solver Z) : bool := false.
Definition at_once (s : @Solver Z) : bool := true.
Definition no_sigint (generation : nat) : bool := false.

(** Two members of one coordinate, energies at their initial [1.0E20]. *)
Definition solver0 (maxiter maxfun : option Z) : @Solver Z :=
  mkSolver 1 2 [[4]; [6]]%Z [huge; huge] [0]%Z huge [0]%Z [[]; []] [] 0
    maxiter maxfun false [] [] false 0%Z 0%Z.

(** The same under the strict range [3 <= x <= 10]. *)
Definition solver_strict (maxiter maxfun : option Z) : @Solver Z :=
  mkSolver 1 2 [[4]; [6]]%Z [huge; huge] [0]%Z huge [0]%Z [[]; []] [] 0
    maxiter maxfun true [3]%Z [10]%Z false 0%Z 0%Z.

Definition start (s : @Solver Z) : @State Z unit := mkState s 0 tt [].

Definition Solve_ex (termination : @Solver Z → bool) (has_callback : bool) :=
  Solve Z.ltb huge inf cost termination halve has_callback no_sigint clip
    1%Z 1%Z.
Definition Solve2_ex (termination : @Solver Z → bool) (has_callback : bool) :=
  Solve2 Z.ltb 0%Z huge inf cost termination halve has_callback no_sigint clip
    1%Z 1%Z.
Definition generation_step_ex (termination : @Solver Z → bool)
    (has_callback : bool) :=
  generation_step Z.ltb inf cost termination halve has_callback no_sigint.
Definition generation_step2_ex (termination : @Solver Z → bool)
    (has_callback : bool) :=
  generation_step2 Z.ltb inf cost termination halve has_callback no_sigint.
Definition diffev_ex (termination : @Solver Z → bool) (has_callback : bool)
    (s : @Solver Z) :=
  diffev Z.ltb 0%Z huge inf cost termination halve has_callback no_sigint clip
    s tt 1%Z 1%Z.

(** A monitor of three generations of three parameters, and of two
    generations of a product measure of two measures. *)
Definition monitor0 : @Collapse.Monitor Z :=
  Collapse.mkMonitor
    [[1; 5; 3]; [1; 6; 3]; [2; 7; 3]]%Z
    [[[0; 5]; [1; 0]]; [[0; 6]; [1; 0]]]%Z
    [[[1; 1; 4]; [2; 9; 2]]; [[1; 1; 5]; [2; 8; 2]]]%Z.

Definition collapse_at_ex := Collapse.collapse_at Z.leb Z.max Z.min Z.sub Z.abs.
Definition collapse_as_ex := Collapse.collapse_as Z.leb Z.max Z.min Z.sub Z.abs.
Definition collapse_weight_ex := Collapse.collapse_weight Z.leb Z.max.
Definition collapse_position_ex :=
  Collapse.collapse_position Z.leb Z.max Z.sub Z.abs.

End Examples.

(** * Properties *)

(** ** Loops and item access *)

Lemma bind_Ok {A B} (m : result A) (f : A → result B) b :
  m ≫= f = Ok b ↔ ∃ a, m = Ok a ∧ f a = Ok b.
Proof.
  destruct m as [a|e]; simpl; split.
  - intros H. by exists a.
  - by intros (a' & [= <-] & H).
  - done.
  - by intros (a' & [=] & _).
Qed.

Lemma getitem_Ok {A} (l : list A) i a : getitem l i = Ok a ↔ l !! i = Some a.
Proof. unfold getitem. destruct (l !! i); naive_solver. Qed.

Lemma getitem_lt {A} (l : list A) i : i < length l → ∃ a, getitem l i = Ok a.
Proof.
  intros [a Ha]%lookup_lt_is_Some_2.
  exists a. by apply getitem_Ok.
Qed.

Lemma setitem_Ok {A} (l : list A) i a l' :
  setitem l i a = Ok l' ↔ i < length l ∧ l' = <[i:=a]> l.
Proof.
  unfold setitem. destruct (l !! i) as [b|] eqn:E.
  - apply lookup_lt_Some in E. split; [by intros [= <-]|by intros [_ ->]].
  - apply lookup_ge_None in E. split; [done|]. intros [? _]. lia.
Qed.

Lemma setitem_lt {A} (l : list A) i a :
  i < length l → setitem l i a = Ok (<[i:=a]> l).
Proof. intros. by apply setitem_Ok. Qed.

Lemma for_each_app {S} (l1 l2 : list nat) (body : nat → S → result S) s :
  for_each (l1 ++ l2) body s = for_each l1 body s ≫= for_each l2 body.
Proof.
  revert s. induction l1 as [|c l1 IH]; intros s; simpl; [done|].
  destruct (body c s); simpl; [apply IH|done].
Qed.

(** A loop whose body keeps an invariant, and never raises under it, ends
    with the invariant. *)
Lemma for_each_invariant {S} (P : S → Prop) (l : list nat)
    (body : nat → S → result S) s :
  P s →
  (∀ c s, c ∈ l → P s → ∃ s', body c s = Ok s' ∧ P s') →
  ∃ s', for_each l body s = Ok s' ∧ P s'.
Proof.
  revert s. induction l as [|c l IH]; intros s Hs Hbody; simpl.
  - by exists s.
  - destruct (Hbody c s) as (s1 & -> & Hs1); [set_solver|done|]. simpl.
    apply IH; [done|]. intros c' s' Hc'. apply Hbody. set_solver.
Qed.

(** ** The differential evolution solvers *)

Module DEFacts.
Import DE.

Section Facts.

Context {num rng : Type}.
Variable ltb : num → num → bool.
Variables zero huge inf : num.
Variable cost : list num → num.
Variable termination : @Solver num → bool.
Variable strategy : @Solver num → nat → rng → list num * rng.
Variable has_callback : bool.
Variable sigint : nat → bool.
Variable _clipGuessWithinRangeBoundary : @Solver num → list num → list num.

Local Abbreviation State := (@DE.State num rng).
Local Abbreviation wrapped_cost := (DE.wrapped_cost ltb inf cost).
Local Abbreviation aligned_at := (DE.aligned_at ltb inf cost).
Local Abbreviation candidates_post := (@DE.candidates_post num rng ltb inf cost).
Local Abbreviation closing_events :=
  (DE.closing_events termination has_callback sigint).
Local Abbreviation generation_post := (@DE.generation_post num rng ltb inf cost).
Local Abbreviation loop_post := (@DE.loop_post num rng).
Local Abbreviation run_post := (@DE.run_post num rng).
Local Abbreviation costfunction := (@DE.costfunction num rng ltb inf cost).
Local Abbreviation call_strategy := (DE.call_strategy strategy).
Local Abbreviation candidate_step := (DE.candidate_step ltb inf cost strategy).
Local Abbreviation finish_generation :=
  (@DE.finish_generation num rng termination has_callback sigint).
Local Abbreviation generation_step :=
  (DE.generation_step ltb inf cost termination strategy has_callback sigint).
Local Abbreviation generation_loop :=
  (DE.generation_loop ltb inf cost termination strategy has_callback sigint).
Local Abbreviation build_trial := (DE.build_trial strategy).
Local Abbreviation map_costfunction := (@DE.map_costfunction num rng ltb inf cost).
Local Abbreviation replace_step := (DE.replace_step ltb).
Local Abbreviation generation_step2 :=
  (DE.generation_step2 ltb inf cost termination strategy has_callback sigint).
Local Abbreviation generation_loop2 :=
  (DE.generation_loop2 ltb inf cost termination strategy has_callback sigint).
Local Abbreviation prepare := (DE.prepare huge _clipGuessWithinRangeBoundary).
Local Abbreviation Solve :=
  (DE.Solve ltb huge inf cost termination strategy has_callback sigint
     _clipGuessWithinRangeBoundary).
Local Abbreviation Solve2 :=
  (DE.Solve2 ltb zero huge inf cost termination strategy has_callback sigint
     _clipGuessWithinRangeBoundary).
Local Abbreviation diffev :=
  (DE.diffev ltb zero huge inf cost termination strategy has_callback sigint
     _clipGuessWithinRangeBoundary).

(** *** Slots *)

Lemma untouched_refl (s : @Solver num) i : untouched_at s s i.
Proof. done. Qed.

Lemma untouched_trans (s1 s2 s3 : @Solver num) i :
  untouched_at s1 s2 i → untouched_at s2 s3 i → untouched_at s1 s3 i.
Proof. intros [? ?] [? ?]. split; congruence. Qed.

Lemma aligned_untouched bounds (s1 s2 : @Solver num) i :
  aligned_at bounds s1 i → untouched_at s1 s2 i → aligned_at bounds s2 i.
Proof. intros (x & ? & ?) [? ?]. exists x. split; congruence. Qed.

Lemma same_limits_refl (s : @Solver num) : same_limits s s.
Proof. done. Qed.

Lemma same_limits_trans (s1 s2 s3 : @Solver num) :
  same_limits s1 s2 → same_limits s2 s3 → same_limits s1 s3.
Proof. intros (?&?&?&?) (?&?&?&?). repeat split; congruence. Qed.

Lemma frozen_fields (s s' : @Solver num) :
  frozen s s' →
  population s' = population s ∧ popEnergy s' = popEnergy s ∧
  bestSolution s' = bestSolution s ∧ bestEnergy s' = bestEnergy s ∧
  genealogy s' = genealogy s ∧ nPop s' = nPop s.
Proof. by intros [t ->]. Qed.

Lemma frozen_refl (s : @Solver num) : frozen s s.
Proof. exists (trialSolution s). by destruct s. Qed.

Lemma frozen_trans (s1 s2 s3 : @Solver num) :
  frozen s1 s2 → frozen s2 s3 → frozen s1 s3.
Proof. intros [t ->] [t' ->]. by exists t'. Qed.

(** *** The wrapped cost function *)

Lemma costfunction_value bounds x (st : State) :
  (costfunction bounds x st).1 = wrapped_cost bounds x.
Proof.
  unfold DE.costfunction, DE.wrapped_cost.
  destruct bounds as [[lo hi]|]; [destruct (violates ltb x lo hi)|]; done.
Qed.

(** An evaluation leaves the solver alone; it is counted and monitored
    once, unless the point is out of the strict range. *)
Lemma costfunction_state bounds x (st : State) :
  let st' := (costfunction bounds x st).2 in
  self st' = self st ∧ rand st' = rand st ∧
  ∃ evs, trace st' = trace st ++ evs ∧ Forall is_evaluation evs ∧
         fcalls st' = fcalls st + length evs ∧ length evs ≤ 1 ∧
         (bounds = None → length evs = 1).
Proof.
  unfold DE.costfunction.
  destruct bounds as [[lo hi]|]; [destruct (violates ltb x lo hi)|]; simpl;
    (split; [done|split; [done|]]).
  - exists []. rewrite app_nil_r. repeat split; [done|simpl; lia..|done].
  - eexists [_]. repeat split; [by repeat constructor|simpl; lia..|done].
  - eexists [_]. repeat split; [by repeat constructor|simpl; lia..|done].
Qed.

(** *** One candidate of the sequential solver *)

Lemma candidate_step_spec bounds c (st : State) :
  well_formed (self st) → c < nPop (self st) →
  ∃ st', candidate_step bounds c st = Ok st' ∧
         candidates_post bounds 1 st st' ∧
         ∀ i, i ≠ c → untouched_at (self st) (self st') i.
Proof.
  intros (Hpop & Hen & Hgen) Hc. unfold DE.candidate_step, DE.call_strategy.
  destruct (strategy (self st) c (rand st)) as [trial r].
  set (st1 := mkState _ _ _ _).
  pose proof (costfunction_value bounds trial st1) as Hv.
  pose proof (costfunction_state bounds trial st1) as (Hs & _ & Hev).
  simpl. destruct (costfunction bounds trial st1) as [te st2]. simpl in *.
  subst te. rewrite Hs. simpl.
  destruct (getitem_lt (popEnergy (self st)) c) as [e ->]; [lia|]. simpl.
  destruct (ltb _ e) eqn:Hlt.
  - rewrite setitem_lt by lia. simpl. rewrite setitem_lt by lia. simpl.
    unfold UpdateGenealogyRecords. simpl.
    destruct (getitem_lt (genealogy (self st)) c) as [line ->]; [lia|]. simpl.
    eexists. split; [done|]. split.
    + split; [|split; [|split; [|split; [|split]]]].
      * destruct (ltb _ (bestEnergy _)); repeat split; simpl;
          by rewrite length_insert.
      * by destruct (ltb _ (bestEnergy _)).
      * by destruct (ltb _ (bestEnergy _)).
      * by destruct (ltb _ (bestEnergy _)).
      * done.
      * intros i. destruct (decide (i = c)) as [->|Hi].
        -- right. exists trial.
           destruct (ltb _ (bestEnergy _)); simpl;
             rewrite !list_lookup_insert_eq by lia; done.
        -- left. destruct (ltb _ (bestEnergy _)); split; simpl;
             by rewrite list_lookup_insert_ne.
    + intros i Hi. destruct (ltb _ (bestEnergy _)); split; simpl;
        by rewrite list_lookup_insert_ne.
  - exists st2. split; [done|]. unfold DE.candidates_post. rewrite Hs. split.
    + split; [done|]. repeat split; try done. by left.
    + done.
Qed.

(** *** The candidate loop of the sequential solver *)

Lemma candidates_spec bounds l (st : State) :
  well_formed (self st) → (∀ c, c ∈ l → c < nPop (self st)) →
  ∃ st', for_each l (candidate_step bounds) st = Ok st' ∧
         candidates_post bounds (length l) st st'.
Proof.
  revert st. induction l as [|c l IH]; intros st Hwf Hl; simpl.
  - exists st. split; [done|]. repeat split; try done; try apply Hwf.
    + exists []. rewrite app_nil_r. repeat split; [done|simpl; lia..|done].
    + by left.
  - destruct (candidate_step_spec bounds c st) as (st1 & -> & Hpost1 & Hother);
      [done|apply Hl; by left|]. simpl.
    destruct Hpost1 as (Hwf1 & Hlim1 & Hh1 & He1 & (evs1 & Ht1 & Hev1 & Hf1 & Hle1 & Hn1) & Hslot1).
    destruct (IH st1) as (st2 & -> & Hwf2 & Hlim2 & Hh2 & He2 & (evs2 & Ht2 & Hev2 & Hf2 & Hle2 & Hn2) & Hslot2);
      [done| |].
    { intros c' Hc'. destruct Hlim1 as (-> & _). apply Hl. by right. }
    exists st2. split; [done|]. split; [done|].
    split; [by eapply same_limits_trans|].
    split; [congruence|]. split; [congruence|]. split.
    + exists (evs1 ++ evs2). rewrite Ht2, Ht1, <- (assoc_L (++)), length_app.
      split; [done|]. split; [by apply Forall_app|]. split; [lia|].
      split; [lia|]. intros Hb. rewrite Hn1, Hn2 by done. done.
    + intros i. destruct (Hslot2 i) as [Hu2|Ha2]; [|by right].
      destruct (decide (i = c)) as [->|Hi].
      * destruct (Hslot1 c) as [Hu1|Ha1].
        -- left. by eapply untouched_trans.
        -- right. by eapply aligned_untouched.
      * left. eapply untouched_trans; [by apply Hother|done].
Qed.

(** *** The end of a generation *)

Lemma finish_generation_spec g (st : State) :
  let st' := (finish_generation g st).1 in
  self st' = set_EARLYEXIT (_EARLYEXIT (self st) || sigint g)
               (set_energy_history
                  (energy_history (self st) ++ [bestEnergy (self st)]) (self st)) ∧
  fcalls st' = fcalls st ∧ rand st' = rand st ∧
  trace st' = trace st ++ closing_events g (self st) ∧
  (finish_generation g st).2 = _EARLYEXIT (self st') || termination (self st').
Proof.
  unfold DE.finish_generation, DE.closing_events, with_self, emit.
  destruct st as [[? ? ? ? ? ? ? ? ? ? ? ? ? ? ? early ? ?] f r t]. cbn.
  generalize (sigint g). intros b. destruct has_callback, early, b; cbn;
    rewrite ?app_nil_r, <- ?(assoc_L (++)); done.
Qed.

Lemma closing_events_closing g s : Forall is_closing (closing_events g s).
Proof.
  unfold DE.closing_events. apply Forall_app.
  split; [destruct has_callback|destruct (_EARLYEXIT _)]; by repeat constructor.
Qed.

(** *** One generation of the sequential solver *)

Lemma generation_step_spec bounds maxfun g (st : State) :
  well_formed (self st) →
  ∃ st' brk, generation_step bounds maxfun g st = Ok (st', brk) ∧
    generation_post bounds st st' ∧ brk ≠ Some Exhausted ∧
    (brk = Some MaxFunBreak → (maxfun ≤ Z.of_nat (fcalls st'))%Z).
Proof.
  intros Hwf. unfold DE.generation_step.
  set (st0 := emit _ st).
  destruct (maxfun <=? _)%Z eqn:E.
  - exists st0, (Some MaxFunBreak). split; [done|]. split.
    + split; [done|]. split; [done|]. split; [by left|].
      exists [], []. simpl. repeat split; try done; lia.
    + split; [done|]. intros _. by apply Z.leb_le.
  - destruct (candidates_spec bounds (seq 0 (nPop (self st0))) st0)
      as (st1 & -> & Hwf1 & Hlim1 & _ & _ & (evs & Ht1 & Hev & Hf1 & _) & Hslot);
      [done|intros c Hc%elem_of_seq; lia|].
    simpl. pose proof (finish_generation_spec g st1) as (Hs & Hf & _ & Ht & Hb).
    destruct (finish_generation g st1) as [st2 stop]. simpl in *.
    exists st2, (if stop then Some StopBreak else None). split; [done|].
    split; [|split; [by destruct stop|by destruct stop]].
    unfold DE.generation_post. rewrite Hs. split; [done|]. split; [done|].
    split; [done|]. exists evs, (closing_events g (self st1)).
    rewrite Ht, Ht1, Hf, Hf1. simpl. rewrite <- !(assoc_L (++)). simpl.
    split; [done|]. split; [done|]. split; [apply closing_events_closing|done].
Qed.

(** *** The three phases of a generation of the second solver *)

(** Building the trials changes the scratch vector and the random
    generator only; the trial of slot [i] is what the strategy gives on
    a solver that is the one the generation started with, but for the
    scratch vector. *)
Lemma build_trials_spec l (st : State) tp :
  (∀ c, c ∈ l → c < length tp) →
  ∃ st' tp', for_each l build_trial (st, tp) = Ok (st', tp') ∧
    frozen (self st) (self st') ∧ fcalls st' = fcalls st ∧
    trace st' = trace st ∧ length tp' = length tp ∧
    (∀ i, i ∉ l → tp' !! i = tp !! i) ∧
    (∀ i, i ∈ l → ∃ s_i r_i, frozen (self st) s_i ∧
                   tp' !! i = Some (strategy s_i i r_i).1).
Proof.
  revert st tp. induction l as [|c l IH]; intros st tp Hl; simpl.
  - exists st, tp. split; [done|]. split; [apply frozen_refl|].
    repeat split; try done. intros i Hi. by apply elem_of_nil in Hi.
  - unfold DE.call_strategy.
    destruct (strategy (self st) c (rand st)) as [trial r] eqn:Hst.
    cbn [self]. rewrite setitem_lt by (apply Hl; by left). cbn.
    set (st1 := mkState _ _ _ _).
    destruct (IH st1 (<[c:=trial]> tp))
      as (st' & tp' & -> & Hfr & Hf & Ht & Hlen & Hout & Hin).
    { intros c' Hc'. rewrite length_insert. apply Hl. by right. }
    assert (frozen (self st) (self st1)) as Hfr1 by by exists trial.
    exists st', tp'. split; [done|]. split; [exact (frozen_trans _ _ _ Hfr1 Hfr)|].
    split; [done|]. split; [done|]. split; [by rewrite Hlen, length_insert|].
    split.
    + intros i Hi. apply not_elem_of_cons in Hi as [Hic Hil].
      rewrite Hout by done. by rewrite list_lookup_insert_ne.
    + intros i Hi. destruct (decide (i ∈ l)) as [Hil|Hil].
      * destruct (Hin i Hil) as (s_i & r_i & Hfri & Hlook).
        exists s_i, r_i. split; [exact (frozen_trans _ _ _ Hfr1 Hfri)|done].
      * apply elem_of_cons in Hi as [->|?]; [|done].
        exists (self st), (rand st). split; [apply frozen_refl|].
        rewrite Hout by done. rewrite list_lookup_insert_eq by (apply Hl; by left).
        by rewrite Hst.
Qed.

(** Evaluating the trials touches nothing of the solver. *)
Lemma map_costfunction_spec bounds xs (st : State) :
  (map_costfunction bounds xs st).1 = (wrapped_cost bounds <$> xs) ∧
  self (map_costfunction bounds xs st).2 = self st ∧
  ∃ evs, trace (map_costfunction bounds xs st).2 = trace st ++ evs ∧
         Forall is_evaluation evs ∧
         fcalls (map_costfunction bounds xs st).2 = fcalls st + length evs ∧
         length evs ≤ length xs ∧ (bounds = None → length evs = length xs).
Proof.
  revert st. induction xs as [|x xs IH]; intros st; simpl.
  - split; [done|]. split; [done|]. exists []. rewrite app_nil_r.
    repeat split; [done|simpl; lia..|done].
  - pose proof (costfunction_value bounds x st) as Hv.
    pose proof (costfunction_state bounds x st)
      as (Hs & _ & evs1 & Ht1 & Hev1 & Hf1 & Hle1 & Hn1).
    destruct (costfunction bounds x st) as [e st1]. simpl in *.
    destruct (IH st1) as (Hes & Hs2 & evs2 & Ht2 & Hev2 & Hf2 & Hle2 & Hn2).
    destruct (map_costfunction bounds xs st1) as [es st2]. simpl in *.
    split; [by rewrite Hv, Hes|]. split; [congruence|].
    exists (evs1 ++ evs2). rewrite Ht2, Ht1, <- (assoc_L (++)), length_app.
    split; [done|]. split; [by apply Forall_app|]. split; [lia|].
    split; [lia|]. intros Hb. rewrite Hn1, Hn2 by done. done.
Qed.

(** A replacement writes the trial of the slot and its energy. *)
Lemma replace_step_spec bounds tp c (s : @Solver num) :
  well_formed s → c < nPop s → length tp = nPop s →
  ∃ s', replace_step tp (wrapped_cost bounds <$> tp) c s = Ok s' ∧
    well_formed s' ∧ same_limits s s' ∧
    energy_history s' = energy_history s ∧ _EARLYEXIT s' = _EARLYEXIT s ∧
    (∀ i, i ≠ c → untouched_at s s' i) ∧
    (untouched_at s s' c ∨ aligned_at bounds s' c).
Proof.
  intros (Hpop & Hen & Hgen) Hc Htp. unfold DE.replace_step.
  destruct (lookup_lt_is_Some_2 tp c) as [trial Htrial]; [lia|].
  assert (getitem (wrapped_cost bounds <$> tp) c = Ok (wrapped_cost bounds trial))
    as -> by (unfold getitem; by rewrite list_lookup_fmap, Htrial).
  assert (getitem tp c = Ok trial) as Hg by by apply getitem_Ok.
  simpl. destruct (getitem_lt (popEnergy s) c) as [e ->]; [lia|]. simpl.
  destruct (ltb _ e) eqn:Hlt.
  - rewrite setitem_lt by lia. simpl. rewrite Hg. simpl.
    rewrite setitem_lt by lia. simpl.
    unfold UpdateGenealogyRecords. simpl.
    destruct (getitem_lt (genealogy s) c) as [line ->]; [lia|]. simpl.
    destruct (ltb _ (bestEnergy s)); simpl;
      (eexists; split; [done|]);
      (split; [by repeat split; simpl; rewrite length_insert|]);
      (split; [done|]); (split; [done|]); (split; [done|]);
      (split;
       [intros i Hi; split; simpl; by rewrite list_lookup_insert_ne
       |right; exists trial; simpl; by rewrite !list_lookup_insert_eq by lia]).
  - exists s. repeat split; try done. by left.
Qed.

Lemma lift_self_Ok (f : @Solver num → result (@Solver num)) (st : State) s :
  f (self st) = Ok s → lift_self f st = Ok (with_self (λ _, s) st).
Proof. unfold lift_self. by intros ->. Qed.

Lemma replacements_spec bounds tp l (st : State) :
  well_formed (self st) → length tp = nPop (self st) →
  (∀ c, c ∈ l → c < nPop (self st)) →
  ∃ st', for_each l
           (λ c, lift_self (replace_step tp (wrapped_cost bounds <$> tp) c)) st
         = Ok st' ∧
    fcalls st' = fcalls st ∧ trace st' = trace st ∧
    well_formed (self st') ∧ same_limits (self st) (self st') ∧
    (∀ i, untouched_at (self st) (self st') i ∨ aligned_at bounds (self st') i).
Proof.
  revert st. induction l as [|c l IH]; intros st Hwf Htp Hl; simpl.
  - exists st. repeat split; try done; try apply Hwf. by left.
  - destruct (replace_step_spec bounds tp c (self st))
      as (s1 & Hs1 & Hwf1 & Hlim1 & _ & _ & Hother & Hslot1);
      [done|apply Hl; by left|done|].
    rewrite (lift_self_Ok _ _ _ Hs1). simpl.
    set (st1 := with_self _ st).
    destruct (IH st1) as (st2 & -> & Hf2 & Ht2 & Hwf2 & Hlim2 & Hslot2);
      [done|simpl; destruct Hlim1 as (-> & _); done| |].
    { intros c' Hc'. simpl. destruct Hlim1 as (-> & _). apply Hl. by right. }
    exists st2. split; [done|]. split; [done|]. split; [done|].
    split; [done|]. split; [exact (same_limits_trans _ _ _ Hlim1 Hlim2)|].
    intros i. destruct (Hslot2 i) as [Hu2|Ha2]; [|by right].
    destruct (decide (i = c)) as [->|Hi].
    + destruct Hslot1 as [Hu1|Ha1].
      * left. exact (untouched_trans _ _ _ _ Hu1 Hu2).
      * right. exact (aligned_untouched _ _ _ _ Ha1 Hu2).
    + left. exact (untouched_trans _ _ _ _ (Hother i Hi) Hu2).
Qed.

(** *** One generation of the second solver *)

Lemma generation_step2_spec bounds maxfun g (st : State) tp :
  well_formed (self st) → length tp = nPop (self st) →
  ∃ st' tp' brk,
    generation_step2 bounds maxfun g (st, tp) = Ok (st', tp', brk) ∧
    generation_post bounds st st' ∧ length tp' = nPop (self st') ∧
    brk ≠ Some Exhausted ∧
    (brk = Some MaxFunBreak → (maxfun ≤ Z.of_nat (fcalls st'))%Z).
Proof.
  intros Hwf Htp. unfold DE.generation_step2.
  set (st0 := emit _ st).
  destruct (maxfun <=? _)%Z eqn:E.
  - exists st0, tp, (Some MaxFunBreak). split; [done|]. split.
    + split; [done|]. split; [done|]. split; [by left|].
      exists [], []. simpl. repeat split; try done; lia.
    + split; [done|]. split; [done|]. intros _. by apply Z.leb_le.
  - destruct (build_trials_spec (seq 0 (nPop (self st0))) st0 tp)
      as (st1 & tp1 & -> & Hfr & Hf1 & Ht1 & Hlen1 & _ & _).
    { intros c Hc%elem_of_seq. simpl in Hc. lia. }
    simpl. destruct Hfr as [t Hs1].
    pose proof (map_costfunction_spec bounds tp1 st1)
      as (Hes & Hs2 & evs & Ht2 & Hev & Hf2 & _).
    destruct (map_costfunction bounds tp1 st1) as [es st2]. simpl in *.
    subst es. rewrite Hs2, Hs1. simpl.
    destruct (replacements_spec bounds tp1 (seq 0 (nPop (self st))) st2)
      as (st3 & -> & Hf3 & Ht3 & Hwf3 & Hlim3 & Hslot3).
    { by rewrite Hs2, Hs1. }
    { rewrite Hs2, Hs1. simpl. congruence. }
    { intros c Hc%elem_of_seq. rewrite Hs2, Hs1. simpl. lia. }
    simpl. pose proof (finish_generation_spec g st3) as (Hs & Hf & _ & Ht & Hb).
    destruct (finish_generation g st3) as [st4 stop]. simpl in *.
    exists st4, tp1, (if stop then Some StopBreak else None). split; [done|].
    rewrite Hs2, Hs1 in Hlim3, Hslot3. simpl in *.
    split; [|split; [|split; [by destruct stop|by destruct stop]]].
    + unfold DE.generation_post. rewrite Hs. split; [done|]. split; [done|].
      split; [done|]. exists evs, (closing_events g (self st3)).
      rewrite Ht, Ht3, Ht2, Ht1, Hf, Hf3, Hf2, Hf1. simpl.
      rewrite <- !(assoc_L (++)). simpl.
      split; [done|]. split; [done|]. split; [apply closing_events_closing|done].
    + rewrite Hs. simpl. destruct Hlim3 as (-> & _). simpl. congruence.
Qed.

(** *** The limit on evaluations *)

Lemma generation_loop_left_by_maxfun bounds maxfun todo g last
    (st st' : State) g' :
  generation_loop bounds maxfun todo g last st = Ok (st', g', MaxFunBreak) →
  ∃ stp : State,
    (maxfun ≤ Z.of_nat (fcalls stp))%Z ∧
    st' = emit (StepMonitor (bestSolution (self stp)) (bestEnergy (self stp)))
            stp.
Proof.
  revert g last st. induction todo as [|todo IH]; intros g last st;
    cbn [DE.generation_loop]; [done|].
  unfold DE.generation_step. set (st0 := emit _ st).
  destruct (maxfun <=? Z.of_nat (fcalls st0))%Z eqn:Hm.
  - simpl. intros [= <- <-]. exists st. split; [by apply Z.leb_le|done].
  - destruct (for_each _ _ st0) as [st1|]; simpl; [|done].
    destruct (finish_generation g st1) as [st2 stop]. simpl.
    destruct stop; [done|]. apply IH.
Qed.

(** C2 (amended): in the sequential solver the test [fcalls >= maxfun]
    is made once per generation, right after the step monitor is called
    and before the candidate loop.  When it holds, the generation loop
    is left at once, however many turns are left of it: what the loop
    returns is the state before the turn with the step event added, so
    no candidate is tried, no history entry is added, and neither the
    callback nor the termination test runs.  When it does not hold, all
    [nPop] candidates are tried, whatever the counter becomes on the way
    (without strict ranges it grows by [nPop]), and the history entry,
    the callback and the termination test follow; the loop then ends if
    the test says so and goes on with the next generation otherwise.
    Whenever the loop, or [Solve], is left by this [break], the state
    it leaves is one with a step event just added. *)
Theorem generation_step_maxfun_check bounds maxfun g (st : State) :
  well_formed (self st) →
  let st0 :=
    emit (StepMonitor (bestSolution (self st)) (bestEnergy (self st))) st in
  ((maxfun ≤ Z.of_nat (fcalls st))%Z →
   generation_step bounds maxfun g st = Ok (st0, Some MaxFunBreak) ∧
   ∀ todo last,
     generation_loop bounds maxfun (S todo) g last st
       = Ok (st0, g, MaxFunBreak)) ∧
  ((Z.of_nat (fcalls st) < maxfun)%Z →
   ∃ st1,
     for_each (seq 0 (nPop (self st))) (candidate_step bounds) st0 = Ok st1 ∧
     candidates_post bounds (nPop (self st)) st0 st1 ∧
     generation_step bounds maxfun g st =
       Ok ((finish_generation g st1).1,
           if (finish_generation g st1).2 then Some StopBreak else None) ∧
     energy_history (self (finish_generation g st1).1) =
       energy_history (self st) ++ [bestEnergy (self st1)] ∧
     trace (finish_generation g st1).1 =
       trace st1 ++ closing_events g (self st1) ∧
     ∀ todo last,
       generation_loop bounds maxfun (S todo) g last st =
       if (finish_generation g st1).2
       then Ok ((finish_generation g st1).1, g, StopBreak)
       else generation_loop bounds maxfun todo (S g) g
              (finish_generation g st1).1) ∧
  (∀ todo last st' g',
     generation_loop bounds maxfun todo g last st = Ok (st', g', MaxFunBreak) →
     ∃ stp : State,
       (maxfun ≤ Z.of_nat (fcalls stp))%Z ∧
       st' = emit (StepMonitor (bestSolution (self stp))
                     (bestEnergy (self stp))) stp) ∧
  (∀ cp sf st',
     Solve cp sf st = Ok (st', MaxFunBreak) →
     ∃ (stp : State) g',
       st' = with_self (set_generations g')
               (emit (StepMonitor (bestSolution (self stp))
                        (bestEnergy (self stp))) stp)).
Proof.
  intros Hwf st0.
  assert ((maxfun ≤ Z.of_nat (fcalls st))%Z →
          generation_step bounds maxfun g st = Ok (st0, Some MaxFunBreak))
    as Hfire.
  { intros H. unfold DE.generation_step. fold st0.
    change (fcalls st0) with (fcalls st). apply Z.leb_le in H. by rewrite H. }
  split; [|split; [|split]].
  - intros H. split; [by apply Hfire|]. intros todo last.
    cbn [DE.generation_loop]. by rewrite (Hfire H).
  - intros H.
    assert (∃ st1,
      for_each (seq 0 (nPop (self st))) (candidate_step bounds) st0 = Ok st1 ∧
      candidates_post bounds (nPop (self st)) st0 st1 ∧
      generation_step bounds maxfun g st =
        Ok ((finish_generation g st1).1,
            if (finish_generation g st1).2 then Some StopBreak else None) ∧
      energy_history (self (finish_generation g st1).1) =
        energy_history (self st) ++ [bestEnergy (self st1)] ∧
      trace (finish_generation g st1).1 =
        trace st1 ++ closing_events g (self st1))
      as (st1 & Hrun & Hpost & Hstep & Hhist & Htrace).
    { unfold DE.generation_step. fold st0.
      change (fcalls st0) with (fcalls st). apply Z.leb_gt in H. rewrite H.
      destruct (candidates_spec bounds (seq 0 (nPop (self st0))) st0)
        as (st1 & Hrun & Hpost); [done|intros c Hc%elem_of_seq; lia|].
      rewrite length_seq in Hpost.
      change (nPop (self st0)) with (nPop (self st)) in *.
      exists st1. split; [done|]. split; [done|]. rewrite Hrun. simpl.
      pose proof (finish_generation_spec g st1) as (Hs & _ & _ & Ht & _).
      destruct (finish_generation g st1) as [st2 stop]. simpl in *.
      split; [done|]. split; [|done]. rewrite Hs. simpl.
      destruct Hpost as (_ & _ & -> & _). done. }
    exists st1. split; [done|]. split; [done|]. split; [done|].
    split; [done|]. split; [done|]. intros todo last.
    cbn [DE.generation_loop]. rewrite Hstep. cbn [mbind result_bind].
    by destruct (finish_generation g st1).2.
  - intros todo last st' g'. apply generation_loop_left_by_maxfun.
  - intros cp sf st'. unfold DE.Solve.
    destruct (prepare cp sf (self st)) as [[s b]|]; cbn [mbind result_bind];
      [|done].
    destruct (generation_loop b _ _ _ _ _) as [[[st2 g2] why]|] eqn:Hloop;
      cbn [mbind result_bind]; [|done].
    intros [= <- ->].
    destruct (generation_loop_left_by_maxfun _ _ _ _ _ _ _ _ Hloop)
      as (stp & _ & ->).
    by exists stp, g2.
Qed.

(** *** Trials against a frozen population *)

(** C3: in a generation of the second solver that passes the test on
    [maxfun], the first loop builds all [nPop] trials and changes
    nothing of the solver but the scratch vector: each trial is what
    the strategy gives on a solver whose population, energies and best
    are those at the start of the generation.  Evaluating the trials
    changes nothing of the solver either; the replacement loop runs on
    the state after the last evaluation. *)
Theorem generation_step2_frozen bounds maxfun g (st : State) tp :
  length tp = nPop (self st) → (Z.of_nat (fcalls st) < maxfun)%Z →
  let st0 :=
    emit (StepMonitor (bestSolution (self st)) (bestEnergy (self st))) st in
  ∃ st1 tp1,
    for_each (seq 0 (nPop (self st))) build_trial (st0, tp) = Ok (st1, tp1) ∧
    length tp1 = nPop (self st) ∧
    (∀ i, i < nPop (self st) →
       ∃ s_i r_i, frozen (self st) s_i ∧ tp1 !! i = Some (strategy s_i i r_i).1) ∧
    let st2 := (map_costfunction bounds tp1 st1).2 in
    (map_costfunction bounds tp1 st1).1 = (wrapped_cost bounds <$> tp1) ∧
    frozen (self st) (self st2) ∧
    population (self st2) = population (self st) ∧
    popEnergy (self st2) = popEnergy (self st) ∧
    bestSolution (self st2) = bestSolution (self st) ∧
    bestEnergy (self st2) = bestEnergy (self st) ∧
    generation_step2 bounds maxfun g (st, tp) =
      st3 ← for_each (seq 0 (nPop (self st)))
              (λ c, lift_self
                      (replace_step tp1 (wrapped_cost bounds <$> tp1) c)) st2;
      Ok ((finish_generation g st3).1, tp1,
          if (finish_generation g st3).2 then Some StopBreak else None).
Proof.
  intros Htp Hmax st0.
  destruct (build_trials_spec (seq 0 (nPop (self st))) st0 tp)
    as (st1 & tp1 & Hbuild & Hfr & Hf1 & Ht1 & Hlen1 & _ & Hin).
  { intros c Hc%elem_of_seq. lia. }
  exists st1, tp1. split; [done|]. split; [congruence|]. split.
  { intros i Hi. apply Hin, elem_of_seq. lia. }
  pose proof (map_costfunction_spec bounds tp1 st1) as (Hes & Hs2 & _).
  simpl. split; [done|]. rewrite Hs2.
  destruct (frozen_fields _ _ Hfr) as (Hp & He & Hbs & Hbe & _ & Hn).
  do 5 (split; [done|]).
  unfold DE.generation_step2. fold st0. change (fcalls st0) with (fcalls st).
  apply Z.leb_gt in Hmax. rewrite Hmax.
  change (nPop (self st0)) with (nPop (self st)). rewrite Hbuild. simpl.
  destruct (map_costfunction bounds tp1 st1) as [es st2]. simpl in *.
  subst es. rewrite Hs2, Hn.
  destruct (for_each _ _ st2) as [st3|e]; simpl; [|done].
  by destruct (finish_generation g st3).
Qed.

(** *** Alignment of members and energies *)


(** *** What the monitors count *)

Lemma stepmon_x_app (tr1 tr2 : list (@event num)) :
  stepmon_x (tr1 ++ tr2) = stepmon_x tr1 ++ stepmon_x tr2.
Proof. apply omap_app. Qed.

Lemma evalmon_x_app (tr1 tr2 : list (@event num)) :
  evalmon_x (tr1 ++ tr2) = evalmon_x tr1 ++ evalmon_x tr2.
Proof. apply omap_app. Qed.

Lemma evaluations_count (evs : list (@event num)) :
  Forall is_evaluation evs →
  length (evalmon_x evs) = length evs ∧ stepmon_x evs = [].
Proof.
  induction 1 as [|[] evs Hev _ [IH1 IH2]]; simpl in *; try done.
  by rewrite IH1.
Qed.

Lemma closing_count (evs : list (@event num)) :
  Forall is_closing evs → evalmon_x evs = [] ∧ stepmon_x evs = [].
Proof. induction 1 as [|[] evs Hev _ [IH1 IH2]]; simpl in *; done. Qed.

Lemma generation_post_counts bounds (st st' : State) :
  generation_post bounds st st' →
  length (stepmon_x (trace st')) = S (length (stepmon_x (trace st))) ∧
  (length (evalmon_x (trace st)) = fcalls st →
   length (evalmon_x (trace st')) = fcalls st').
Proof.
  intros (_ & _ & _ & evs & cl & -> & Hev & Hcl & ->).
  destruct (evaluations_count evs Hev) as [He1 He2].
  destruct (closing_count cl Hcl) as [Hc1 Hc2].
  rewrite stepmon_x_app, evalmon_x_app. simpl.
  rewrite stepmon_x_app, evalmon_x_app, He2, Hc1, Hc2, !length_app. simpl.
  split; lia.
Qed.

(** *** The generation loops *)

Lemma generation_loop_spec bounds maxfun todo g last (st : State) :
  well_formed (self st) → length (evalmon_x (trace st)) = fcalls st →
  ∃ st' g' why,
    generation_loop bounds maxfun todo g last st = Ok (st', g', why) ∧
    loop_post maxfun todo st st' why.
Proof.
  revert g last st. induction todo as [|todo IH]; intros g last st Hwf Hcnt; simpl.
  - exists st, last, Exhausted. split; [done|].
    repeat split; try done; try apply Hwf; lia.
  - destruct (generation_step_spec bounds maxfun g st Hwf)
      as (st1 & brk & -> & Hpost & Hne & Hmax). simpl.
    destruct (generation_post_counts _ _ _ Hpost) as [Hsteps Hevals].
    pose proof Hpost as (Hwf1 & Hlim1 & _).
    destruct brk as [why|].
    + exists st1, g, why. split; [done|]. split; [done|]. split; [done|].
      split; [auto|]. split; [lia|]. split; [by intros ->|].
      intros ->. by apply Hmax.
    + destruct (IH (S g) g st1) as (st2 & g2 & why & -> & Hwf2 & Hlim2 & Hc2 & Hle2 & Hex2 & Hmf2);
        [done|auto|].
      exists st2, g2, why. split; [done|]. split; [done|].
      split; [exact (same_limits_trans _ _ _ Hlim1 Hlim2)|]. split; [done|].
      split; [lia|]. split; [|done]. intros Hw. rewrite Hex2 by done. lia.
Qed.

Lemma generation_loop2_spec bounds maxfun todo g last (st : State) tp :
  well_formed (self st) → length tp = nPop (self st) →
  length (evalmon_x (trace st)) = fcalls st →
  ∃ st' g' why,
    generation_loop2 bounds maxfun todo g last (st, tp) = Ok (st', g', why) ∧
    loop_post maxfun todo st st' why.
Proof.
  revert g last st tp.
  induction todo as [|todo IH]; intros g last st tp Hwf Htp Hcnt;
    cbn [DE.generation_loop2].
  - exists st, last, Exhausted. split; [done|].
    repeat split; try done; try apply Hwf; lia.
  - destruct (generation_step2_spec bounds maxfun g st tp Hwf Htp)
      as (st1 & tp1 & brk & -> & Hpost & Htp1 & Hne & Hmax). simpl.
    destruct (generation_post_counts _ _ _ Hpost) as [Hsteps Hevals].
    pose proof Hpost as (Hwf1 & Hlim1 & _).
    destruct brk as [why|].
    + exists st1, g, why. split; [done|]. split; [done|]. split; [done|].
      split; [auto|]. split; [lia|]. split; [by intros ->|].
      intros ->. by apply Hmax.
    + destruct (IH (S g) g st1 tp1) as (st2 & g2 & why & -> & Hwf2 & Hlim2 & Hc2 & Hle2 & Hex2 & Hmf2);
        [done|done|auto|].
      exists st2, g2, why. split; [done|]. split; [done|].
      split; [exact (same_limits_trans _ _ _ Hlim1 Hlim2)|]. split; [done|].
      split; [lia|]. split; [|done]. intros Hw. rewrite Hex2 by done. lia.
Qed.

(** *** [Solve] and [diffev] *)

Lemma clip_population_spec (s : @Solver num) :
  well_formed s →
  ∃ pop, clip_population _clipGuessWithinRangeBoundary s
           = Ok (set_population pop s) ∧ length pop = nPop s.
Proof.
  intros (Hpop & _). unfold clip_population.
  destruct (for_each_invariant
              (λ s', ∃ pop, s' = set_population pop s ∧ length pop = nPop s)
              (seq 0 (nPop s))
              (λ i s, x ← getitem (population s) i;
                      pop ← setitem (population s) i
                              (_clipGuessWithinRangeBoundary s x);
                      Ok (set_population pop s)) s)
    as (s' & Hrun & pop & -> & Hlen).
  - exists (population s). split; [by destruct s|done].
  - intros c s' Hc%elem_of_seq (pop & -> & Hlen). simpl.
    destruct (getitem_lt pop c) as [x ->]; [lia|]. simpl.
    rewrite setitem_lt by lia. simpl. eexists. split; [done|].
    eexists. split; [done|]. by rewrite length_insert.
  - by exists pop.
Qed.

Lemma prepare_spec cp sf (s : @Solver num) :
  well_formed s →
  ∃ s' bounds, prepare cp sf s = Ok (s', bounds) ∧
    well_formed s' ∧ nPop s' = nPop s ∧ nDim s' = nDim s ∧
    _maxiter s' =
      Some (default (Z.of_nat (nDim s * nPop s * 10)) (_maxiter s)) ∧
    _maxfun s' =
      Some (default (Z.of_nat (nDim s * nPop s * 1000)) (_maxfun s)).
Proof.
  intros Hwf. unfold DE.prepare. simpl.
  destruct (_useStrictRange s).
  - destruct (clip_population_spec (set_EARLYEXIT false s)) as (pop & -> & Hlen);
      [done|]. simpl. eexists _, _. split; [done|].
    split; [split; [done|apply Hwf]|done].
  - simpl. eexists _, _. split; [done|]. split; [apply Hwf|done].
Qed.

(** Either [Solve], on a solver of the right sizes and fresh monitors,
    returns, and the monitors have counted its turns and evaluations. *)
Lemma Solve_spec (second : bool) cp sf (st : State) :
  well_formed (self st) → trace st = [] →
  ∃ st' why,
    (if second then Solve2 cp sf st else Solve cp sf st) = Ok (st', why) ∧
    _maxiter (self st') =
      Some (default (Z.of_nat (nDim (self st) * nPop (self st) * 10))
              (_maxiter (self st))) ∧
    _maxfun (self st') =
      Some (default (Z.of_nat (nDim (self st) * nPop (self st) * 1000))
              (_maxfun (self st))) ∧
    length (evalmon_x (trace st')) = fcalls st' ∧
    (why = Exhausted →
     length (stepmon_x (trace st')) = Z.to_nat (limit (_maxiter (self st')))) ∧
    (why = MaxFunBreak →
     (limit (_maxfun (self st')) ≤ Z.of_nat (fcalls st'))%Z).
Proof.
  intros Hwf Htr. unfold DE.Solve, DE.Solve2.
  destruct (prepare_spec cp sf (self st) Hwf)
    as (s & bounds & -> & Hwf1 & Hn & Hd & Hmi & Hmf). simpl.
  destruct second.
  - destruct (generation_loop2_spec bounds (limit (_maxfun s))
                (Z.to_nat (limit (_maxiter s))) 0 0
                (mkState s 0 (rand st) (trace st))
                (replicate (nPop s) (replicate (nDim s) zero)))
      as (st' & g' & why & -> & _ & (_ & _ & Hi & Hf) & Hc & _ & Hex & Hmax);
      [done|by rewrite length_replicate|by rewrite Htr|].
    simpl in *. exists (with_self (set_generations g') st'), why. simpl.
    split; [done|]. rewrite Hi, Hf, Htr in *. simpl in *.
    by repeat split.
  - destruct (generation_loop_spec bounds (limit (_maxfun s))
                (Z.to_nat (limit (_maxiter s))) 0 0
                (mkState s 0 (rand st) (trace st)))
      as (st' & g' & why & -> & _ & (_ & _ & Hi & Hf) & Hc & _ & Hex & Hmax);
      [done|by rewrite Htr|].
    simpl in *. exists (with_self (set_generations g') st'), why. simpl.
    split; [done|]. rewrite Hi, Hf, Htr in *. simpl in *.
    by repeat split.
Qed.

(** C9 (amended): on a solver with [nPop] members, energies and
    genealogy lines, [diffev] returns: the best vector alone by default,
    with [allvecs] when [retall] is set, and [(x, fval, iterations,
    fcalls, warnflag)], with [allvecs] when [retall] is set, under
    [full_output].  [warnflag] is 1 exactly when the evaluation monitor
    holds at least [maxfun] evaluations, 2 exactly when it holds fewer
    and the step monitor holds at least [maxiter] steps, and 0 exactly
    when both counts are below their limits.  A run that left the loop
    on the evaluation limit has [warnflag] 1, one that used up its
    generations has 1 or 2, and [warnflag] 0 is only returned when the
    loop was left by the break at the end of a generation. *)
Theorem diffev_returns (solver : @Solver num) (r : rng) (cross scale : num)
    (full_output retall invariant_current : bool) :
  well_formed solver →
  ∃ st why,
    (if invariant_current then Solve2 cross scale (mkState solver 0 r [])
     else Solve cross scale (mkState solver 0 r [])) = Ok (st, why) ∧
    let x := bestSolution (self st) in
    let fval := bestEnergy (self st) in
    let evaluations := length (evalmon_x (trace st)) in
    let iterations := length (stepmon_x (trace st)) in
    let allvecs := stepmon_x (trace st) in
    let maxfun :=
      default (Z.of_nat (nDim solver * nPop solver * 1000)) (_maxfun solver) in
    let maxiter :=
      default (Z.of_nat (nDim solver * nPop solver * 10)) (_maxiter solver) in
    ∃ warnflag,
      diffev solver r cross scale full_output retall invariant_current =
        Ok (match full_output, retall with
            | false, false => ret_x x
            | false, true => ret_x_allvecs x allvecs
            | true, false => ret_full x fval iterations evaluations warnflag
            | true, true =>
                ret_full_allvecs x fval iterations evaluations warnflag allvecs
            end, why) ∧
      evaluations = fcalls st ∧
      (warnflag = 1 ↔ (maxfun ≤ Z.of_nat evaluations)%Z) ∧
      (warnflag = 2 ↔ (Z.of_nat evaluations < maxfun)%Z ∧
                       (maxiter ≤ Z.of_nat iterations)%Z) ∧
      (warnflag = 0 ↔ (Z.of_nat evaluations < maxfun)%Z ∧
                       (Z.of_nat iterations < maxiter)%Z) ∧
      (why = MaxFunBreak → warnflag = 1) ∧
      (why = Exhausted → warnflag = 1 ∨ warnflag = 2) ∧
      (warnflag = 0 → why = StopBreak).
Proof.
  intros Hwf.
  destruct (Solve_spec invariant_current cross scale (mkState solver 0 r []))
    as (st & why & Hrun & Hmi & Hmf & Hcnt & Hex & Hmax); [done..|].
  simpl in Hmi, Hmf. exists st, why. split; [done|]. simpl.
  exists (diffev_warnflag (length (evalmon_x (trace st)))
            (length (stepmon_x (trace st))) (self st)).
  split.
  { unfold DE.diffev. rewrite Hrun. simpl.
    by destruct full_output, retall. }
  split; [done|]. unfold diffev_warnflag. rewrite Hmi, Hmf in *. simpl in *.
  set (maxfun := default _ (_maxfun solver)) in *.
  set (maxiter := default _ (_maxiter solver)) in *.
  rewrite Hcnt in *.
  destruct (Z.leb_spec maxfun (Z.of_nat (fcalls st))) as [H1|H1];
    [|destruct (Z.leb_spec maxiter (Z.of_nat (length (stepmon_x (trace st)))))
        as [H2|H2]].
  - repeat split; try done; try lia; auto.
  - repeat split; try done; try lia; auto.
    intros ->. specialize (Hmax eq_refl). lia.
  - repeat split; try done; try lia.
    + intros ->. specialize (Hmax eq_refl). lia.
    + intros ->. specialize (Hex eq_refl). lia.
    + intros _. destruct why;
        [specialize (Hex eq_refl)|specialize (Hmax eq_refl)|done]; lia.
Qed.


(** *** What a candidate does, in full *)

Lemma candidate_step_cases bounds c (st : State) :
  well_formed (self st) → c < nPop (self st) →
  ∃ old line,
    popEnergy (self st) !! c = Some old ∧
    genealogy (self st) !! c = Some line ∧
    let trial := (strategy (self st) c (rand st)).1 in
    let e := wrapped_cost bounds trial in
    let s1 := set_trialSolution trial (self st) in
    ∃ st', candidate_step bounds c st = Ok st' ∧
           self st' = if ltb e old then accept ltb c trial e line s1 else s1.
Proof.
  intros (Hpop & Hen & Hgen) Hc.
  destruct (lookup_lt_is_Some_2 (popEnergy (self st)) c) as [old Hold]; [lia|].
  destruct (lookup_lt_is_Some_2 (genealogy (self st)) c) as [line Hline]; [lia|].
  exists old, line. split; [done|]. split; [done|].
  unfold DE.candidate_step, DE.call_strategy.
  destruct (strategy (self st) c (rand st)) as [trial r]. cbn [fst].
  set (st1 := mkState _ _ _ _).
  pose proof (costfunction_value bounds trial st1) as Hv.
  pose proof (costfunction_state bounds trial st1) as (Hs & _).
  simpl. destruct (costfunction bounds trial st1) as [te st2]. simpl in *.
  subst te. rewrite Hs. simpl.
  apply getitem_Ok in Hold. rewrite Hold. simpl.
  destruct (ltb _ old) eqn:Hlt; [|by exists st2].
  rewrite setitem_lt by lia. simpl. rewrite setitem_lt by lia. simpl.
  unfold UpdateGenealogyRecords. simpl.
  apply getitem_Ok in Hline. rewrite Hline. simpl.
  eexists. split; [done|]. unfold accept. simpl.
  by destruct (ltb _ (bestEnergy (self st))).
Qed.

Lemma replace_step_cases bounds tp c (s : @Solver num) :
  well_formed s → c < nPop s → length tp = nPop s →
  ∃ trial old line,
    tp !! c = Some trial ∧ popEnergy s !! c = Some old ∧
    genealogy s !! c = Some line ∧
    replace_step tp (wrapped_cost bounds <$> tp) c s
      = Ok (if ltb (wrapped_cost bounds trial) old
            then accept2 ltb c trial (wrapped_cost bounds trial) line s
            else s).
Proof.
  intros (Hpop & Hen & Hgen) Hc Htp.
  destruct (lookup_lt_is_Some_2 tp c) as [trial Htrial]; [lia|].
  destruct (lookup_lt_is_Some_2 (popEnergy s) c) as [old Hold]; [lia|].
  destruct (lookup_lt_is_Some_2 (genealogy s) c) as [line Hline]; [lia|].
  exists trial, old, line. do 3 (split; [done|]).
  unfold DE.replace_step.
  assert (getitem (wrapped_cost bounds <$> tp) c = Ok (wrapped_cost bounds trial))
    as -> by (unfold getitem; by rewrite list_lookup_fmap, Htrial).
  assert (getitem tp c = Ok trial) as Hg by by apply getitem_Ok.
  apply getitem_Ok in Hold. simpl. rewrite Hold. simpl.
  destruct (ltb _ old) eqn:Hlt; [|done].
  rewrite setitem_lt by lia. simpl. rewrite Hg. simpl.
  rewrite setitem_lt by lia. simpl.
  unfold UpdateGenealogyRecords. simpl.
  apply getitem_Ok in Hline. rewrite Hline. simpl. unfold accept2. simpl.
  by destruct (ltb _ (bestEnergy s)).
Qed.

Lemma slot_same_refl (s : @Solver num) i : slot_same s s i.
Proof. done. Qed.

Lemma slot_same_trans (s1 s2 s3 : @Solver num) i :
  slot_same s1 s2 i → slot_same s2 s3 i → slot_same s1 s3 i.
Proof. intros (?&?&?) (?&?&?). repeat split; congruence. Qed.

Lemma slot_replaced_same_r bounds (s1 s2 s3 : @Solver num) i x child :
  slot_replaced ltb inf cost bounds s1 s2 i x child → slot_same s2 s3 i →
  slot_replaced ltb inf cost bounds s1 s3 i x child.
Proof.
  intros (Hp & He & line & Hl & Hl') (?&?&?).
  split; [congruence|]. split; [congruence|]. exists line. split; congruence.
Qed.

Lemma slot_replaced_same_l bounds (s1 s2 s3 : @Solver num) i x child :
  slot_same s1 s2 i → slot_replaced ltb inf cost bounds s2 s3 i x child →
  slot_replaced ltb inf cost bounds s1 s3 i x child.
Proof.
  intros (?&?&?) (Hp & He & line & Hl & Hl').
  split; [done|]. split; [done|]. exists line. split; congruence.
Qed.

(** What [accept] and [accept2] do to the slots and to the best. *)
Lemma accept_spec (second : bool) bounds c trial line (s1 : @Solver num) :
  well_formed s1 → c < nPop s1 → genealogy s1 !! c = Some line →
  let e := wrapped_cost bounds trial in
  let s' := if second then accept2 ltb c trial e line s1
            else accept ltb c trial e line s1 in
  well_formed s' ∧ same_limits s1 s' ∧
  trialSolution s' = trialSolution s1 ∧
  slot_replaced ltb inf cost bounds s1 s' c trial
    (if second then trialSolution s1 else trial) ∧
  (∀ i, i ≠ c → slot_same s1 s' i) ∧
  (if ltb e (bestEnergy s1)
   then bestSolution s' = trial ∧ bestEnergy s' = e
   else best_same s1 s').
Proof.
  intros (Hpop & Hen & Hgen) Hc Hl e s'. subst s'. unfold accept, accept2.
  destruct second, (ltb e (bestEnergy s1)); simpl;
    (split; [by repeat split; simpl; rewrite length_insert|]);
    (split; [done|]); (split; [done|]);
    (split; [split; [|split]; simpl;
             [by rewrite list_lookup_insert_eq by lia
             |by rewrite list_lookup_insert_eq by lia
             |exists line; split; [done|];
              by rewrite list_lookup_insert_eq by lia]|]);
    (split; [|done]);
    intros i Hi; repeat split; simpl; by rewrite list_lookup_insert_ne.
Qed.

(** What one replacement keeps of the best. *)
Lemma accept_best (second : bool) bounds c trial old line (s1 : @Solver num) :
  well_formed s1 → c < nPop s1 → genealogy s1 !! c = Some line →
  popEnergy s1 !! c = Some old →
  let e := wrapped_cost bounds trial in
  ltb e old = true →
  let s' := if second then accept2 ltb c trial e line s1
            else accept ltb c trial e line s1 in
  (best_same s1 s' ∨ best_is_member s') ∧
  (best_is_member s1 → best_is_member s').
Proof.
  intros Hwf Hc Hl Hold e Hlt s'.
  destruct (accept_spec second bounds c trial line s1 Hwf Hc Hl)
    as (_ & _ & _ & (Hp & He & _) & Hother & Hbest).
  subst e s'. destruct (ltb _ (bestEnergy s1)) eqn:Hb.
  - destruct Hbest as [Hbs Hbe].
    split; [right|intros _]; exists c; by rewrite Hbs, Hbe.
  - split; [by left|]. destruct Hbest as [Hbs Hbe].
    intros (k & Hk1 & Hk2). destruct (decide (k = c)) as [->|Hne].
    + rewrite Hold in Hk2. injection Hk2 as Heq. rewrite Heq in Hlt. congruence.
    + exists k. destruct (Hother k Hne) as (Hpk & Hek & _).
      rewrite Hbs, Hbe. split; congruence.
Qed.

Lemma best_same_trans (s1 s2 s3 : @Solver num) :
  best_same s1 s2 → best_same s2 s3 → best_same s1 s3.
Proof. intros [? ?] [? ?]. split; congruence. Qed.

Lemma best_chain (s0 s1 s2 : @Solver num) :
  best_same s0 s1 ∨ best_is_member s1 →
  best_same s1 s2 ∨ best_is_member s2 →
  (best_is_member s1 → best_is_member s2) →
  best_same s0 s2 ∨ best_is_member s2.
Proof.
  intros [H01|Hm1] [H12|Hm2] Hkeep; auto.
  left. exact (best_same_trans _ _ _ H01 H12).
Qed.

(** *** What a generation records *)

Lemma candidate_step_records bounds c (st : State) :
  well_formed (self st) → c < nPop (self st) →
  ∃ st', candidate_step bounds c st = Ok st' ∧
    well_formed (self st') ∧ nPop (self st') = nPop (self st) ∧
    (∀ i, i ≠ c → slot_same (self st) (self st') i) ∧
    (slot_same (self st) (self st') c ∨
     ∃ x, slot_replaced ltb inf cost bounds (self st) (self st') c x x) ∧
    (best_same (self st) (self st') ∨ best_is_member (self st')) ∧
    (best_is_member (self st) → best_is_member (self st')).
Proof.
  intros Hwf Hc.
  destruct (candidate_step_cases bounds c st Hwf Hc)
    as (old & line & Hold & Hline & st' & Hrun & Hself).
  exists st'. split; [done|]. rewrite Hself. clear Hself Hrun.
  set (trial := (strategy (self st) c (rand st)).1).
  set (s1 := set_trialSolution trial (self st)).
  destruct (ltb (wrapped_cost bounds trial) old) eqn:Hlt.
  - assert (well_formed s1) as Hwf1 by done.
    destruct (accept_spec false bounds c trial line s1 Hwf1 Hc Hline)
      as (Hwf' & (Hn & _) & _ & Hrep & Hother & _).
    destruct (accept_best false bounds c trial old line s1 Hwf1 Hc Hline Hold Hlt)
      as [Hb Hkeep].
    split; [exact Hwf'|]. split; [exact Hn|]. split; [exact Hother|].
    split; [right; by exists trial|]. split; [exact Hb|exact Hkeep].
  - split; [done|]. split; [done|]. split; [done|].
    split; [by left|]. split; [by left|done].
Qed.

Lemma candidates_records bounds l (st : State) :
  well_formed (self st) → (∀ c, c ∈ l → c < nPop (self st)) → NoDup l →
  ∃ st', for_each l (candidate_step bounds) st = Ok st' ∧
    well_formed (self st') ∧ nPop (self st') = nPop (self st) ∧
    (∀ i, i ∉ l → slot_same (self st) (self st') i) ∧
    (∀ i, slot_same (self st) (self st') i ∨
          ∃ x, slot_replaced ltb inf cost bounds (self st) (self st') i x x) ∧
    (best_same (self st) (self st') ∨ best_is_member (self st')) ∧
    (best_is_member (self st) → best_is_member (self st')).
Proof.
  revert st. induction l as [|c l IH]; intros st Hwf Hl Hnd; simpl.
  - exists st. repeat split; try done; try apply Hwf; by left.
  - apply NoDup_cons in Hnd as [Hc Hnd].
    destruct (candidate_step_records bounds c st)
      as (st1 & -> & Hwf1 & Hn1 & Hother1 & Hc1 & Hb1 & Hk1);
      [done|apply Hl; by left|]. simpl.
    destruct (IH st1) as (st2 & -> & Hwf2 & Hn2 & Hout2 & Hslot2 & Hb2 & Hk2);
      [done|intros c' Hc'; rewrite Hn1; apply Hl; by right|done|].
    exists st2. split; [done|]. split; [done|]. split; [congruence|].
    split; [|split; [|split]].
    + intros i Hi. apply not_elem_of_cons in Hi as [Hic Hil].
      exact (slot_same_trans _ _ _ _ (Hother1 i Hic) (Hout2 i Hil)).
    + intros i. destruct (decide (i = c)) as [->|Hic].
      * destruct Hc1 as [Hs|[x Hx]].
        -- left. exact (slot_same_trans _ _ _ _ Hs (Hout2 c Hc)).
        -- right. exists x. exact (slot_replaced_same_r _ _ _ _ _ _ _ Hx (Hout2 c Hc)).
      * destruct (Hslot2 i) as [Hs|[x Hx]].
        -- left. exact (slot_same_trans _ _ _ _ (Hother1 i Hic) Hs).
        -- right. exists x.
           exact (slot_replaced_same_l _ _ _ _ _ _ _ (Hother1 i Hic) Hx).
    + by eapply best_chain.
    + auto.
Qed.

Lemma replacements_records bounds tp l (st : State) :
  well_formed (self st) → length tp = nPop (self st) →
  (∀ c, c ∈ l → c < nPop (self st)) → NoDup l →
  ∃ st', for_each l
           (λ c, lift_self (replace_step tp (wrapped_cost bounds <$> tp) c)) st
         = Ok st' ∧
    well_formed (self st') ∧ nPop (self st') = nPop (self st) ∧
    trialSolution (self st') = trialSolution (self st) ∧
    (∀ i, i ∉ l → slot_same (self st) (self st') i) ∧
    (∀ i, slot_same (self st) (self st') i ∨
          ∃ x, tp !! i = Some x ∧
               slot_replaced ltb inf cost bounds (self st) (self st') i x
                 (trialSolution (self st))) ∧
    (best_same (self st) (self st') ∨ best_is_member (self st')) ∧
    (best_is_member (self st) → best_is_member (self st')).
Proof.
  revert st. induction l as [|c l IH]; intros st Hwf Htp Hl Hnd; simpl.
  - exists st. repeat split; try done; try apply Hwf; by left.
  - apply NoDup_cons in Hnd as [Hc Hnd].
    assert (c < nPop (self st)) as Hlt by (apply Hl; by left).
    destruct (replace_step_cases bounds tp c (self st) Hwf Hlt Htp)
      as (trial & old & line & Htrial & Hold & Hline & Hrun).
    rewrite (lift_self_Ok _ _ _ Hrun). simpl.
    set (s1 := if ltb _ old then _ else _) in *.
    set (st1 := with_self _ st).
    assert (well_formed s1 ∧ nPop s1 = nPop (self st) ∧
            trialSolution s1 = trialSolution (self st) ∧
            (∀ i, i ≠ c → slot_same (self st) s1 i) ∧
            (slot_same (self st) s1 c ∨
             slot_replaced ltb inf cost bounds (self st) s1 c trial
               (trialSolution (self st))) ∧
            (best_same (self st) s1 ∨ best_is_member s1) ∧
            (best_is_member (self st) → best_is_member s1))
      as (Hwf1 & Hn1 & Ht1 & Hother1 & Hc1 & Hb1 & Hk1).
    { subst s1. destruct (ltb _ old) eqn:Hacc.
      - destruct (accept_spec true bounds c trial line (self st) Hwf Hlt Hline)
          as (Hwf' & (Hn & _) & Ht & Hrep & Hother & _).
        destruct (accept_best true bounds c trial old line (self st)
                    Hwf Hlt Hline Hold Hacc) as [Hb Hkeep].
        split; [exact Hwf'|]. split; [exact Hn|]. split; [exact Ht|].
        split; [exact Hother|]. split; [by right|]. split; [exact Hb|exact Hkeep].
      - split; [done|]. split; [done|]. split; [done|]. split; [done|].
        split; [by left|]. split; [by left|done]. }
    destruct (IH st1)
      as (st2 & -> & Hwf2 & Hn2 & Ht2 & Hout2 & Hslot2 & Hb2 & Hk2);
      [done|simpl; congruence
      |intros c' Hc'; simpl; rewrite Hn1; apply Hl; by right|done|].
    simpl in *. exists st2. split; [done|]. split; [done|].
    split; [congruence|]. split; [congruence|]. split; [|split; [|split]].
    + intros i Hi. apply not_elem_of_cons in Hi as [Hic Hil].
      exact (slot_same_trans _ _ _ _ (Hother1 i Hic) (Hout2 i Hil)).
    + intros i. destruct (decide (i = c)) as [->|Hic].
      * destruct Hc1 as [Hs|Hx].
        -- left. exact (slot_same_trans _ _ _ _ Hs (Hout2 c Hc)).
        -- right. exists trial. split; [done|].
           exact (slot_replaced_same_r _ _ _ _ _ _ _ Hx (Hout2 c Hc)).
      * destruct (Hslot2 i) as [Hs|(x & Hxi & Hx)].
        -- left. exact (slot_same_trans _ _ _ _ (Hother1 i Hic) Hs).
        -- right. exists x. split; [done|]. rewrite Ht1 in Hx.
           exact (slot_replaced_same_l _ _ _ _ _ _ _ (Hother1 i Hic) Hx).
    + by eapply best_chain.
    + auto.
Qed.

(** The first loop of the second solver leaves in the scratch vector
    the trial it built last. *)
Lemma build_trials_last l (st : State) tp st' tp' c :
  for_each l build_trial (st, tp) = Ok (st', tp') → last l = Some c →
  tp' !! c = Some (trialSolution (self st')).
Proof.
  revert st tp. induction l as [|c0 l IH]; intros st tp; [done|].
  cbn [for_each].
  assert (build_trial c0 (st, tp) =
          tp1 ← setitem tp c0 (strategy (self st) c0 (rand st)).1;
          Ok (mkState (set_trialSolution (strategy (self st) c0 (rand st)).1
                         (self st))
                (fcalls st) (strategy (self st) c0 (rand st)).2 (trace st), tp1))
    as ->.
  { unfold DE.build_trial, DE.call_strategy.
    by destruct (strategy (self st) c0 (rand st)). }
  destruct (setitem tp c0 _) as [tp1|] eqn:Hset; [|done]. simpl.
  destruct l as [|c1 l].
  - intros [= <- <-] [= <-]. simpl. apply setitem_Ok in Hset as [Hlt ->].
    by rewrite list_lookup_insert_eq.
  - intros Hrun Hlast. by eapply IH.
Qed.

(** X1: in a generation of the sequential solver every slot either
    keeps its member, its energy and its genealogy line, or holds a new
    member with the energy the cost function gives for it, its
    genealogy line being the one before with that member added. *)
Theorem generation_records bounds maxfun g (st : State) :
  well_formed (self st) →
  ∃ st' brk,
    generation_step bounds maxfun g st = Ok (st', brk) ∧
    ∀ i, slot_same (self st) (self st') i ∨
         ∃ x, slot_replaced ltb inf cost bounds (self st) (self st') i x x.
Proof.
  intros Hwf. unfold DE.generation_step. set (st0 := emit _ st).
  destruct (maxfun <=? _)%Z.
  - exists st0, (Some MaxFunBreak). split; [done|]. by left.
  - destruct (candidates_records bounds (seq 0 (nPop (self st0))) st0)
      as (st1 & -> & _ & _ & _ & Hslot & _);
      [done|intros c Hc%elem_of_seq; lia|apply NoDup_seq|].
    simpl. pose proof (finish_generation_spec g st1) as (Hs & _).
    destruct (finish_generation g st1) as [st2 stop]. simpl in *.
    eexists _, _. split; [done|]. rewrite Hs. exact Hslot.
Qed.

(** X2: in a generation of the second solver every slot either keeps
    its member, its energy and its genealogy line, or holds its own
    trial with the energy the cost function gives for it, while its
    genealogy line is the one before with the scratch vector added;
    the scratch vector is the trial of the last slot, so the line of
    any other slot records a vector that is not the slot's member unless
    the two trials are equal. *)
Theorem generation2_records bounds maxfun g (st : State) tp :
  well_formed (self st) → length tp = nPop (self st) →
  ∃ st' tp' brk,
    generation_step2 bounds maxfun g (st, tp) = Ok (st', tp', brk) ∧
    (∀ i, slot_same (self st) (self st') i ∨
          ∃ x, tp' !! i = Some x ∧
               slot_replaced ltb inf cost bounds (self st) (self st') i x
                 (trialSolution (self st'))) ∧
    (brk ≠ Some MaxFunBreak → 0 < nPop (self st) →
     tp' !! (nPop (self st) - 1) = Some (trialSolution (self st'))).
Proof.
  intros Hwf Htp. unfold DE.generation_step2. set (st0 := emit _ st).
  destruct (maxfun <=? _)%Z.
  - exists st0, tp, (Some MaxFunBreak). split; [done|]. split; [by left|done].
  - destruct (build_trials_spec (seq 0 (nPop (self st0))) st0 tp)
      as (st1 & tp1 & Hbuild & Hfr & _ & _ & Hlen1 & _ & _).
    { intros c Hc%elem_of_seq. simpl in Hc. lia. }
    rewrite Hbuild. simpl. destruct Hfr as [t Hs1].
    pose proof (map_costfunction_spec bounds tp1 st1) as (Hes & Hs2 & _).
    destruct (map_costfunction bounds tp1 st1) as [es st2]. simpl in *.
    subst es. rewrite Hs2, Hs1. simpl.
    destruct (replacements_records bounds tp1 (seq 0 (nPop (self st))) st2)
      as (st3 & -> & _ & _ & Ht3 & _ & Hslot & _).
    { by rewrite Hs2, Hs1. }
    { rewrite Hs2, Hs1. simpl. congruence. }
    { intros c Hc%elem_of_seq. rewrite Hs2, Hs1. simpl. lia. }
    { apply NoDup_seq. }
    simpl. pose proof (finish_generation_spec g st3) as (Hs & _).
    destruct (finish_generation g st3) as [st4 stop]. simpl in *.
    eexists _, _, _. split; [done|]. rewrite Hs. simpl.
    rewrite Hs2, Hs1 in Hslot, Ht3. simpl in Ht3. split.
    + intros i. destruct (Hslot i) as [Hsame|(x & Hx & Hrep)]; [by left|].
      right. exists x. split; [done|]. by rewrite Ht3.
    + intros _ Hpos. rewrite Ht3.
      assert (trialSolution (self st1) = t) as <- by by rewrite Hs1.
      apply (build_trials_last _ _ _ _ _ _ Hbuild).
      change (nPop (self st0)) with (nPop (self st)).
      destruct (nPop (self st)) as [|n]; [lia|].
      rewrite seq_S, last_snoc. f_equal. simpl. lia.
Qed.

(** X3: through a generation of either solver the best vector and
    energy are either those before the generation or a member of the
    population with its energy; and once the best is a member with its
    energy, it stays one. *)
Theorem generation_best bounds maxfun g (st : State) tp :
  well_formed (self st) → length tp = nPop (self st) →
  (∃ st' brk,
     generation_step bounds maxfun g st = Ok (st', brk) ∧
     (best_same (self st) (self st') ∨ best_is_member (self st')) ∧
     (best_is_member (self st) → best_is_member (self st'))) ∧
  (∃ st' tp' brk,
     generation_step2 bounds maxfun g (st, tp) = Ok (st', tp', brk) ∧
     (best_same (self st) (self st') ∨ best_is_member (self st')) ∧
     (best_is_member (self st) → best_is_member (self st'))).
Proof.
  intros Hwf Htp. split.
  - unfold DE.generation_step. set (st0 := emit _ st).
    destruct (maxfun <=? _)%Z.
    + exists st0, (Some MaxFunBreak). split; [done|]. split; [by left|done].
    + destruct (candidates_records bounds (seq 0 (nPop (self st0))) st0)
        as (st1 & -> & _ & _ & _ & _ & Hb & Hk);
        [done|intros c Hc%elem_of_seq; lia|apply NoDup_seq|].
      simpl. pose proof (finish_generation_spec g st1) as (Hs & _).
      destruct (finish_generation g st1) as [st2 stop]. simpl in *.
      eexists _, _. split; [done|]. rewrite Hs. split; [exact Hb|exact Hk].
  - unfold DE.generation_step2. set (st0 := emit _ st).
    destruct (maxfun <=? _)%Z.
    + exists st0, tp, (Some MaxFunBreak). split; [done|]. split; [by left|done].
    + destruct (build_trials_spec (seq 0 (nPop (self st0))) st0 tp)
        as (st1 & tp1 & -> & Hfr & _ & _ & Hlen1 & _ & _).
      { intros c Hc%elem_of_seq. simpl in Hc. lia. }
      simpl. destruct Hfr as [t Hs1].
      pose proof (map_costfunction_spec bounds tp1 st1) as (Hes & Hs2 & _).
      destruct (map_costfunction bounds tp1 st1) as [es st2]. simpl in *.
      subst es. rewrite Hs2, Hs1. simpl.
      destruct (replacements_records bounds tp1 (seq 0 (nPop (self st))) st2)
        as (st3 & -> & _ & _ & _ & _ & _ & Hb & Hk).
      { by rewrite Hs2, Hs1. }
      { rewrite Hs2, Hs1. simpl. congruence. }
      { intros c Hc%elem_of_seq. rewrite Hs2, Hs1. simpl. lia. }
      { apply NoDup_seq. }
      simpl. pose proof (finish_generation_spec g st3) as (Hs & _).
      destruct (finish_generation g st3) as [st4 stop]. simpl in *.
      eexists _, _, _. split; [done|]. rewrite Hs. simpl.
      rewrite Hs2, Hs1 in Hb, Hk. split; [exact Hb|exact Hk].
Qed.

(** *** Counting turns and evaluations *)

Lemma generation_step_bound bounds maxfun g (st : State) :
  well_formed (self st) →
  ∃ st' brk, generation_step bounds maxfun g st = Ok (st', brk) ∧
    generation_post bounds st st' ∧ brk ≠ Some Exhausted ∧
    if (maxfun <=? Z.of_nat (fcalls st))%Z
    then brk = Some MaxFunBreak ∧ fcalls st' = fcalls st
    else brk ≠ Some MaxFunBreak ∧ fcalls st' ≤ fcalls st + nPop (self st).
Proof.
  intros Hwf. unfold DE.generation_step.
  set (st0 := emit _ st). change (fcalls st0) with (fcalls st).
  destruct (maxfun <=? _)%Z eqn:E.
  - exists st0, (Some MaxFunBreak). split; [done|]. split; [|done].
    split; [done|]. split; [done|]. split; [by left|].
    exists [], []. simpl. repeat split; try done; lia.
  - destruct (candidates_spec bounds (seq 0 (nPop (self st0))) st0)
      as (st1 & -> & Hwf1 & Hlim1 & _ & _ & (evs & Ht1 & Hev & Hf1 & Hle & _)
          & Hslot);
      [done|intros c Hc%elem_of_seq; lia|].
    rewrite length_seq in Hle.
    simpl. pose proof (finish_generation_spec g st1) as (Hs & Hf & _ & Ht & Hb).
    destruct (finish_generation g st1) as [st2 stop]. simpl in *.
    exists st2, (if stop then Some StopBreak else None). split; [done|].
    split; [|split; [by destruct stop|split; [by destruct stop|lia]]].
    unfold DE.generation_post. rewrite Hs. split; [done|]. split; [done|].
    split; [done|]. exists evs, (closing_events g (self st1)).
    rewrite Ht, Ht1, Hf, Hf1. simpl. rewrite <- !(assoc_L (++)). simpl.
    split; [done|]. split; [done|]. split; [apply closing_events_closing|done].
Qed.

Lemma generation_step2_bound bounds maxfun g (st : State) tp :
  well_formed (self st) → length tp = nPop (self st) →
  ∃ st' tp' brk,
    generation_step2 bounds maxfun g (st, tp) = Ok (st', tp', brk) ∧
    generation_post bounds st st' ∧ length tp' = nPop (self st') ∧
    brk ≠ Some Exhausted ∧
    if (maxfun <=? Z.of_nat (fcalls st))%Z
    then brk = Some MaxFunBreak ∧ fcalls st' = fcalls st
    else brk ≠ Some MaxFunBreak ∧ fcalls st' ≤ fcalls st + nPop (self st).
Proof.
  intros Hwf Htp. unfold DE.generation_step2.
  set (st0 := emit _ st). change (fcalls st0) with (fcalls st).
  destruct (maxfun <=? _)%Z eqn:E.
  - exists st0, tp, (Some MaxFunBreak). split; [done|]. split; [|done].
    split; [done|]. split; [done|]. split; [by left|].
    exists [], []. simpl. repeat split; try done; lia.
  - destruct (build_trials_spec (seq 0 (nPop (self st0))) st0 tp)
      as (st1 & tp1 & -> & Hfr & Hf1 & Ht1 & Hlen1 & _ & _).
    { intros c Hc%elem_of_seq. simpl in Hc. lia. }
    simpl. destruct Hfr as [t Hs1].
    pose proof (map_costfunction_spec bounds tp1 st1)
      as (Hes & Hs2 & evs & Ht2 & Hev & Hf2 & Hle & _).
    destruct (map_costfunction bounds tp1 st1) as [es st2]. simpl in *.
    subst es. rewrite Hs2, Hs1. simpl.
    destruct (replacements_spec bounds tp1 (seq 0 (nPop (self st))) st2)
      as (st3 & -> & Hf3 & Ht3 & Hwf3 & Hlim3 & Hslot3).
    { by rewrite Hs2, Hs1. }
    { rewrite Hs2, Hs1. simpl. congruence. }
    { intros c Hc%elem_of_seq. rewrite Hs2, Hs1. simpl. lia. }
    simpl. pose proof (finish_generation_spec g st3) as (Hs & Hf & _ & Ht & Hb).
    destruct (finish_generation g st3) as [st4 stop]. simpl in *.
    exists st4, tp1, (if stop then Some StopBreak else None). split; [done|].
    rewrite Hs2, Hs1 in Hlim3, Hslot3. simpl in *.
    split; [|split; [|split; [by destruct stop|split; [by destruct stop|lia]]]].
    + unfold DE.generation_post. rewrite Hs. split; [done|]. split; [done|].
      split; [done|]. exists evs, (closing_events g (self st3)).
      rewrite Ht, Ht3, Ht2, Ht1, Hf, Hf3, Hf2, Hf1. simpl.
      rewrite <- !(assoc_L (++)). simpl.
      split; [done|]. split; [done|]. split; [apply closing_events_closing|done].
    + rewrite Hs. simpl. destruct Hlim3 as (-> & _). simpl. congruence.
Qed.

Lemma generation_post_steps bounds (st st' : State) :
  generation_post bounds st st' →
  ∃ tl, trace st' =
          trace st ++
          StepMonitor (bestSolution (self st)) (bestEnergy (self st)) :: tl ∧
        stepmon_x tl = [].
Proof.
  intros (_ & _ & _ & evs & cl & -> & Hev & Hcl & _).
  exists (evs ++ cl). split; [done|]. rewrite stepmon_x_app.
  destruct (evaluations_count evs Hev) as [_ ->].
  by destruct (closing_count cl Hcl) as [_ ->].
Qed.

Lemma run_post_nil maxfun g last (st : State) :
  run_post maxfun 0 g last st st last.
Proof.
  split; [done|]. exists []. rewrite app_nil_r. simpl.
  repeat split; try done; try lia; by left.
Qed.

(** A turn that ends in a [break]. *)
Lemma run_post_break bounds maxfun todo g last (st st1 : State) :
  generation_post bounds st st1 →
  fcalls st1 = fcalls st ∨
    (Z.of_nat (fcalls st1) < maxfun + Z.of_nat (nPop (self st)))%Z →
  run_post maxfun (S todo) g last st st1 g.
Proof.
  intros Hpost Hf. destruct (generation_post_steps _ _ _ Hpost) as (tl & Ht & Htl).
  destruct Hpost as (_ & (Hn & _) & _).
  split; [done|]. eexists. split; [exact Ht|]. simpl. rewrite Htl. simpl.
  repeat split; try done; try lia; by eexists.
Qed.

(** A turn followed by the rest of the loop. *)
Lemma run_post_step bounds maxfun todo g last (st st1 st2 : State) g' :
  generation_post bounds st st1 →
  (Z.of_nat (fcalls st1) < maxfun + Z.of_nat (nPop (self st)))%Z →
  run_post maxfun todo (S g) g st1 st2 g' →
  run_post maxfun (S todo) g last st st2 g'.
Proof.
  intros Hpost Hf (Hn2 & tl2 & Ht2 & Hle & Hpos & Hzero & Hsome & Hf2).
  destruct (generation_post_steps _ _ _ Hpost) as (tl & Ht & Htl).
  destruct Hpost as (_ & (Hn & _) & _).
  split; [congruence|].
  exists (StepMonitor (bestSolution (self st)) (bestEnergy (self st))
            :: tl ++ tl2).
  rewrite Ht2, Ht, <- (assoc_L (++)). simpl.
  rewrite stepmon_x_app, Htl. simpl.
  split; [done|]. split; [lia|]. split; [lia|]. split; [lia|]. split.
  - intros _. split; [|by eexists].
    destruct (length (stepmon_x tl2)) as [|k] eqn:E.
    + rewrite Hzero by done. lia.
    + destruct Hsome as [-> _]; lia.
  - right. destruct Hf2 as [->|Hf2]; [done|]. by rewrite <- Hn.
Qed.

Lemma generation_loop_run bounds maxfun todo g last (st : State) :
  well_formed (self st) →
  ∃ st' g' why,
    generation_loop bounds maxfun todo g last st = Ok (st', g', why) ∧
    run_post maxfun todo g last st st' g'.
Proof.
  revert g last st. induction todo as [|todo IH]; intros g last st Hwf; simpl.
  - exists st, last, Exhausted. split; [done|]. apply run_post_nil.
  - destruct (generation_step_bound bounds maxfun g st Hwf)
      as (st1 & brk & -> & Hpost & Hne & Hf). simpl.
    pose proof Hpost as (Hwf1 & _).
    destruct (Z.leb_spec maxfun (Z.of_nat (fcalls st))) as [Hmax|Hmax].
    + destruct Hf as [-> Hf]. exists st1, g, MaxFunBreak. split; [done|].
      eapply run_post_break; [done|by left].
    + destruct Hf as [_ Hf].
      assert (Z.of_nat (fcalls st1) < maxfun + Z.of_nat (nPop (self st)))%Z
        as Hbound by lia.
      destruct brk as [why|].
      * exists st1, g, why. split; [done|].
        eapply run_post_break; [done|by right].
      * destruct (IH (S g) g st1 Hwf1) as (st2 & g2 & why & -> & Hrun).
        exists st2, g2, why. split; [done|]. by eapply run_post_step.
Qed.

Lemma generation_loop2_run bounds maxfun todo g last (st : State) tp :
  well_formed (self st) → length tp = nPop (self st) →
  ∃ st' g' why,
    generation_loop2 bounds maxfun todo g last (st, tp) = Ok (st', g', why) ∧
    run_post maxfun todo g last st st' g'.
Proof.
  revert g last st tp.
  induction todo as [|todo IH]; intros g last st tp Hwf Htp;
    cbn [DE.generation_loop2].
  - exists st, last, Exhausted. split; [done|]. apply run_post_nil.
  - destruct (generation_step2_bound bounds maxfun g st tp Hwf Htp)
      as (st1 & tp1 & brk & -> & Hpost & Htp1 & Hne & Hf). simpl.
    pose proof Hpost as (Hwf1 & _).
    destruct (Z.leb_spec maxfun (Z.of_nat (fcalls st))) as [Hmax|Hmax].
    + destruct Hf as [-> Hf]. exists st1, g, MaxFunBreak. split; [done|].
      eapply run_post_break; [done|by left].
    + destruct Hf as [_ Hf].
      assert (Z.of_nat (fcalls st1) < maxfun + Z.of_nat (nPop (self st)))%Z
        as Hbound by lia.
      destruct brk as [why|].
      * exists st1, g, why. split; [done|].
        eapply run_post_break; [done|by right].
      * destruct (IH (S g) g st1 tp1 Hwf1 Htp1) as (st2 & g2 & why & -> & Hrun).
        exists st2, g2, why. split; [done|]. by eapply run_post_step.
Qed.

(** *** A whole run *)

Lemma prepare_full cp sf (s0 : @Solver num) :
  well_formed s0 →
  ∃ pop bounds,
    prepare cp sf s0
      = Ok (default_limits
              (set_bestEnergy huge
                 (set_mutation cp sf
                    (set_population pop (set_EARLYEXIT false s0)))),
            bounds) ∧
    length pop = nPop s0.
Proof.
  intros Hwf. unfold DE.prepare. simpl.
  destruct (_useStrictRange s0).
  - destruct (clip_population_spec (set_EARLYEXIT false s0)) as (pop & -> & Hlen);
      [done|]. simpl. by eexists pop, _.
  - simpl. exists (population s0), None. split; [|apply Hwf]. by destruct s0.
Qed.

Lemma Solve_run (second : bool) cp sf (st : State) :
  well_formed (self st) →
  ∃ s st' g' why,
    (if second then Solve2 cp sf st else Solve cp sf st)
      = Ok (with_self (set_generations g') st', why) ∧
    nPop s = nPop (self st) ∧ bestSolution s = bestSolution (self st) ∧
    bestEnergy s = huge ∧
    limit (_maxiter s) =
      default (Z.of_nat (nDim (self st) * nPop (self st) * 10))
        (_maxiter (self st)) ∧
    limit (_maxfun s) =
      default (Z.of_nat (nDim (self st) * nPop (self st) * 1000))
        (_maxfun (self st)) ∧
    run_post (limit (_maxfun s)) (Z.to_nat (limit (_maxiter s))) 0 0
      (mkState s 0 (rand st) (trace st)) st' g'.
Proof.
  intros Hwf. unfold DE.Solve, DE.Solve2.
  destruct (prepare_full cp sf (self st) Hwf) as (pop & bounds & -> & Hlen).
  cbn [mbind result_bind]. set (s := default_limits _).
  assert (well_formed s) as Hwfs by (split; [done|apply Hwf]).
  destruct second.
  - destruct (generation_loop2_run bounds (limit (_maxfun s))
                (Z.to_nat (limit (_maxiter s))) 0 0
                (mkState s 0 (rand st) (trace st))
                (replicate (nPop s) (replicate (nDim s) zero)))
      as (st' & g' & why & -> & Hrun); [done|by rewrite length_replicate|].
    by exists s, st', g', why.
  - destruct (generation_loop_run bounds (limit (_maxfun s))
                (Z.to_nat (limit (_maxiter s))) 0 0
                (mkState s 0 (rand st) (trace st)))
      as (st' & g' & why & -> & Hrun); [done|].
    by exists s, st', g', why.
Qed.

(** X4: [Solve] of either solver never asks for more than
    [maxfun + nPop - 1] evaluations: the call counter is only compared
    with [maxfun] between generations, and a generation makes at most
    [nPop] evaluations. *)
Theorem Solve_evaluations (second : bool) cp sf (st : State) :
  well_formed (self st) →
  ∃ st' why,
    (if second then Solve2 cp sf st else Solve cp sf st) = Ok (st', why) ∧
    (fcalls st' = 0 ∨
     (Z.of_nat (fcalls st') <
      default (Z.of_nat (nDim (self st) * nPop (self st) * 1000))
        (_maxfun (self st)) + Z.of_nat (nPop (self st)))%Z).
Proof.
  intros Hwf.
  destruct (Solve_run second cp sf st Hwf)
    as (s & st' & g' & why & Hrun & Hn & _ & _ & _ & Hmf & _ & tl & _ & _ & _
        & _ & _ & Hf).
  eexists _, _. split; [exact Hrun|]. simpl in *.
  rewrite <- Hmf, <- Hn. exact Hf.
Qed.

(** X5: after [Solve] of either solver, [generations] is the number of
    calls of the step monitor less one (0 when there was none); the
    step monitor is called at most [maxiter] times, and at least once
    when [maxiter] is positive. *)
Theorem Solve_generations (second : bool) cp sf (st : State) :
  well_formed (self st) →
  ∃ st' why tl,
    (if second then Solve2 cp sf st else Solve cp sf st) = Ok (st', why) ∧
    trace st' = trace st ++ tl ∧
    generations (self st') = length (stepmon_x tl) - 1 ∧
    length (stepmon_x tl)
      ≤ Z.to_nat (default (Z.of_nat (nDim (self st) * nPop (self st) * 10))
                    (_maxiter (self st))) ∧
    ((0 < default (Z.of_nat (nDim (self st) * nPop (self st) * 10))
             (_maxiter (self st)))%Z →
     0 < length (stepmon_x tl)).
Proof.
  intros Hwf.
  destruct (Solve_run second cp sf st Hwf)
    as (s & st' & g' & why & Hrun & _ & _ & _ & Hmi & _ & _ & tl & Ht & Hle
        & Hpos & Hzero & Hsome & _).
  eexists _, _, tl. split; [exact Hrun|]. simpl in *.
  rewrite <- Hmi. split; [done|]. split; [|split; [done|]].
  - destruct (length (stepmon_x tl)) as [|k] eqn:E.
    + by rewrite Hzero.
    + destruct Hsome as [-> _]; lia.
  - intros H. apply Hpos. lia.
Qed.

(** X6: when [maxiter] is positive, the first event of [Solve] of
    either solver is a call of the step monitor with the best vector
    the solver held when [Solve] was called and the energy [1.0E20]. *)
Theorem Solve_first_step (second : bool) cp sf (st : State) :
  well_formed (self st) →
  (0 < default (Z.of_nat (nDim (self st) * nPop (self st) * 10))
         (_maxiter (self st)))%Z →
  ∃ st' why tl,
    (if second then Solve2 cp sf st else Solve cp sf st) = Ok (st', why) ∧
    trace st' = trace st ++ StepMonitor (bestSolution (self st)) huge :: tl.
Proof.
  intros Hwf Hmax.
  destruct (Solve_run second cp sf st Hwf)
    as (s & st' & g' & why & Hrun & _ & Hbs & Hbe & Hmi & _ & _ & tl & Ht & _
        & Hpos & _ & Hsome & _).
  simpl in *. destruct Hsome as [_ [tl' ->]]; [apply Hpos; lia|].
  eexists _, _, tl'. split; [exact Hrun|]. simpl. by rewrite Ht, Hbs, Hbe.
Qed.
End Facts.

(** *** Runs *)

Import Examples.

(** C1: one generation of the second solver on two members whose trials
    [[2]] and [[3]] are both accepted.  The population holds each slot's
    own trial, but the genealogy of slot 0 holds [[3]], the trial built
    last: [UpdateGenealogyRecords] is handed [self.trialSolution], which
    the first loop left at the trial of the last slot.  The sequential
    solver on the same input records [[2]] for slot 0. *)
Theorem Solve2_genealogy_holds_last_trial :
  (∃ st why,
     Solve2_ex never false (start (solver0 (Some 1%Z) None)) = Ok (st, why) ∧
     population (self st) = [[2]; [3]]%Z ∧
     genealogy (self st) = [[[3]]; [[3]]]%Z) ∧
  (∃ st why,
     Solve_ex never false (start (solver0 (Some 1%Z) None)) = Ok (st, why) ∧
     population (self st) = [[2]; [3]]%Z ∧
     genealogy (self st) = [[[2]]; [[3]]]%Z).
Proof. split; eexists _, _; vm_compute; done. Qed.

(** C2 as the specification has it fails on a run with [maxfun = 1] and
    two members: the second candidate of the first generation is
    evaluated although the counter has reached the limit, and the
    generation in which the test holds ends with the step event, with
    neither callback nor termination test after it. *)
Lemma maxfun_check_counterexample :
  ∃ st,
    Solve_ex never true (start (solver0 (Some 5%Z) (Some 1%Z)))
      = Ok (st, MaxFunBreak) ∧
    trace st =
      [StepMonitor [0%Z] huge; EvaluationMonitor [2%Z] 4%Z;
       EvaluationMonitor [3%Z] 9%Z; callback [2%Z]; termination_called false;
       StepMonitor [2%Z] 4%Z] ∧
    fcalls st = 2 ∧ last (trace st) = Some (StepMonitor [2%Z] 4%Z).
Proof. eexists. vm_compute. done. Qed.

Lemma generation_step_maxfun_check_witness :
  well_formed (self (start (solver0 (Some 5%Z) (Some 1%Z)))) ∧
  (∃ st1,
     for_each (seq 0 2) (candidate_step Z.ltb inf cost halve None)
       (emit (StepMonitor [0%Z] huge) (start (solver0 (Some 5%Z) (Some 1%Z))))
       = Ok st1 ∧
     fcalls st1 = 2) ∧
  generation_loop Z.ltb inf cost never halve true no_sigint None 1%Z 4 1 0
    (mkState (solver0 (Some 5%Z) (Some 1%Z)) 2 tt [])
  = Ok (emit (StepMonitor [0%Z] huge)
          (mkState (solver0 (Some 5%Z) (Some 1%Z)) 2 tt []),
        1, MaxFunBreak).
Proof.
  assert (well_formed (self (start (solver0 (Some 5%Z) (Some 1%Z))))) as Hwf
    by (repeat split; reflexivity).
  split; [exact Hwf|]. split.
  - destruct (generation_step_maxfun_check Z.ltb huge inf cost never halve
                true no_sigint clip None 1%Z 0
                (start (solver0 (Some 5%Z) (Some 1%Z))) Hwf)
      as (_ & H & _).
    destruct H as (st1 & Hrun & Hpost & _); [simpl; lia|].
    exists st1. split; [exact Hrun|].
    destruct Hpost as (_ & _ & _ & _ & (evs & _ & _ & Hf & _ & Hn) & _).
    rewrite Hf, Hn by reflexivity. reflexivity.
  - destruct (generation_step_maxfun_check Z.ltb huge inf cost never halve
                true no_sigint clip None 1%Z 1
                (mkState (solver0 (Some 5%Z) (Some 1%Z)) 2 tt []) Hwf)
      as (H & _).
    destruct H as [_ H]; [simpl; lia|]. exact (H 3 0).
Defined.

Lemma generation_step2_frozen_witness :
  ∃ st1 tp1,
    for_each (seq 0 2) (build_trial halve)
      (emit (StepMonitor [0%Z] huge) (start (solver0 (Some 5%Z) None)),
       [[0%Z]; [0%Z]]) = Ok (st1, tp1) ∧
    length tp1 = 2.
Proof.
  destruct (generation_step2_frozen Z.ltb inf cost never halve true no_sigint
              None 2000%Z 0 (start (solver0 (Some 5%Z) None)) [[0%Z]; [0%Z]])
    as (st1 & tp1 & Hrun & Hlen & _); [reflexivity|simpl; lia|].
  by exists st1, tp1.
Defined.



(** C9 as the specification has it fails on a run with [maxiter = 1]
    whose termination condition holds at the end of the first
    generation: the loop is left by the termination test, and
    [warnflag] is 2, the step monitor holding one step. *)
Lemma warnflag_counterexample :
  diffev_ex at_once false (solver0 (Some 1%Z) None) true false false
    = Ok (ret_full [2%Z] 4%Z 1 2 2, StopBreak) ∧
  diffev_ex at_once false (solver0 (Some 1%Z) None) true false true
    = Ok (ret_full [2%Z] 4%Z 1 2 2, StopBreak).
Proof. split; vm_compute; reflexivity. Qed.

Lemma diffev_returns_witness :
  well_formed (solver0 (Some 1%Z) None) ∧
  ∃ ret why,
    diffev_ex at_once false (solver0 (Some 1%Z) None) true false false
      = Ok (ret, why).
Proof.
  assert (well_formed (solver0 (Some 1%Z) None)) as Hwf
    by (repeat split; reflexivity).
  split; [exact Hwf|].
  destruct (diffev_returns Z.ltb 0%Z huge inf cost at_once halve false
              no_sigint clip (solver0 (Some 1%Z) None) tt 1%Z 1%Z
              true false false Hwf)
    as (st & why & _ & warnflag & Hrun & _).
  eexists _, why. exact Hrun.
Defined.


Lemma solver0_well_formed maxiter maxfun : well_formed (solver0 maxiter maxfun).
Proof. repeat split; reflexivity. Qed.

Lemma generation_records_witness :
  ∃ st' brk,
    generation_step_ex never false None 2000%Z 0 (start (solver0 (Some 1%Z) None))
      = Ok (st', brk) ∧
    ∀ i, slot_same (solver0 (Some 1%Z) None) (self st') i ∨
         ∃ x, slot_replaced Z.ltb inf cost None (solver0 (Some 1%Z) None)
                (self st') i x x.
Proof.
  exact (generation_records Z.ltb inf cost never halve false no_sigint None
           2000%Z 0 (start (solver0 (Some 1%Z) None))
           (solver0_well_formed _ _)).
Defined.

Lemma generation2_records_witness :
  ∃ st' tp' brk,
    generation_step2_ex never false None 2000%Z 0
      (start (solver0 (Some 1%Z) None), [[0%Z]; [0%Z]]) = Ok (st', tp', brk) ∧
    (∀ i, slot_same (solver0 (Some 1%Z) None) (self st') i ∨
          ∃ x, tp' !! i = Some x ∧
               slot_replaced Z.ltb inf cost None (solver0 (Some 1%Z) None)
                 (self st') i x (trialSolution (self st'))) ∧
    (brk ≠ Some MaxFunBreak → 0 < 2 →
     tp' !! 1 = Some (trialSolution (self st'))).
Proof.
  exact (generation2_records Z.ltb inf cost never halve false no_sigint None
           2000%Z 0 (start (solver0 (Some 1%Z) None)) [[0%Z]; [0%Z]]
           (solver0_well_formed _ _) eq_refl).
Defined.

Lemma generation_best_witness :
  ∃ st' brk,
    generation_step_ex never false None 2000%Z 0 (start (solver0 (Some 1%Z) None))
      = Ok (st', brk) ∧
    (best_same (solver0 (Some 1%Z) None) (self st') ∨ best_is_member (self st')).
Proof.
  destruct (generation_best Z.ltb inf cost never halve false no_sigint None
              2000%Z 0 (start (solver0 (Some 1%Z) None)) [[0%Z]; [0%Z]]
              (solver0_well_formed _ _) eq_refl)
    as [(st' & brk & Hrun & Hbest & _) _].
  by exists st', brk.
Defined.

Lemma Solve_evaluations_witness :
  ∃ st' why,
    Solve_ex never true (start (solver0 (Some 5%Z) (Some 1%Z))) = Ok (st', why) ∧
    (fcalls st' = 0 ∨ (Z.of_nat (fcalls st') < 1 + 2)%Z).
Proof.
  exact (Solve_evaluations Z.ltb 0%Z huge inf cost never halve true no_sigint
           clip false 1%Z 1%Z (start (solver0 (Some 5%Z) (Some 1%Z)))
           (solver0_well_formed _ _)).
Defined.

Lemma Solve_generations_witness :
  ∃ st' why tl,
    Solve2_ex never true (start (solver0 (Some 5%Z) (Some 1%Z))) = Ok (st', why) ∧
    trace st' = tl ∧
    generations (self st') = length (stepmon_x tl) - 1.
Proof.
  destruct (Solve_generations Z.ltb 0%Z huge inf cost never halve true no_sigint
              clip true 1%Z 1%Z (start (solver0 (Some 5%Z) (Some 1%Z)))
              (solver0_well_formed _ _))
    as (st' & why & tl & Hrun & Ht & Hg & _).
  by exists st', why, tl.
Defined.

Lemma Solve_first_step_witness :
  ∃ st' why tl,
    Solve_ex never true (start (solver0 (Some 5%Z) (Some 1%Z))) = Ok (st', why) ∧
    trace st' = StepMonitor [0%Z] huge :: tl.
Proof.
  exact (Solve_first_step Z.ltb 0%Z huge inf cost never halve true no_sigint
           clip false 1%Z 1%Z (start (solver0 (Some 5%Z) (Some 1%Z)))
           (solver0_well_formed _ _) eq_refl).
Defined.
End DEFacts.

(** ** The collapse detectors *)

Module CollapseFacts.
Import Py Collapse.

Lemma each_Raise {A} (f : A → result unit) (l : list A) a e :
  f a = Raise e → each f (a :: l) = Raise e.
Proof. intros H. unfold each. simpl. by rewrite H. Qed.

Lemma filterM_Ok {A} (f : A → result bool) (l r : list A) :
  filterM f l = Ok r → ∀ a, a ∈ r → a ∈ l ∧ f a = Ok true.
Proof.
  revert r. induction l as [|a l IH]; intros r; simpl.
  - intros [= <-] b Hb. by apply elem_of_nil in Hb.
  - destruct (f a) as [b|] eqn:Hf; simpl; [|done].
    destruct (filterM f l) as [r'|]; simpl; [|done].
    intros [= <-] c Hc. destruct b.
    + apply elem_of_cons in Hc as [->|Hc]; [split; [by left|done]|].
      destruct (IH r' eq_refl c Hc). split; [by right|done].
    + destruct (IH r' eq_refl c Hc). split; [by right|done].
Qed.

Lemma py_in_elem_of v elems :
  py_eqb v v = true → v ∈ elems → py_in v elems = true.
Proof.
  intros Hv Hin. unfold py_in. apply existsb_exists. exists v.
  split; [by apply list_elem_of_In|done].
Qed.

(** *** Masks of indices and pairs *)

Lemma filterM_pure {A} (f : A → result bool) (g : A → bool) (l : list A) :
  (∀ a, f a = Ok (g a)) → filterM f l = Ok (filter (λ a, g a) l).
Proof.
  intros Hf. induction l as [|a l IH]; simpl; [done|].
  rewrite Hf, IH. simpl. rewrite filter_cons. by destruct (g a).
Qed.

(** A pair of indices written with [int] or read off a numpy array. *)
Lemma py_in_pairs (c : Z → pyobj) p (ps : list (nat * nat)) :
  c = PyInt ∨ c = NpInt →
  py_in (np_pair p)
    (map (λ q, PyTuple [c (Z.of_nat q.1); c (Z.of_nat q.2)]) ps) = true
  ↔ p ∈ ps.
Proof.
  intros Hc. unfold py_in. rewrite existsb_exists. split.
  - intros (v & (q & <- & Hq)%in_map_iff & Heq).
    assert (p = q) as ->; [|by apply list_elem_of_In].
    destruct p as [p1 p2], q as [q1 q2].
    destruct Hc as [-> | ->]; simpl in Heq;
      apply andb_true_iff in Heq as [H1 H2];
      apply andb_true_iff in H2 as [H2 _];
      apply Z.eqb_eq, Nat2Z.inj in H1, H2; by subst.
  - intros Hp. eexists. split.
    + apply in_map_iff. exists p. split; [done|by apply list_elem_of_In].
    + destruct Hc as [-> | ->]; simpl; by rewrite !Z.eqb_refl.
Qed.

Lemma _inverted_pairs (c : Z → pyobj) (ps : list (nat * nat)) :
  _inverted (map (λ q, PyTuple [c (Z.of_nat q.1); c (Z.of_nat q.2)]) ps)
  = Ok (map (λ q, PyTuple [c (Z.of_nat q.1); c (Z.of_nat q.2)])
          (map (λ q, (q.2, q.1)) ps)).
Proof. induction ps as [|q ps IH]; simpl; [done|]. by rewrite IH. Qed.

Lemma pair_in_pairs (c : Z → pyobj) p (ps : list (nat * nat)) :
  c = PyInt ∨ c = NpInt →
  pair_in p (map (λ q, PyTuple [c (Z.of_nat q.1); c (Z.of_nat q.2)]) ps)
  = Ok (py_in (np_pair p)
          (map (λ q, PyTuple [c (Z.of_nat q.1); c (Z.of_nat q.2)]) ps)).
Proof.
  intros Hc. induction ps as [|q ps IH]; [done|].
  cbn [map pair_in py_in existsb]. fold (py_in (np_pair p)). rewrite IH.
  destruct Hc as [-> | ->]; cbn;
    destruct (Z.of_nat p.1 =? Z.of_nat q.1)%Z,
      (Z.of_nat p.2 =? Z.of_nat q.2)%Z; cbn; done.
Qed.

Lemma py_in_py_index i (l : list nat) :
  py_in (PyInt (Z.of_nat i)) (map py_index l) = true ↔ i ∈ l.
Proof.
  unfold py_in. rewrite existsb_exists. split.
  - intros (v & (j & <- & Hj)%in_map_iff & Heq). simpl in Heq.
    apply Z.eqb_eq, Nat2Z.inj in Heq as ->. by apply list_elem_of_In.
  - intros Hi. exists (py_index i). split; [|simpl; apply Z.eqb_refl].
    by apply in_map, list_elem_of_In.
Qed.

Lemma _split_mask_indices_pairs (c : Z → pyobj) (l : list nat)
    (ps : list (nat * nat)) :
  _split_mask (map py_index l ++
               map (λ q, PyTuple [c (Z.of_nat q.1); c (Z.of_nat q.2)]) ps)
  = (map py_index l,
     map (λ q, PyTuple [c (Z.of_nat q.1); c (Z.of_nat q.2)]) ps).
Proof.
  unfold _split_mask. rewrite !filter_app. f_equal.
  - assert (filter (λ i, is_int i)
              (map (λ q, PyTuple [c (Z.of_nat q.1); c (Z.of_nat q.2)]) ps) = [])
      as -> by (induction ps as [|q ps IH]; simpl; done).
    rewrite app_nil_r. induction l as [|i l IH]; simpl; [done|].
    rewrite filter_cons. simpl. by rewrite IH.
  - assert (filter (λ i, ¬ is_int i) (map py_index l) = []) as ->.
    { induction l as [|i l IH]; simpl; [done|].
      rewrite filter_cons. destruct (decide _) as [H|H]; [|done].
      by destruct H. }
    simpl. induction ps as [|q ps IH]; simpl; [done|].
    rewrite filter_cons. destruct (decide _) as [H|H]; [by rewrite IH|].
    destruct H. by intros [].
Qed.

(** *** What the validations take *)

Lemma each_forallb {A} (f : A → result unit) (g : A → bool) e (l : list A) :
  (∀ a, a ∈ l → f a = if g a then Ok () else Raise e) →
  each f l = if forallb g l then Ok () else Raise e.
Proof.
  induction l as [|a l IH]; intros Hf; [done|].
  unfold each. cbn [foldr forallb]. rewrite (Hf a) by by left.
  destruct (g a); [|done]. cbn [mbind result_bind andb].
  apply IH. intros b Hb. apply Hf. by right.
Qed.

Lemma existsb_has_len (ks : list pyobj) :
  existsb has_len ks = negb (forallb (λ k, negb (has_len k)) ks).
Proof.
  induction ks as [|k ks IH]; [done|]. cbn [existsb forallb].
  rewrite IH. by destruct (has_len k).
Qed.

Lemma existsb_not_pair (ks : list pyobj) :
  existsb (λ k, negb (has_len k) || negb (len k =? 2)) ks
  = negb (forallb (λ k, has_len k && (len k =? 2)) ks).
Proof.
  induction ks as [|k ks IH]; [done|]. cbn [existsb forallb].
  rewrite IH. by destruct (has_len k), (len k =? 2).
Qed.

Lemma reject_bad_mask_weight_set (elems : list pyobj) :
  (∀ i, i ∈ elems → is_set i = false ∧ is_dict i = false) →
  reject_bad_mask_weight (PySet elems)
  = if forallb weight_pair elems then Ok (mask_set elems)
    else Raise ValueError.
Proof.
  intros Hh. cbn [reject_bad_mask_weight].
  rewrite (each_forallb _ weight_pair ValueError).
  - by destruct (forallb weight_pair elems).
  - intros i Hi. destruct (Hh i Hi) as [H1 H2]. unfold weight_pair.
    destruct i as [| | |l|l|l|l]; try done;
      destruct l as [|a [|b [|c l]]]; try done; cbn;
      by destruct (is_int a), (is_int b).
Qed.

Lemma reject_bad_mask_position_set (elems : list pyobj) :
  (∀ i, i ∈ elems → is_set i = false ∧ is_dict i = false) →
  reject_bad_mask_position (PySet elems)
  = if forallb position_pair elems then Ok (mask_set elems)
    else Raise ValueError.
Proof.
  intros Hh. cbn [reject_bad_mask_position].
  rewrite (each_forallb _ position_pair ValueError).
  - by destruct (forallb position_pair elems).
  - intros i Hi. destruct (Hh i Hi) as [H1 H2]. unfold position_pair.
    destruct i as [| | |l|l|l|l]; try done;
      destruct l as [|a [|b [|c l]]]; try done;
      cbn [has_len len length negb orb items Nat.eqb];
      by destruct (is_int a), (np_ndim b =? 1).
Qed.

Lemma reject_bad_mask_weight_dict (entries : list (pyobj * pyobj)) :
  reject_bad_mask_weight (PyDict entries)
  = if forallb weight_entry entries then Ok (mask_dict entries)
    else Raise ValueError.
Proof.
  cbn [reject_bad_mask_weight].
  rewrite (each_forallb _ weight_entry ValueError).
  - by destruct (forallb weight_entry entries).
  - intros [i j] _. unfold weight_entry. cbn [fst snd].
    destruct j; try by rewrite andb_false_r.
    rewrite existsb_has_len.
    by destruct (is_int i), (forallb _ _).
Qed.

Lemma reject_bad_mask_position_dict (entries : list (pyobj * pyobj)) :
  reject_bad_mask_position (PyDict entries)
  = if forallb position_entry entries then Ok (mask_dict entries)
    else Raise ValueError.
Proof.
  cbn [reject_bad_mask_position].
  rewrite (each_forallb _ position_entry ValueError).
  - by destruct (forallb position_entry entries).
  - intros [i j] _. unfold position_entry. cbn [fst snd].
    destruct j; try by rewrite andb_false_r.
    rewrite existsb_not_pair.
    by destruct (is_int i), (forallb _ _).
Qed.

Lemma reject_bad_mask_weight_other (mask : pyobj) :
  mask ≠ PyNone → is_set mask = false → is_dict mask = false →
  reject_bad_mask_weight mask
  = if weight_where mask
    then Ok (match items mask with
             | Some [a; b] =>
                 mask_where (default [] (items a)) (default [] (items b))
             | _ => mask_where [] []
             end)
    else Raise TypeError.
Proof.
  intros Hn Hs Hd. unfold weight_where.
  destruct mask as [| | |l|l|l|l]; try done;
    destruct l as [|a [|b [|c l]]]; try done;
    cbn [reject_bad_mask_weight items]; by destruct (np_ndim _ =? 2).
Qed.

Lemma reject_bad_mask_position_other (mask : pyobj) :
  mask ≠ PyNone → is_set mask = false → is_dict mask = false →
  reject_bad_mask_position mask
  = if position_where mask
    then Ok (match items mask with
             | Some [a; b] =>
                 mask_where (default [] (items a)) (default [] (items b))
             | _ => mask_where [] []
             end)
    else Raise TypeError.
Proof.
  intros Hn Hs Hd. unfold position_where.
  destruct mask as [| | |l|l|l|l]; try done;
    destruct l as [|a [|b [|c l]]]; try done;
    cbn [reject_bad_mask_position items];
    by destruct (np_ndim a =? 1), (np_ndim b =? 2).
Qed.

(** A mask of indices with a numpy integer among them *)
Lemma pair_in_npint p (mask : list pyobj) :
  mask ≠ [] → (∀ e, e ∈ mask → is_npint e = true) →
  pair_in p mask = Raise ValueError.
Proof.
  destruct mask as [|e mask]; [done|]. intros _ He.
  assert (is_npint e = true) as H by (apply He; by left).
  by destruct e.
Qed.

Section Facts.

Context {num : Type}.
Variable leb : num → num → bool.
Variables nmax nmin nsub : num → num → num.
Variable nabs : num → num.

Local Abbreviation collapse_at := (collapse_at leb nmax nmin nsub nabs).
Local Abbreviation collapse_as := (collapse_as leb nmax nmin nsub nabs).
Local Abbreviation collapse_weight := (collapse_weight leb nmax).
Local Abbreviation collapse_position := (collapse_position leb nmax nsub nabs).
Local Abbreviation stepmon_arg := (@stepmon_arg num).

(** *** The mask is looked at first *)

Lemma collapse_as_indices_pairs (c : Z → pyobj) (stepmon : stepmon_arg)
    offset tolerance generations (l : list nat) (ps : list (nat * nat)) :
  c = PyInt ∨ c = NpInt →
  collapse_as stepmon offset tolerance generations
    (PySet (map py_index l ++
            map (λ q, PyTuple [c (Z.of_nat q.1); c (Z.of_nat q.2)]) ps)) =
  r ← collapse_as stepmon offset tolerance generations PyNone;
  Ok (filter (λ p, (p.1 ∉ l) ∧ (p.2 ∉ l) ∧ (p ∉ ps) ∧ ((p.2, p.1) ∉ ps)) r).
Proof.
  intros Hc. unfold Collapse.collapse_as.
  assert (reject_bad_mask_as
            (PySet (map py_index l ++
               map (λ q, PyTuple [c (Z.of_nat q.1); c (Z.of_nat q.2)]) ps))
          = Ok ()) as ->.
  { simpl. rewrite existsb_app.
    assert (existsb (λ i, has_len i && negb (len i =? 2)) (map py_index l)
            = false) as -> by (induction l; simpl; done).
    assert (existsb (λ i, has_len i && negb (len i =? 2))
              (map (λ q, PyTuple [c (Z.of_nat q.1); c (Z.of_nat q.2)]) ps)
            = false) as -> by (induction ps; simpl; done).
    done. }
  cbn [mbind result_bind reject_bad_mask_as].
  destruct (_solutions stepmon generations) as [distances|]; simpl; [|done].
  destruct (tracking nmax nmin nsub offset _) as [flags|]; simpl; [|done].
  set (found := omap _ _).
  rewrite (filterM_pure _
    (λ p, negb ((py_in (np_pair p)
                   (map (λ q, PyTuple [c (Z.of_nat q.1); c (Z.of_nat q.2)]) ps)
                 || py_in (np_pair p)
                      (map (λ q, PyTuple [c (Z.of_nat q.1); c (Z.of_nat q.2)])
                         (map (λ q, (q.2, q.1)) ps)))
                || _index_selector (map py_index l) p))).
  2:{ intros p. unfold selector. rewrite _split_mask_indices_pairs.
      unfold _pair_selector. rewrite pair_in_pairs by done.
      cbn [mbind result_bind].
      destruct (py_in (np_pair p) _); [done|].
      rewrite _inverted_pairs. cbn [mbind result_bind].
      by rewrite pair_in_pairs. }
  simpl. f_equal. apply set_eq. intros p.
  rewrite elem_of_list_to_set, list_elem_of_filter, elem_of_filter,
    elem_of_list_to_set.
  unfold _index_selector.
  pose proof (py_in_pairs c p ps Hc) as H1.
  pose proof (py_in_pairs c p (map (λ q, (q.2, q.1)) ps) Hc) as H2.
  pose proof (py_in_py_index p.1 l) as H3.
  pose proof (py_in_py_index p.2 l) as H4.
  assert (p ∈ map (λ q, (q.2, q.1)) ps ↔ (p.2, p.1) ∈ ps) as H5.
  { rewrite list_elem_of_fmap. split.
    - intros ([q1 q2] & -> & Hq). done.
    - intros Hq. exists (p.2, p.1). split; [by destruct p|done]. }
  rewrite H5 in H2. clear H5.
  destruct (py_in (np_pair p) (map _ ps)),
    (py_in (np_pair p) (map _ (map _ ps))),
    (py_in (PyInt (Z.of_nat p.1)) _), (py_in (PyInt (Z.of_nat p.2)) _);
    simpl; intuition (try done; auto).
Qed.

Lemma collapse_as_npint (stepmon : stepmon_arg) offset tolerance generations
    (elems : list pyobj) r :
  (∀ e, e ∈ elems → is_int e = true ∨ is_npint e = true) →
  (∃ e, e ∈ elems ∧ is_npint e = true) →
  collapse_as stepmon offset tolerance generations PyNone = Ok r →
  collapse_as stepmon offset tolerance generations (PySet elems)
  = if decide (r = ∅) then Ok ∅ else Raise ValueError.
Proof.
  intros Hall (e0 & He0 & Hnp). unfold Collapse.collapse_as.
  assert (reject_bad_mask_as (PySet elems) = Ok ()) as ->.
  { cbn [reject_bad_mask_as].
    assert (existsb (λ i, has_len i && negb (len i =? 2)) elems = false) as ->;
      [|done].
    apply not_true_is_false. intros (i & Hi & Hlen)%existsb_exists.
    apply list_elem_of_In in Hi.
    destruct (Hall i Hi) as [H|H]; by destruct i. }
  cbn [mbind result_bind reject_bad_mask_as].
  destruct (_solutions stepmon generations) as [distances|];
    cbn [mbind result_bind]; [|done].
  destruct (tracking nmax nmin nsub offset _) as [flags|];
    cbn [mbind result_bind]; [|done].
  destruct (omap _ _) as [|p found].
  - intros [= <-]. by rewrite decide_True.
  - intros [= <-]. rewrite decide_False.
    2:{ intros H. apply (not_elem_of_empty (C:=gset (nat * nat)) p).
        rewrite <- H. apply elem_of_union. left. by apply elem_of_singleton. }
    cbn [filterM]. unfold selector, _split_mask, _pair_selector.
    rewrite pair_in_npint; [done| |].
    + intros H. assert (e0 ∈ filter (λ i, ¬ is_int i) elems) as Hin.
      { apply list_elem_of_filter. split; [|done].
        destruct e0; try done. by intros []. }
      rewrite H in Hin. by apply elem_of_nil in Hin.
    + intros e [Hne He]%list_elem_of_filter.
      destruct (Hall e He) as [H|H]; [by rewrite H in Hne; destruct Hne|done].
Qed.


(** *** A result handed back as the mask *)

(** C6: [collapse_weight] does not take its own result in the format of
    a set of cells as a mask.  The cells are pairs of indices read off a
    numpy array, and the validation of a set mask wants
    [type(i[0]) is int] and [type(i[1]) is int]: whatever the monitor,
    a result with a cell in it is refused with [ValueError]. *)
Theorem collapse_weight_rejects_own_pairs (stepmon : stepmon_arg)
    (tolerance : num) (generations : nat) (s : gset (nat * nat)) :
  s ≠ ∅ →
  collapse_weight stepmon tolerance generations (weight_py (as_pairs s))
    = Raise ValueError.
Proof.
  intros Hs. unfold Collapse.collapse_weight. simpl.
  destruct (elements s) as [|c l] eqn:E.
  { by apply elements_empty_inv, leibniz_equiv in E. }
  reflexivity.
Qed.


(** *** Growing the tolerance *)

Lemma where__sublist {A} (f g : A → bool) i (l : list A) :
  (∀ a, f a = true → g a = true) → sublist (where_ f i l) (where_ g i l).
Proof.
  intros Hfg. revert i. induction l as [|a l IH]; intros i; simpl; [done|].
  destruct (f a) eqn:Hf.
  - rewrite (Hfg a Hf). by apply sublist_skip.
  - destruct (g a); [by apply sublist_cons|done].
Qed.

Lemma where2_sublist {A} (f g : A → bool) r (rows : list (list A)) :
  (∀ a, f a = true → g a = true) → sublist (where2 f r rows) (where2 g r rows).
Proof.
  intros Hfg. revert r. induction rows as [|row rows IH]; intros r; simpl; [done|].
  apply sublist_app; [|done]. apply (fmap_sublist (pair r)).
  by apply where__sublist.
Qed.

Lemma where__fmap {A B} (h : A → B) (f : B → bool) i (l : list A) :
  where_ f i (map h l) = where_ (λ a, f (h a)) i l.
Proof.
  revert i. induction l as [|a l IH]; intros i; simpl; [done|].
  by rewrite IH.
Qed.

Lemma omap_sublist {A B} (f : A → option B) (l1 l2 : list A) :
  sublist l1 l2 → sublist (omap f l1) (omap f l2).
Proof.
  induction 1 as [|a l1 l2 _ IH|a l1 l2 _ IH]; simpl; [done|..];
    destruct (f a); try done; by constructor.
Qed.

Lemma filter_sublist {A} (P : A → Prop) `{∀ a, Decision (P a)} (l1 l2 : list A) :
  sublist l1 l2 → sublist (filter P l1) (filter P l2).
Proof.
  induction 1 as [|a l1 l2 _ IH|a l1 l2 _ IH]; [done|..].
  - rewrite !filter_cons. destruct (decide (P a)); [by apply sublist_skip|done].
  - rewrite filter_cons. destruct (decide (P a)); [by apply sublist_cons|done].
Qed.

Lemma list_to_set_sublist `{Countable A} (l1 l2 : list A) :
  sublist l1 l2 → (list_to_set l1 : gset A) ⊆ list_to_set l2.
Proof.
  intros Hsub a Ha%elem_of_list_to_set. apply elem_of_list_to_set.
  by eapply elem_of_sublist.
Qed.

Lemma filterM_sublist {A} (f : A → result bool) (l1 l2 r2 : list A) :
  sublist l1 l2 → filterM f l2 = Ok r2 →
  ∃ r1, filterM f l1 = Ok r1 ∧ sublist r1 r2.
Proof.
  intros Hsub. revert r2.
  induction Hsub as [|a l1 l2 _ IH|a l1 l2 _ IH]; intros r2; simpl.
  - intros [= <-]. by exists [].
  - destruct (f a) as [b|]; simpl; [|done].
    destruct (filterM f l2) as [r|]; simpl; [|done]. intros [= <-].
    destruct (IH r eq_refl) as (r1 & -> & Hr1). simpl.
    eexists. split; [done|]. destruct b; [by apply sublist_skip|done].
  - destruct (f a) as [b|]; simpl; [|done].
    destruct (filterM f l2) as [r|]; simpl; [|done]. intros [= <-].
    destruct (IH r eq_refl) as (r1 & -> & Hr1).
    eexists. split; [done|]. destruct b; [by apply sublist_cons|done].
Qed.

Lemma collapsed_at_sublist change (t1 t2 : list num) :
  (∀ a b c, leb a b = true → leb b c = true → leb a c = true) →
  Forall2 (λ a b, leb a b = true) t1 t2 →
  sublist (collapsed_at leb change t1) (collapsed_at leb change t2).
Proof.
  intros Htrans Hle. unfold collapsed_at. generalize 0.
  induction Hle as [|a b t1 t2 Hab _ IH]; intros r; simpl; [done|].
  rewrite !map_app. apply sublist_app; [|apply IH].
  rewrite !map_map. simpl. rewrite !map_id, !where__fmap.
  apply where__sublist. intros c Hc. by apply (Htrans c a b).
Qed.

(** What a dict of cells holds for a measure. *)
Lemma lookup_dict_of_cells `{Countable A} (cells : list (nat * A)) m a :
  a ∈ default ∅ (dict_of_cells cells !! m) ↔ (m, a) ∈ cells.
Proof.
  induction cells as [|[m' a'] cells IH]; simpl.
  - rewrite lookup_empty. simpl. rewrite elem_of_nil.
    split; [apply not_elem_of_empty|done].
  - destruct (decide (m = m')) as [->|Hne].
    + rewrite lookup_insert_eq. simpl. rewrite elem_of_union, IH, elem_of_cons.
      rewrite elem_of_singleton. split.
      * intros [->|?]; [by left|by right].
      * intros [[= ->]|?]; [by left|by right].
    + rewrite lookup_insert_ne by done. rewrite IH, elem_of_cons. split.
      * by right.
      * intros [[= ? ?]|?]; [congruence|done].
Qed.

Lemma lookup_without `{Countable A} (hidden : nat → A → bool)
    (d : gmap nat (gset A)) m a :
  a ∈ default ∅ (without hidden d !! m) ↔
  a ∈ default ∅ (d !! m) ∧ hidden m a = false.
Proof.
  unfold without. rewrite map_lookup_imap.
  destruct (d !! m) as [v|]; simpl;
    [|split; [by intros ?%not_elem_of_empty|by intros [?%not_elem_of_empty _]]].
  destruct (decide (filter _ v = ∅)) as [He|He]; simpl.
  - split; [by intros ?%not_elem_of_empty|]. intros [Ha Hh].
    assert (a ∈ filter (λ a, ¬ hidden m a) v) as Hin
      by (apply elem_of_filter; split; [rewrite Hh; auto|done]).
    rewrite He in Hin. by apply not_elem_of_empty in Hin.
  - rewrite elem_of_filter. split.
    + intros [Hh Ha]. split; [done|]. by destruct (hidden m a).
    + intros [Ha Hh]. split; [rewrite Hh; auto|done].
Qed.

Lemma dict_of_cells_sublist `{Countable A} (c1 c2 : list (nat * A)) m :
  sublist c1 c2 →
  default ∅ (dict_of_cells c1 !! m) ⊆ default ∅ (dict_of_cells c2 !! m).
Proof.
  intros Hsub a. rewrite !lookup_dict_of_cells. intros Ha.
  by eapply elem_of_sublist.
Qed.

Lemma without_mono `{Countable A} (hidden : nat → A → bool)
    (d1 d2 : gmap nat (gset A)) :
  (∀ m, default ∅ (d1 !! m) ⊆ default ∅ (d2 !! m)) →
  ∀ m, default ∅ (without hidden d1 !! m) ⊆ default ∅ (without hidden d2 !! m).
Proof.
  intros Hd m a. rewrite !lookup_without. intros [Ha Hh].
  split; [by apply Hd|done].
Qed.

Lemma _weight_filter_mono mask (c1 c2 : list (nat * nat)) :
  sublist c1 c2 → contained (_weight_filter mask c1) (_weight_filter mask c2).
Proof.
  intros Hsub. destruct mask as [|elems|entries|measures indices]; simpl.
  - intros m. by apply dict_of_cells_sublist.
  - by apply list_to_set_sublist, filter_sublist.
  - apply without_mono. intros m. by apply dict_of_cells_sublist.
  - by apply filter_sublist.
Qed.

Lemma _position_filter_mono mask (c1 c2 : list (nat * (nat * nat))) r2 :
  sublist c1 c2 → _position_filter mask c2 = Ok r2 →
  ∃ r1, _position_filter mask c1 = Ok r1 ∧ contained r1 r2.
Proof.
  intros Hsub. destruct mask as [|elems|entries|measures pairs]; simpl.
  - intros [= <-]. eexists. split; [done|]. simpl.
    intros m. by apply dict_of_cells_sublist.
  - destruct (_inverted (seconds elems)) as [inv|]; simpl; [|done].
    intros [= <-]. eexists. split; [done|]. simpl.
    by apply list_to_set_sublist, filter_sublist.
  - destruct (foldr _ _ entries) as [sym|]; simpl; [|done].
    intros [= <-]. eexists. split; [done|]. simpl.
    apply without_mono. intros m. by apply dict_of_cells_sublist.
  - destruct (_inverted pairs) as [inv|]; simpl; [|done].
    intros [= <-]. eexists. split; [done|]. simpl. by apply filter_sublist.
Qed.

(** C8: when [<=] is transitive, each detector finds at a tolerance
    [t2] all it finds at a tolerance [t1] below [t2], the monitor, the
    target or offset, the generations and the mask being the same: if
    the detector returns at [t2], it returns at [t1], and what it
    returns at [t1] is contained in what it returns at [t2], as a set of
    indices or of pairs, or in the format of the mask.  For
    [collapse_at] a tolerance may be a list; [t1] is then below [t2]
    entry by entry. *)
Theorem detectors_monotone :
  (∀ a b c, leb a b = true → leb b c = true → leb a c = true) →
  (∀ stepmon target t1 t2 generations mask r2,
     tolerance_le leb t1 t2 →
     collapse_at stepmon target t2 generations mask = Ok r2 →
     ∃ r1, collapse_at stepmon target t1 generations mask = Ok r1 ∧ r1 ⊆ r2) ∧
  (∀ stepmon offset t1 t2 generations mask r2,
     leb t1 t2 = true →
     collapse_as stepmon offset t2 generations mask = Ok r2 →
     ∃ r1, collapse_as stepmon offset t1 generations mask = Ok r1 ∧ r1 ⊆ r2) ∧
  (∀ stepmon t1 t2 generations mask r2,
     leb t1 t2 = true →
     collapse_weight stepmon t2 generations mask = Ok r2 →
     ∃ r1, collapse_weight stepmon t1 generations mask = Ok r1 ∧
           contained r1 r2) ∧
  (∀ stepmon t1 t2 generations mask r2,
     leb t1 t2 = true →
     collapse_position stepmon t2 generations mask = Ok r2 →
     ∃ r1, collapse_position stepmon t1 generations mask = Ok r1 ∧
           contained r1 r2).
Proof.
  intros Htrans. split; [|split; [|split]].
  - intros stepmon target t1 t2 generations mask r2 Hle.
    unfold Collapse.collapse_at.
    destruct (reject_bad_mask_at mask); simpl; [|done].
    destruct (_solutions stepmon generations) as [params|]; simpl; [|done].
    destruct (change_at nmax nmin nsub nabs target params) as [change|];
      simpl; [|done].
    pose proof (collapsed_at_sublist change _ _ Htrans Hle) as Hsub.
    destruct mask; intros [= <-]; (eexists; split; [done|]);
      apply list_to_set_sublist; try done.
    by apply filter_sublist.
  - intros stepmon offset t1 t2 generations mask r2 Hle.
    unfold Collapse.collapse_as.
    destruct (reject_bad_mask_as mask); simpl; [|done].
    destruct (_solutions stepmon generations) as [distances|]; simpl; [|done].
    destruct (tracking nmax nmin nsub offset _) as [flags|]; simpl; [|done].
    set (pairs := combinations2 _).
    assert (sublist
              (omap (λ i, pairs !! i) (where_ (λ d, leb d t1) 0 flags))
              (omap (λ i, pairs !! i) (where_ (λ d, leb d t2) 0 flags))) as Hsub.
    { apply omap_sublist, where__sublist. intros d Hd. by apply (Htrans d t1 t2). }
    destruct mask; try (intros [= <-]; (eexists; split; [done|]);
      by apply list_to_set_sublist).
    destruct (filterM _ (omap _ (where_ (λ d, leb d t2) 0 flags)))
      as [kept|] eqn:Hkept; simpl; [|done].
    intros [= <-].
    destruct (filterM_sublist _ _ _ _ Hsub Hkept) as (r1 & -> & Hr1). simpl.
    eexists. split; [done|]. by apply list_to_set_sublist.
  - intros stepmon t1 t2 generations mask r2 Hle.
    unfold Collapse.collapse_weight.
    destruct (reject_bad_mask_weight mask) as [fmt|]; simpl; [|done].
    destruct (_weights stepmon generations) as [weights|]; simpl; [|done].
    destruct (max0_3 nmax weights) as [w|]; simpl; [|done].
    intros [= <-]. eexists. split; [done|].
    apply _weight_filter_mono, where2_sublist.
    intros d Hd. by apply (Htrans d t1 t2).
  - intros stepmon t1 t2 generations mask r2 Hle.
    unfold Collapse.collapse_position.
    destruct (reject_bad_mask_position mask) as [fmt|]; simpl; [|done].
    destruct (_positions stepmon generations) as [distances|]; simpl; [|done].
    destruct (max0_3 nmax _) as [w|]; simpl; [|done].
    apply _position_filter_mono, omap_sublist, where2_sublist.
    intros d Hd. by apply (Htrans d t1 t2).
Qed.

(** *** Masks *)

Lemma list_to_set_filter `{Countable A} (P : A → Prop) `{∀ a, Decision (P a)}
    (l : list A) :
  (list_to_set (filter P l) : gset A) = filter P (list_to_set l).
Proof.
  apply set_eq. intros a.
  rewrite elem_of_filter, !elem_of_list_to_set, list_elem_of_filter. done.
Qed.

Lemma py_in_indices i (r0 : gset nat) :
  py_in (np_index i) (map np_index (elements r0)) = true ↔ i ∈ r0.
Proof.
  unfold py_in. rewrite existsb_exists. split.
  - intros (v & (j & <- & Hj)%in_map_iff & Heq). simpl in Heq.
    apply Z.eqb_eq, Nat2Z.inj in Heq as ->.
    by apply elem_of_elements, list_elem_of_In.
  - intros Hi. exists (np_index i). split; [|simpl; apply Z.eqb_refl].
    apply in_map, list_elem_of_In. by apply elem_of_elements.
Qed.

Lemma np_index_no_len (l : list nat) :
  existsb has_len (map np_index l) = false.
Proof. induction l as [|i l IH]; simpl; done. Qed.

(** X7: a set mask of [collapse_at] whose elements have no length only
    takes away from what the detector finds without a mask: the result
    is the unmasked result less the indices that are in the mask; and
    with a set of indices the detector returned before, as it returned
    them, it is the unmasked result less that set.  What the detector
    raises without a mask it raises with it. *)
Theorem collapse_at_masked (stepmon : stepmon_arg) target tolerance generations :
  (∀ elems, (∀ i, i ∈ elems → has_len i = false) →
     collapse_at stepmon target tolerance generations (PySet elems) =
     r ← collapse_at stepmon target tolerance generations PyNone;
     Ok (filter (λ i, ¬ py_in (np_index i) elems) r)) ∧
  (∀ r0 : gset nat,
     collapse_at stepmon target tolerance generations (indices_py r0) =
     r ← collapse_at stepmon target tolerance generations PyNone;
     Ok (r ∖ r0)).
Proof.
  assert (∀ elems, existsb has_len elems = false →
            collapse_at stepmon target tolerance generations (PySet elems) =
            r ← collapse_at stepmon target tolerance generations PyNone;
            Ok (filter (λ i, ¬ py_in (np_index i) elems) r)) as Hgen.
  { intros elems Hex. unfold Collapse.collapse_at. simpl. rewrite Hex. simpl.
    destruct (_solutions stepmon generations) as [params|]; simpl; [|done].
    destruct (change_at nmax nmin nsub nabs target params) as [change|];
      simpl; [|done].
    by rewrite list_to_set_filter. }
  split.
  - intros elems Hall. apply Hgen. apply not_true_is_false.
    intros (i & Hi & Hlen)%existsb_exists. apply list_elem_of_In in Hi.
    rewrite (Hall i Hi) in Hlen. done.
  - intros r0. unfold indices_py. rewrite Hgen by apply np_index_no_len.
    destruct (collapse_at stepmon target tolerance generations PyNone) as [r|];
      simpl; [|done].
    f_equal. apply set_eq. intros i.
    rewrite elem_of_filter, elem_of_difference.
    pose proof (py_in_indices i r0) as Hp.
    destruct (py_in (np_index i) (map np_index (elements r0))); simpl.
    + split; [intros [Hn _]; by destruct Hn|].
      intros [_ Hn]. destruct Hn. by apply Hp.
    + split.
      * intros [_ Hi]. split; [done|]. intros Hr%Hp. done.
      * intros [Hi _]. split; [auto|done].
Qed.
(** X8: [collapse_as] takes a set of pairs it returned before as its
    mask, as it returned them, and then returns what it finds without a
    mask, less the pairs of that set, either way round. *)
Theorem collapse_as_masked (stepmon : stepmon_arg) (offset : bool)
    (tolerance : num) (generations : nat) (r0 : gset (nat * nat)) :
  collapse_as stepmon offset tolerance generations (pairs_py r0) =
  r ← collapse_as stepmon offset tolerance generations PyNone;
  Ok (filter (λ p, (p ∉ r0) ∧ ((p.2, p.1) ∉ r0)) r).
Proof.
  pose proof (collapse_as_indices_pairs NpInt stepmon offset tolerance
                generations [] (elements r0)) as H.
  simpl in H. unfold pairs_py. unfold np_pair, np_index.
  rewrite H by auto.
  destruct (collapse_as stepmon offset tolerance generations PyNone) as [r|];
    simpl; [|done].
  f_equal. apply set_eq. intros p. rewrite !elem_of_filter, !elem_of_elements.
  rewrite !elem_of_nil. intuition.
Qed.
End Facts.

(** *** A result handed back as the mask, format by format *)

Lemma elem_of_cells_of_by_measure `{Countable A} (d : gmap nat (gset A)) m a :
  (m, a) ∈ cells_of (by_measure d) ↔ a ∈ default ∅ (d !! m).
Proof.
  simpl. rewrite elem_of_list_to_set, list_elem_of_bind. split.
  - intros ([m' v] & Hin & Hd%elem_of_map_to_list). simpl in Hin.
    apply list_elem_of_fmap in Hin as (b & [= -> ->] & Hb).
    rewrite Hd. simpl. by apply elem_of_elements.
  - destruct (d !! m) as [v|] eqn:Hd; simpl; [|by intros ?%not_elem_of_empty].
    intros Ha. exists (m, v). split; [|by apply elem_of_map_to_list].
    simpl. apply list_elem_of_fmap. exists a. split; [done|].
    by apply elem_of_elements.
Qed.

Lemma cells_of_dict_of_cells `{Countable A} (cells : list (nat * A)) :
  cells_of (by_measure (dict_of_cells cells)) = list_to_set cells.
Proof.
  apply set_eq. intros [m a].
  by rewrite elem_of_cells_of_by_measure, lookup_dict_of_cells,
    elem_of_list_to_set.
Qed.

(** [mask.get(m, set())] for a mask written from a dict by measure. *)
Lemma mask_get_lookup {V} (encv : V → list pyobj) (l : list (nat * V)) m :
  NoDup l.*1 →
  mask_get (map (λ mv, (PyInt (Z.of_nat mv.1), PySet (encv mv.2))) l) m
  = match (list_to_map l : gmap nat V) !! m with
    | Some v => encv v
    | None => []
    end.
Proof.
  induction l as [|[m' v] l IH]; intros Hnd; simpl; [done|].
  apply NoDup_cons in Hnd as [Hm' Hnd]. simpl.
  destruct (decide (m' = m)) as [->|Hne].
  - rewrite Z.eqb_refl. by rewrite lookup_insert_eq.
  - rewrite lookup_insert_ne by done.
    destruct (Z.eqb_spec (Z.of_nat m') (Z.of_nat m)) as [Heq|_]; [lia|].
    by apply IH.
Qed.

Lemma where_cells_map {C} (f g : C → pyobj) (l : list C) :
  where_cells (map f l) (map g l) = map (λ c, PyTuple [f c; g c]) l.
Proof. induction l as [|c l IH]; simpl; [done|]. f_equal. exact IH. Qed.

Lemma mask_get_own (d0 : gmap nat (gset nat)) m i :
  py_in (np_index i)
    (mask_get (map (λ '(m, v), (PyInt (Z.of_nat m), indices_py v))
                 (map_to_list d0)) m) = true
  ↔ i ∈ default ∅ (d0 !! m).
Proof.
  rewrite (map_ext _ (λ mv, (PyInt (Z.of_nat mv.1),
                             PySet (map np_index (elements mv.2)))))
    by (by intros []).
  rewrite (mask_get_lookup (λ v, map np_index (elements v)))
    by apply NoDup_fst_map_to_list.
  rewrite list_to_map_to_list. destruct (d0 !! m) as [v|]; simpl.
  - apply py_in_indices.
  - split; [done|by intros ?%not_elem_of_empty].
Qed.

Lemma _weight_filter_own_dict (d0 : gmap nat (gset nat)) cells :
  cells_of (_weight_filter
              (mask_dict (map (λ '(m, v), (PyInt (Z.of_nat m), indices_py v))
                            (map_to_list d0))) cells)
  = list_to_set cells ∖ cells_of (by_measure d0).
Proof.
  apply set_eq. intros [m a]. cbn [_weight_filter].
  rewrite elem_of_cells_of_by_measure, lookup_without, lookup_dict_of_cells,
    elem_of_difference, elem_of_cells_of_by_measure, elem_of_list_to_set.
  pose proof (mask_get_own d0 m a) as Hg.
  destruct (py_in (np_index a) _).
  - split; [by intros [_ ?]|]. intros [_ Hn]. destruct Hn. by apply Hg.
  - split; intros [? _]; (split; [done|]); [|done].
    intros Ha%Hg. done.
Qed.

Lemma _weight_filter_own_where (cells0 cells : list (nat * nat)) :
  cells_of (_weight_filter
              (mask_where (map (λ c, np_index c.1) cells0)
                 (map (λ c, np_index c.2) cells0)) cells)
  = list_to_set cells ∖ list_to_set cells0.
Proof.
  apply set_eq. intros c. cbn [_weight_filter cells_of].
  rewrite where_cells_map.
  rewrite elem_of_list_to_set, list_elem_of_filter, elem_of_difference,
    !elem_of_list_to_set.
  pose proof (py_in_pairs NpInt c cells0 (or_intror eq_refl)) as Hp.
  unfold weight_cell.
  destruct (py_in (np_pair c) _).
  - split; [intros [Hn _]; by destruct Hn|].
    intros [_ Hn]. destruct Hn. by apply Hp.
  - split.
    + intros [_ Hc]. split; [done|]. intros Hc0%Hp. done.
    + intros [Hc _]. split; [auto|done].
Qed.

(** The shape of a tuple of scalars. *)
Lemma np_shape_scalars (l : list pyobj) :
  Forall (λ v, np_shape v = []) l → np_shape (PyTuple l) = [length l].
Proof.
  intros Hl. cbn [np_shape]. f_equal.
  destruct Hl as [|v l Hv Hl]; [done|]. cbn [map]. rewrite Hv.
  induction Hl as [|w l Hw Hl IH]; [done|]. cbn [map foldl]. by rewrite Hw.
Qed.

Lemma weight_where_own (c0 : nat * nat) (cells0 : list (nat * nat)) :
  reject_bad_mask_weight
    (PyTuple [PyTuple (map (λ c, np_index c.1) (c0 :: cells0));
              PyTuple (map (λ c, np_index c.2) (c0 :: cells0))])
  = Ok (mask_where (map (λ c, np_index c.1) (c0 :: cells0))
          (map (λ c, np_index c.2) (c0 :: cells0))).
Proof.
  cbn [reject_bad_mask_weight].
  assert (np_ndim (PyTuple
            [PyTuple (map (λ c, np_index c.1) (c0 :: cells0));
             PyTuple (map (λ c, np_index c.2) (c0 :: cells0))]) = 2) as ->;
    [|done].
  unfold np_ndim.
  change (np_shape (PyTuple [?a; ?b]))
    with (2 :: common_prefix (np_shape a) (np_shape b)).
  rewrite !np_shape_scalars by (apply Forall_forall; by intros ? (? & -> & _)%list_elem_of_fmap).
  rewrite !length_map. cbn [common_prefix]. by rewrite Nat.eqb_refl.
Qed.


Lemma py_eqb_position_cell c q :
  py_eqb (position_cell c) (position_cell q) = true ↔ c = q.
Proof.
  destruct c as [m [i j]], q as [m' [i' j']]. cbn. split.
  - intros H. apply andb_true_iff in H as [H1 H].
    apply andb_true_iff in H as [H _]. apply andb_true_iff in H as [H2 H].
    apply andb_true_iff in H as [H3 _].
    apply Z.eqb_eq, Nat2Z.inj in H1, H2, H3. by subst.
  - intros [= -> -> ->]. by rewrite !Z.eqb_refl.
Qed.

Lemma py_in_position_cells c (l : list (nat * (nat * nat))) :
  py_in (position_cell c) (map position_cell l) = true ↔ c ∈ l.
Proof.
  unfold py_in. rewrite existsb_exists. split.
  - intros (v & (q & <- & Hq)%in_map_iff & Heq).
    apply py_eqb_position_cell in Heq as ->. by apply list_elem_of_In.
  - intros Hc. exists (position_cell c). split.
    + by apply in_map, list_elem_of_In.
    + by apply py_eqb_position_cell.
Qed.

Lemma elem_of_turned c (l : list (nat * (nat * nat))) :
  c ∈ map turned l ↔ turned c ∈ l.
Proof.
  rewrite list_elem_of_fmap. split.
  - intros ([m [i j]] & -> & Hq). done.
  - intros Hq. exists (turned c). split; [by destruct c as [m [i j]]|done].
Qed.

Lemma seconds_position_cells (l : list (nat * (nat * nat))) :
  seconds (map position_cell l) = map (λ c, np_pair c.2) l.
Proof. induction l as [|c l IH]; [done|]. cbn. by rewrite <- IH. Qed.

Lemma firsts_position_cells (l : list (nat * (nat * nat))) :
  firsts (map position_cell l) = map (λ c, PyInt (Z.of_nat c.1)) l.
Proof. induction l as [|c l IH]; [done|]. cbn. by rewrite <- IH. Qed.

Lemma _inverted_np_pairs {C} (f : C → nat * nat) (l : list C) :
  _inverted (map (λ c, np_pair (f c)) l)
  = Ok (map (λ c, np_pair ((f c).2, (f c).1)) l).
Proof. induction l as [|c l IH]; [done|]. cbn. by rewrite IH. Qed.

Lemma position_cells_where (l : list (nat * (nat * nat))) :
  where_cells (map (λ c, PyInt (Z.of_nat c.1)) l)
    (map (λ c, np_pair (c.2.2, c.2.1)) l)
  = map position_cell (map turned l).
Proof. rewrite where_cells_map, map_map. done. Qed.

Lemma _position_filter_own_set (l cells : list (nat * (nat * nat))) :
  ∃ s, _position_filter (mask_set (map position_cell l)) cells
         = Ok (as_pairs s) ∧
       s = filter (λ c, (c ∉ l) ∧ (turned c ∉ l)) (list_to_set cells).
Proof.
  cbn [_position_filter]. rewrite seconds_position_cells, firsts_position_cells.
  rewrite (_inverted_np_pairs snd). cbn [mbind result_bind].
  rewrite position_cells_where. eexists. split; [done|].
  apply set_eq. intros c.
  rewrite elem_of_list_to_set, list_elem_of_filter, elem_of_filter,
    elem_of_list_to_set.
  pose proof (py_in_position_cells c l) as H1.
  pose proof (py_in_position_cells c (map turned l)) as H2.
  rewrite elem_of_turned in H2.
  destruct (py_in (position_cell c) (map position_cell l)),
    (py_in (position_cell c) (map position_cell (map turned l)));
    simpl; intuition (try done; auto).
Qed.

Lemma py_in_app v (l1 l2 : list pyobj) :
  py_in v (l1 ++ l2) = py_in v l1 || py_in v l2.
Proof. apply existsb_app. Qed.

Lemma py_in_np_pairs p (l : list (nat * nat)) :
  py_in (np_pair p) (map np_pair l) = true ↔ p ∈ l.
Proof. exact (py_in_pairs NpInt p l (or_intror eq_refl)). Qed.

Lemma py_in_np_pairs_turned p (l : list (nat * nat)) :
  py_in (np_pair p) (map (λ q, np_pair (q.2, q.1)) l) = true ↔ (p.2, p.1) ∈ l.
Proof.
  rewrite <- (map_map (λ q, (q.2, q.1)) np_pair), py_in_np_pairs.
  rewrite list_elem_of_fmap. split.
  - by intros ([i j] & -> & Hq).
  - intros Hq. exists (p.2, p.1). split; [by destruct p|done].
Qed.

Lemma _inverted_map_np_pair (l : list (nat * nat)) :
  _inverted (map np_pair l) = Ok (map (λ q, np_pair (q.2, q.1)) l).
Proof. induction l as [|c l IH]; [done|]. cbn. by rewrite IH. Qed.

Lemma symmetric_entries (l : list (nat * gset (nat * nat))) :
  foldr (λ '(k, v) rest,
           r ← rest;
           s ← _symmetric (match v with PySet ks => ks | _ => [] end);
           Ok ((k, PySet s) :: r)) (Ok [])
    (map (λ '(m, v), (PyInt (Z.of_nat m), pairs_py v)) l)
  = Ok (map (λ mv, (PyInt (Z.of_nat mv.1),
                    PySet (map np_pair (elements mv.2) ++
                           map (λ q, np_pair (q.2, q.1)) (elements mv.2)))) l).
Proof.
  induction l as [|[m v] l IH]; [done|]. cbn [map foldr]. rewrite IH.
  cbn [mbind result_bind pairs_py]. unfold _symmetric.
  by rewrite _inverted_map_np_pair.
Qed.

Lemma _position_filter_own_dict (d0 : gmap nat (gset (nat * nat))) cells :
  ∃ d, _position_filter
         (mask_dict (map (λ '(m, v), (PyInt (Z.of_nat m), pairs_py v))
                       (map_to_list d0))) cells = Ok (by_measure d) ∧
       cells_of (by_measure d)
       = filter (λ c, (c ∉ cells_of (by_measure d0)) ∧
                      (turned c ∉ cells_of (by_measure d0)))
           (list_to_set cells).
Proof.
  cbn [_position_filter]. rewrite symmetric_entries. cbn [mbind result_bind].
  eexists. split; [done|]. apply set_eq. intros [m p].
  rewrite elem_of_cells_of_by_measure, lookup_without, lookup_dict_of_cells,
    elem_of_filter, elem_of_list_to_set.
  change (turned (m, p)) with (m, (p.2, p.1)).
  rewrite !elem_of_cells_of_by_measure.
  rewrite (mask_get_lookup
             (λ v, map np_pair (elements v) ++
                   map (λ q, np_pair (q.2, q.1)) (elements v)))
    by apply NoDup_fst_map_to_list.
  rewrite list_to_map_to_list.
  destruct (d0 !! m) as [v|]; cbn [default].
  - rewrite py_in_app.
    pose proof (py_in_np_pairs p (elements v)) as H1.
    pose proof (py_in_np_pairs_turned p (elements v)) as H2.
    rewrite elem_of_elements in H1, H2. cbn [fst snd] in H2.
    destruct (py_in (np_pair p) (map np_pair (elements v))),
      (py_in (np_pair p) (map (λ q, np_pair (q.2, q.1)) (elements v)));
      simpl; intuition (try done; auto).
  - simpl. split; [intros [? _]|intros [_ ?]]; [|done].
    split; [|done]. split; apply not_elem_of_empty.
Qed.

Lemma np_shape_pairs {C} (f : C → nat * nat) (l : list C) :
  l ≠ [] → np_shape (PyTuple (map (λ c, np_pair (f c)) l)) = [length l; 2].
Proof.
  intros Hl. cbn [np_shape]. rewrite length_map. f_equal.
  destruct l as [|c l]; [done|]. cbn [map].
  change (np_shape (np_pair (f c))) with [2].
  induction l as [|c' l IH]; [done|]. cbn [map foldl].
  change (np_shape (np_pair (f c'))) with [2]. cbn [common_prefix Nat.eqb].
  apply IH. done.
Qed.

Lemma position_where_own (c0 : nat * (nat * nat)) cells0 :
  reject_bad_mask_position
    (PyTuple [PyTuple (map (λ c, PyInt (Z.of_nat c.1)) (c0 :: cells0));
              PyTuple (map (λ c, np_pair c.2) (c0 :: cells0))])
  = Ok (mask_where (map (λ c, PyInt (Z.of_nat c.1)) (c0 :: cells0))
          (map (λ c, np_pair c.2) (c0 :: cells0))).
Proof.
  cbn [reject_bad_mask_position]. unfold np_ndim.
  rewrite np_shape_scalars
    by (apply Forall_forall; by intros ? (? & -> & _)%list_elem_of_fmap).
  rewrite (np_shape_pairs snd) by done. done.
Qed.

Lemma py_in_app_cells c (l1 l2 : list (nat * (nat * nat))) :
  py_in (position_cell c) (map position_cell (l1 ++ l2))
  = py_in (position_cell c) (map position_cell l1)
    || py_in (position_cell c) (map position_cell l2).
Proof. by rewrite map_app, py_in_app. Qed.

Lemma _position_filter_own_where (cells0 cells : list (nat * (nat * nat))) :
  ∃ kept, _position_filter
            (mask_where (map (λ c, PyInt (Z.of_nat c.1)) cells0)
               (map (λ c, np_pair c.2) cells0)) cells = Ok (as_where kept) ∧
          (list_to_set kept : gset (nat * (nat * nat)))
          = filter (λ c, (c ∉ cells0) ∧ (turned c ∉ cells0)) (list_to_set cells).
Proof.
  cbn [_position_filter]. rewrite (_inverted_np_pairs snd).
  cbn [mbind result_bind]. eexists. split; [done|].
  unfold where_cells. rewrite zip_with_app by by rewrite !length_map.
  fold (where_cells (map (λ c, PyInt (Z.of_nat c.1)) cells0)
          (map (λ c, np_pair c.2) cells0)).
  fold (where_cells (map (λ c, PyInt (Z.of_nat c.1)) cells0)
          (map (λ c, np_pair (c.2.2, c.2.1)) cells0)).
  rewrite position_cells_where, where_cells_map.
  change (map (λ c, PyTuple [PyInt (Z.of_nat c.1); np_pair c.2]) cells0)
    with (map position_cell cells0).
  apply set_eq. intros c.
  rewrite elem_of_list_to_set, list_elem_of_filter, elem_of_filter,
    elem_of_list_to_set.
  rewrite <- map_app, py_in_app_cells.
  pose proof (py_in_position_cells c cells0) as H1.
  pose proof (py_in_position_cells c (map turned cells0)) as H2.
  rewrite elem_of_turned in H2.
  destruct (py_in (position_cell c) (map position_cell cells0)),
    (py_in (position_cell c) (map position_cell (map turned cells0)));
    simpl; intuition (try done; auto).
Qed.

Lemma position_mask_own (r0 : collapse_result (nat * nat)) :
  ∃ fmt, reject_bad_mask_position (position_py r0) = Ok fmt ∧
    ∀ cells, ∃ r', _position_filter fmt cells = Ok r' ∧
      same_format r0 r' ∧
      cells_of r' = filter (λ c, (c ∉ cells_of r0) ∧ (turned c ∉ cells_of r0))
                      (list_to_set cells).
Proof.
  destruct r0 as [d0|s0|cells0].
  - eexists. split.
    + cbn [position_py]. rewrite reject_bad_mask_position_dict.
      rewrite (proj2 (forallb_forall _ _)); [done|].
      intros [k v] ([m w] & [= <- <-] & _)%in_map_iff.
      unfold position_entry, pairs_py. cbn [fst snd is_int andb].
      apply forallb_forall. by intros k (i & <- & _)%in_map_iff.
    + intros cells.
      destruct (_position_filter_own_dict d0 cells) as (d & -> & Hd).
      by eexists.
  - eexists. split.
    + cbn [position_py]. rewrite reject_bad_mask_position_set.
      * rewrite (proj2 (forallb_forall _ _)); [done|].
        by intros k (c & <- & _)%in_map_iff.
      * by intros k (c & -> & _)%list_elem_of_fmap.
    + intros cells.
      destruct (_position_filter_own_set (elements s0) cells) as (s & -> & ->).
      eexists. split; [done|]. split; [done|]. cbn [cells_of].
      apply set_eq. intros c. rewrite !elem_of_filter, !elem_of_elements. done.
  - destruct cells0 as [|c0 cells0].
    + eexists. split; [done|]. intros cells.
      destruct (_position_filter_own_where [] cells) as (kept & Hf & Hk).
      cbn [map] in Hf. rewrite Hf.
      eexists. split; [done|]. split; [done|]. cbn [cells_of]. rewrite Hk.
      apply set_eq. intros c. rewrite !elem_of_filter, !elem_of_list_to_set.
      done.
    + eexists. split; [apply position_where_own|]. intros cells.
      destruct (_position_filter_own_where (c0 :: cells0) cells)
        as (kept & -> & Hk).
      eexists. split; [done|]. split; [done|]. cbn [cells_of]. rewrite Hk.
      apply set_eq. intros c. rewrite !elem_of_filter, !elem_of_list_to_set.
      done.
Qed.

Section Masks.

Context {num : Type}.
Variable leb : num → num → bool.
Variables nmax nmin nsub : num → num → num.
Variable nabs : num → num.

Local Abbreviation collapse_weight := (collapse_weight leb nmax).
Local Abbreviation collapse_position := (collapse_position leb nmax nsub nabs).
Local Abbreviation stepmon_arg := (@stepmon_arg num).

Lemma weight_mask_own (r0 : collapse_result nat) :
  not_own_pairs r0 →
  ∃ fmt, reject_bad_mask_weight (weight_py r0) = Ok fmt ∧
    ∀ cells, same_format r0 (_weight_filter fmt cells) ∧
             cells_of (_weight_filter fmt cells)
             = list_to_set cells ∖ cells_of r0.
Proof.
  intros Hr0. destruct r0 as [d0|s0|cells0].
  - eexists. split.
    + cbn [weight_py]. rewrite reject_bad_mask_weight_dict.
      rewrite (proj2 (forallb_forall _ _)); [done|].
      intros [k v] ([m w] & [= <- <-] & _)%in_map_iff.
      unfold weight_entry, indices_py. cbn [fst snd is_int andb].
      apply forallb_forall. by intros k (i & <- & _)%in_map_iff.
    + intros cells. split; [done|]. apply _weight_filter_own_dict.
  - simpl in Hr0. rewrite Hr0. eexists. split; [done|].
    intros cells. split; [done|]. cbn [_weight_filter cells_of].
    apply set_eq. intros c.
    rewrite elem_of_list_to_set, list_elem_of_filter, elem_of_difference,
      elem_of_list_to_set, elements_empty. simpl.
    split; [intros [_ ?]; split; [done|apply not_elem_of_empty]|].
    intros [? _]. split; [auto|done].
  - destruct cells0 as [|c0 cells0].
    + eexists. split; [done|]. intros cells. split; [done|].
      apply (_weight_filter_own_where [] cells).
    + eexists. split; [apply weight_where_own|].
      intros cells. split; [done|]. apply _weight_filter_own_where.
Qed.

(** X9: [collapse_weight] takes a result it returned before as its
    mask, but for a set of cells that is not empty, and then returns, in
    the format of that result, the cells it finds without a mask less
    the cells of that result; what it raises without a mask it raises
    with it. *)
Theorem collapse_weight_masked (stepmon : stepmon_arg) (tolerance : num)
    (generations : nat) (r0 : collapse_result nat) :
  not_own_pairs r0 →
  (∀ e, collapse_weight stepmon tolerance generations PyNone = Raise e →
        collapse_weight stepmon tolerance generations (weight_py r0) = Raise e) ∧
  (∀ r, collapse_weight stepmon tolerance generations PyNone = Ok r →
        ∃ r', collapse_weight stepmon tolerance generations (weight_py r0)
                = Ok r' ∧
              same_format r0 r' ∧ cells_of r' = cells_of r ∖ cells_of r0).
Proof.
  intros Hr0. destruct (weight_mask_own r0 Hr0) as (fmt & Hfmt & Hfilter).
  unfold Collapse.collapse_weight. rewrite Hfmt.
  cbn [mbind result_bind reject_bad_mask_weight].
  destruct (_weights stepmon generations) as [weights|];
    cbn [mbind result_bind]; [|split; [done|done]].
  destruct (max0_3 nmax weights) as [w|]; cbn [mbind result_bind];
    [|split; [done|done]].
  split; [done|]. intros r [= <-]. eexists. split; [done|].
  destruct (Hfilter (where2 (λ w, leb w tolerance) 0 w)) as [Hsame Hcells].
  split; [done|]. rewrite Hcells. cbn [_weight_filter].
  by rewrite cells_of_dict_of_cells.
Qed.

(** X10: [collapse_position] takes a result it returned before as its
    mask, in each of the three formats, and then returns, in the format
    of that result, the cells it finds without a mask less the cells of
    that result and less those cells with their pair turned round; what
    it raises without a mask it raises with it. *)
Theorem collapse_position_masked (stepmon : stepmon_arg) (tolerance : num)
    (generations : nat) (r0 : collapse_result (nat * nat)) :
  (∀ e, collapse_position stepmon tolerance generations PyNone = Raise e →
        collapse_position stepmon tolerance generations (position_py r0)
          = Raise e) ∧
  (∀ r, collapse_position stepmon tolerance generations PyNone = Ok r →
        ∃ r', collapse_position stepmon tolerance generations (position_py r0)
                = Ok r' ∧
              same_format r0 r' ∧
              cells_of r'
              = filter (λ c, (c ∉ cells_of r0) ∧ (turned c ∉ cells_of r0))
                  (cells_of r)).
Proof.
  destruct (position_mask_own r0) as (fmt & Hfmt & Hfilter).
  unfold Collapse.collapse_position. rewrite Hfmt.
  cbn [mbind result_bind reject_bad_mask_position].
  destruct (_positions stepmon generations) as [distances|];
    cbn [mbind result_bind]; [|split; [done|done]].
  destruct (max0_3 nmax _) as [w|]; cbn [mbind result_bind];
    [|split; [done|done]].
  set (cells := omap _ _).
  destruct (Hfilter cells) as (r' & -> & Hsame & Hcells).
  split; [done|]. intros r [= <-]. exists r'. split; [done|].
  split; [done|]. rewrite Hcells. by rewrite cells_of_dict_of_cells.
Qed.
End Masks.

Import Examples.


Lemma collapse_weight_rejects_own_pairs_witness :
  collapse_weight_ex (a_monitor monitor0) 0%Z 2 (PySet [])
    = Ok (as_pairs {[(0, 0); (1, 1)]}) ∧
  ({[(0, 0); (1, 1)]} : gset (nat * nat)) ≠ ∅ ∧
  collapse_weight_ex (a_monitor monitor0) 0%Z 2
    (weight_py (as_pairs {[(0, 0); (1, 1)]})) = Raise ValueError.
Proof.
  assert (({[(0, 0); (1, 1)]} : gset (nat * nat)) ≠ ∅) as Hne
    by (intros H; by apply (f_equal size) in H).
  split; [vm_compute; reflexivity|]. split; [exact Hne|].
  exact (collapse_weight_rejects_own_pairs Z.leb Z.max (a_monitor monitor0)
           0%Z 2 _ Hne).
Defined.


Lemma collapse_weight_masked_witness :
  not_own_pairs (by_measure {[0 := {[0]}]}) ∧
  ∃ r',
    collapse_weight_ex (a_monitor monitor0) 0%Z 2
      (weight_py (by_measure {[0 := {[0]}]})) = Ok r' ∧
    cells_of r' = cells_of (by_measure (dict_of_cells [(0, 0); (1, 1)]))
                  ∖ cells_of (by_measure {[0 := {[0]}]}).
Proof.
  split; [exact I|].
  destruct (collapse_weight_masked Z.leb Z.max (a_monitor monitor0) 0%Z 2
              (by_measure {[0 := {[0]}]}) I) as [_ H].
  destruct (H (by_measure (dict_of_cells [(0, 0); (1, 1)])))
    as (r' & Hr' & _ & Hcells); [vm_compute; reflexivity|].
  by exists r'.
Defined.

Lemma detectors_monotone_witness :
  ∃ r1 r2,
    collapse_at_ex (a_monitor monitor0) target_None (tol_value 1%Z) 3 PyNone
      = Ok r2 ∧
    collapse_at_ex (a_monitor monitor0) target_None (tol_value 0%Z) 3 PyNone
      = Ok r1 ∧
    r1 ⊆ r2.
Proof.
  destruct (detectors_monotone Z.leb Z.max Z.min Z.sub Z.abs) as [Hat _].
  { intros a b c Hab%Z.leb_le Hbc%Z.leb_le. apply Z.leb_le. lia. }
  destruct (Hat (a_monitor monitor0) target_None (tol_value 0%Z)
              (tol_value 1%Z) 3 PyNone {[0; 2]})
    as (r1 & H1 & Hsub).
  { repeat constructor. }
  { vm_compute. reflexivity. }
  exists r1, {[0; 2]}. split; [vm_compute; reflexivity|]. by split.
Defined.
End CollapseFacts.

(** ** Termination messages *)

Module CodecFacts.
Import Py Collapse.
Import Stdlib.Strings.Ascii.

(** *** Prefixes and separators *)

Lemma strip_Some p s r : strip p s = Some r ↔ s = p +:+ r.
Proof.
  revert s. induction p as [|c p IH]; intros s; simpl.
  - split; [by intros [= ->]|by intros ->].
  - destruct s as [|d s]; [done|].
    destruct (Ascii.eqb_spec c d) as [->|Hne].
    + rewrite IH. split; [by intros ->|by intros [= ->]].
    + split; [done|]. intros [= ? ?]. done.
Qed.

Lemma strip_app p r : strip p (p +:+ r) = Some r.
Proof. by apply strip_Some. Qed.

Lemma rsplit1_None c sep s :
  rsplit1 (String c sep) s = None ↔ contains (String c sep) s = false.
Proof.
  induction s as [|d s IH]; [done|].
  cbn [rsplit1 contains].
  destruct (rsplit1 (String c sep) s) as [[before after]|].
  - destruct (strip (String c sep) (String d s)); [done|].
    split; [done|]. intros H. by apply IH in H.
  - destruct (strip (String c sep) (String d s)); [done|]. by rewrite <- IH.
Qed.

Lemma rsplit1_Some sep s before after :
  rsplit1 sep s = Some (before, after) → s = before +:+ sep +:+ after.
Proof.
  revert before. induction s as [|c s IH]; intros before; [done|]. simpl.
  destruct (rsplit1 sep s) as [[b a]|].
  - intros [= <- <-]. rewrite (IH b eq_refl) at 1. reflexivity.
  - destruct (strip sep (String c s)) as [a|] eqn:Hs; [|done].
    intros [= <- <-]. by apply strip_Some in Hs.
Qed.

Lemma rsplit1_cons sep c s before after :
  rsplit1 sep s = Some (before, after) →
  rsplit1 sep (String c s) = Some (String c before, after).
Proof. intros H. simpl. by rewrite H. Qed.

Lemma split_no_sep c sep s :
  contains (String c sep) s = false → split (String c sep) s = [s].
Proof.
  unfold split. induction s as [|d s IH]; [done|].
  cbn [contains split_from].
  destruct (strip (String c sep) (String d s)); [done|].
  intros H. by rewrite (IH H).
Qed.

(** *** Messages without a collapse *)

(** One turn of the loop of [collapsed]. *)
Lemma collapsed_step_Raise e clauses :
  foldl (λ acc message,
           collapses ← acc;
           match rsplit1 " at " message with
           | Some (name, msg) => v ← eval msg; Ok (<[name := v]> collapses)
           | None => Ok collapses
           end) (Raise e) clauses
  = (Raise e : result (gmap string pyobj)).
Proof. by induction clauses. Qed.

Lemma collapsed_fold_inv clauses (m m' : gmap string pyobj) :
  foldl (λ acc message,
           collapses ← acc;
           match rsplit1 " at " message with
           | Some (name, msg) => v ← eval msg; Ok (<[name := v]> collapses)
           | None => Ok collapses
           end) (Ok m) clauses = Ok m' →
  m' = m ∨
  ∃ clause name payload v,
    clause ∈ clauses ∧ rsplit1 " at " clause = Some (name, payload) ∧
    eval payload = Ok v ∧ m' !! name = Some v.
Proof.
  revert m. induction clauses as [|clause clauses IH]; intros m; simpl.
  - intros [= <-]. by left.
  - destruct (rsplit1 " at " clause) as [[name payload]|] eqn:Hsplit.
    + destruct (eval payload) as [v|e] eqn:Hv; simpl.
      * intros H. destruct (IH _ H) as [->|(cl & n & p & w & Hin & ? & ? & ?)].
        -- right. exists clause, name, payload, v.
           split; [by left|]. split; [done|]. split; [done|].
           by rewrite lookup_insert_eq.
        -- right. exists cl, n, p, w. split; [by right|done].
      * by rewrite collapsed_step_Raise.
    + intros H. destruct (IH _ H) as [->|(cl & n & p & w & Hin & ?)].
      * by left.
      * right. exists cl, n, p, w. split; [by right|done].
Qed.

(** C10: a message none of whose clauses contains [" at "] gives
    [None], as the plain reason ["VTR with 0.001"] does.  When
    [collapsed] returns a dict, it is not empty, and one of the clauses
    is a name, [" at "] and a payload that [eval] accepts, the dict
    holding the value under the name. *)
Theorem collapsed_None (message : string) :
  (Forall (λ clause, contains " at " clause = false) (split "; " message) →
   collapsed message = Ok None) ∧
  collapsed "VTR with 0.001" = Ok None ∧
  (∀ d, collapsed message = Ok (Some d) →
        d ≠ ∅ ∧
        ∃ clause name payload v,
          clause ∈ split "; " message ∧
          clause = name +:+ " at " +:+ payload ∧
          eval payload = Ok v ∧ d !! name = Some v).
Proof.
  split; [|split].
  - intros Hall. unfold collapsed.
    assert (∀ m : gmap string pyobj,
              foldl (λ acc message,
                       collapses ← acc;
                       match rsplit1 " at " message with
                       | Some (name, msg) =>
                           v ← eval msg; Ok (<[name := v]> collapses)
                       | None => Ok collapses
                       end) (Ok m) (split "; " message) = Ok m) as ->; [|done].
    induction Hall as [|clause clauses Hc _ IH]; intros m; simpl; [done|].
    apply rsplit1_None in Hc. rewrite Hc. apply IH.
  - vm_compute. reflexivity.
  - intros d. unfold collapsed.
    destruct (foldl _ _ (split "; " message)) as [m|] eqn:Hfold; simpl; [|done].
    destruct (decide (m = ∅)) as [->|Hne]; [done|]. intros [= <-].
    split; [done|].
    destruct (collapsed_fold_inv _ _ _ Hfold)
      as [->|(cl & n & p & v & Hin & Hsplit & Hv & Hlook)]; [done|].
    exists cl, n, p, v. split; [done|]. split; [|done].
    by apply rsplit1_Some.
Qed.


(** *** Strings *)

Lemma append_cons c (a b : string) : String c a +:+ b = String c (a +:+ b).
Proof. reflexivity. Qed.

Lemma append_assoc (a b c : string) : (a +:+ b) +:+ c = a +:+ (b +:+ c).
Proof.
  induction a as [|d a IH]; [done|]. by rewrite !append_cons, IH.
Qed.

Lemma append_nil_r (a : string) : a +:+ "" = a.
Proof. induction a as [|d a IH]; [done|]. by rewrite append_cons, IH. Qed.

Lemma all_chars_app p (a b : string) :
  all_chars p (a +:+ b) = all_chars p a && all_chars p b.
Proof.
  induction a as [|d a IH]; [done|].
  rewrite append_cons. simpl. by rewrite IH, andb_assoc.
Qed.

(** *** Integers *)

Lemma parse_uint_app (u : Decimal.uint) (rest : string) :
  starts_with is_digit rest = false →
  parse_uint (DecimalString.NilEmpty.string_of_uint u +:+ rest) = (u, rest).
Proof.
  intros Hrest. induction u as [|u IH|u IH|u IH|u IH|u IH|u IH|u IH|u IH|u IH|u IH];
    cbn [DecimalString.NilEmpty.string_of_uint];
    rewrite ?append_cons; cbn [parse_uint]; rewrite ?IH; try done.
  destruct rest as [|c rest]; [done|]. simpl in *. unfold is_digit in Hrest.
  by destruct (digit c).
Qed.

Lemma nzhead_not_D0 (u u' : Decimal.uint) : Decimal.nzhead u ≠ Decimal.D0 u'.
Proof. induction u; simpl; done. Qed.

Lemma decimal_literal_unorm (u : Decimal.uint) :
  decimal_literal (Decimal.unorm u) = true.
Proof.
  unfold Decimal.unorm. pose proof (nzhead_not_D0 u) as H.
  destruct (Decimal.nzhead u); try done. by destruct (H u0).
Qed.

Lemma to_int_norm (n : Z) : Decimal.norm (Z.to_int n) = Z.to_int n.
Proof. by rewrite <- DecimalZ.to_of, DecimalZ.of_to. Qed.

(** The text of an integer has no leading zero, and reads back. *)
Lemma parse_int_repr (n : Z) (rest : string) :
  starts_with is_digit rest = false →
  parse_int (repr_int n +:+ rest) = Some (n, rest).
Proof.
  intros Hrest. unfold parse_int, repr_int.
  pose proof (to_int_norm n) as Hnorm. pose proof (DecimalZ.of_to n) as Hof.
  destruct (Z.to_int n) as [u|u]; cbn [DecimalString.NilEmpty.string_of_int].
  - injection Hnorm as Hnorm.
    assert (strip "-" (DecimalString.NilEmpty.string_of_uint u +:+ rest) = None)
      as ->.
    { by destruct u. }
    rewrite parse_uint_app by done.
    by rewrite <- Hnorm, decimal_literal_unorm, Hnorm, Hof.
  - rewrite append_cons. cbn [strip]. rewrite Ascii.eqb_refl. cbn [strip].
    rewrite parse_uint_app by done.
    assert (decimal_literal u = true) as ->; [|by rewrite Hof].
    simpl in Hnorm. pose proof (nzhead_not_D0 u) as H.
    destruct (Decimal.nzhead u) eqn:E; try done;
      injection Hnorm as <-; try done. by destruct (H u0).
Qed.

(** *** Induction on values *)

Lemma py_size_elem (l : list pyobj) v :
  v ∈ l → py_size v ≤ foldr (λ a n, py_size a + n) 0 l.
Proof.
  induction l as [|a l IH]; [by intros ?%elem_of_nil|].
  intros [->|Hin]%elem_of_cons; simpl; [lia|]. specialize (IH Hin). lia.
Qed.

Lemma py_size_entry (l : list (pyobj * pyobj)) kv :
  kv ∈ l →
  py_size kv.1 + py_size kv.2
    ≤ foldr (λ kv n, py_size kv.1 + py_size kv.2 + n) 0 l.
Proof.
  induction l as [|a l IH]; [by intros ?%elem_of_nil|].
  intros [->|Hin]%elem_of_cons; simpl; [lia|]. specialize (IH Hin). lia.
Qed.

Lemma pyobj_nested_ind (P : pyobj → Prop) :
  P PyNone → (∀ n, P (PyInt n)) → (∀ n, P (NpInt n)) →
  (∀ l, Forall P l → P (PyTuple l)) →
  (∀ l, Forall P l → P (PyList l)) →
  (∀ l, Forall P l → P (PySet l)) →
  (∀ l, Forall (λ kv, P kv.1 ∧ P kv.2) l → P (PyDict l)) →
  ∀ v, P v.
Proof.
  intros HN HI HNp HT HL HS HD.
  assert (∀ n v, py_size v < n → P v) as H;
    [|intros v; apply (H (S (py_size v))); lia].
  induction n as [|n IH]; intros v Hv; [lia|].
  destruct v as [|k|k|l|l|l|l]; [done..| | | |];
    [apply HT|apply HL|apply HS|apply HD];
    apply Forall_forall; intros x Hx; simpl in Hv.
  - apply IH. pose proof (py_size_elem _ _ Hx). lia.
  - apply IH. pose proof (py_size_elem _ _ Hx). lia.
  - apply IH. pose proof (py_size_elem _ _ Hx). lia.
  - pose proof (py_size_entry _ _ Hx). split; apply IH; lia.
Qed.

(** *** What a text starts with *)

Lemma strip_starts p0 p (P : Ascii.ascii → bool) s :
  starts_with P s = true → P p0 = false → strip (String p0 p) s = None.
Proof.
  destruct s as [|c s]; [done|]. simpl. intros Hc Hp.
  destruct (Ascii.eqb_spec p0 c) as [->|]; [congruence|done].
Qed.

Lemma starts_with_app P a b :
  starts_with P a = true → starts_with P (a +:+ b) = true.
Proof. by destruct a. Qed.

Lemma repr_int_starts n :
  starts_with (λ c, is_digit c || Ascii.eqb c "-"%char) (repr_int n) = true.
Proof.
  unfold repr_int. pose proof (to_int_norm n) as Hnorm.
  destruct (Z.to_int n) as [u|u]; [|done].
  injection Hnorm as Hnorm. pose proof (DecimalFacts.unorm_nonnil u) as Hnil.
  rewrite Hnorm in Hnil. by destruct u.
Qed.

Lemma repr_int_head n : starts_with repr_head (repr_int n) = true.
Proof.
  pose proof (repr_int_starts n) as H.
  destruct (repr_int n) as [|c s]; [done|]. simpl in *.
  unfold repr_head. apply orb_true_iff in H as [->|H]; [done|].
  apply Ascii.eqb_eq in H as ->. done.
Qed.

Lemma repr_starts v : starts_with repr_head (repr v) = true.
Proof.
  destruct v as [|n|n|l|l|l|l]; try done; try apply repr_int_head.
  simpl. by destruct l as [|a [|b l]].
Qed.

Lemma join_cons sep x (l : list string) :
  l ≠ [] → join sep (x :: l) = x +:+ sep +:+ join sep l.
Proof. by destruct l. Qed.

Lemma join_starts P (l : list string) :
  match l with [] => True | x :: _ => starts_with P x = true end →
  l ≠ [] → starts_with P (join ", " l) = true.
Proof.
  destruct l as [|x [|y l]]; [done|done|]. intros Hx _.
  cbn [join]. by apply starts_with_app.
Qed.

Lemma items_start (l : list pyobj) rest :
  l ≠ [] →
  starts_with repr_head (join ", " (map repr l) +:+ rest) = true.
Proof.
  intros Hl. apply starts_with_app, join_starts.
  - destruct l; [done|]. apply repr_starts.
  - by destruct l.
Qed.

Lemma entries_start (l : list (pyobj * pyobj)) rest :
  l ≠ [] →
  starts_with repr_head
    (join ", " (map (λ kv, repr kv.1 +:+ ": " +:+ repr kv.2) l) +:+ rest)
  = true.
Proof.
  intros Hl. apply starts_with_app, join_starts.
  - destruct l as [|[k v] l]; [done|]. apply starts_with_app, repr_starts.
  - by destruct l.
Qed.

(** *** Reading back what [repr] prints *)

Section ReadingBack.

Local Arguments strip : simpl never.

Lemma parse_items_repr (item : string → option (pyobj * string))
    (l : list pyobj) n rest :
  l ≠ [] → length l ≤ n →
  Forall (λ v, ∀ rest, starts_with is_digit rest = false →
                 item (repr v +:+ rest) = Some (as_evaluated v, rest)) l →
  starts_with is_digit rest = false → strip ", " rest = None →
  parse_items item n (join ", " (map repr l) +:+ rest)
    = Some (map as_evaluated l, rest).
Proof.
  intros Hl Hn Hitem Hrest Hsep. revert n Hn.
  induction Hitem as [|x l Hx Hitem IH]; [done|]. intros [|n] Hn; [simpl in Hn; lia|].
  destruct l as [|y l].
  - cbn [map join parse_items]. rewrite (Hx rest Hrest). cbn [mbind option_bind]. by rewrite Hsep.
  - rewrite map_cons, join_cons by done.
    rewrite !append_assoc. cbn [parse_items].
    rewrite Hx by done. cbn [mbind option_bind]. rewrite strip_app.
    rewrite IH; [done|done|simpl in *; lia].
Qed.

Lemma parse_entries_repr (item : string → option (pyobj * string))
    (l : list (pyobj * pyobj)) n rest :
  l ≠ [] → length l ≤ n →
  Forall (λ kv,
            (∀ rest, starts_with is_digit rest = false →
               item (repr kv.1 +:+ rest) = Some (as_evaluated kv.1, rest)) ∧
            (∀ rest, starts_with is_digit rest = false →
               item (repr kv.2 +:+ rest) = Some (as_evaluated kv.2, rest))) l →
  starts_with is_digit rest = false → strip ", " rest = None →
  parse_entries item n
    (join ", " (map (λ kv, repr kv.1 +:+ ": " +:+ repr kv.2) l) +:+ rest)
    = Some (map (λ kv, (as_evaluated kv.1, as_evaluated kv.2)) l, rest).
Proof.
  intros Hl Hn Hitem Hrest Hsep. revert n Hn.
  induction Hitem as [|[k v] l [Hk Hv] Hitem IH]; [done|].
  intros [|n] Hn; [simpl in Hn; lia|]. simpl in Hk, Hv.
  destruct l as [|y l].
  - cbn [map join parse_entries fst snd]. rewrite !append_assoc.
    rewrite Hk by done. cbn [mbind option_bind]. rewrite strip_app. cbn [mbind option_bind].
    rewrite (Hv rest Hrest). cbn [mbind option_bind]. by rewrite Hsep.
  - rewrite map_cons, join_cons by done. cbn [fst snd].
    rewrite !append_assoc. cbn [parse_entries].
    rewrite Hk by done. cbn [mbind option_bind]. rewrite strip_app. cbn [mbind option_bind].
    rewrite Hv by done. cbn [mbind option_bind]. rewrite strip_app.
    rewrite IH; [done|done|simpl in *; lia].
Qed.

Lemma append_nil_l (s : string) : "" +:+ s = s.
Proof. reflexivity. Qed.

Lemma parse_val_None fuel rest :
  parse_val (S fuel) ("None" +:+ rest) = Some (PyNone, rest).
Proof. reflexivity. Qed.

Lemma parse_val_int fuel n rest :
  starts_with is_digit rest = false →
  parse_val (S fuel) (repr_int n +:+ rest) = Some (PyInt n, rest).
Proof.
  intros Hrest. cbn [parse_val].
  pose proof (starts_with_app _ _ rest (repr_int_starts n)) as Hs.
  rewrite !(strip_starts _ _ _ _ Hs) by reflexivity.
  by rewrite parse_int_repr.
Qed.

Lemma parse_val_list fuel (l : list pyobj) rest :
  Forall (reads_back fuel) l → length l ≤ fuel →
  parse_val (S fuel) (("[" +:+ join ", " (map repr l) +:+ "]") +:+ rest)
    = Some (PyList (map as_evaluated l), rest).
Proof.
  intros Hl Hlen. destruct (decide (l = [])) as [->|Hne]; [reflexivity|].
  rewrite !append_assoc. cbn [parse_val].
  assert (strip "(" ("[" +:+ join ", " (map repr l) +:+ "]" +:+ rest) = None)
    as -> by reflexivity.
  rewrite strip_app.
  rewrite (strip_starts _ _ _ _ (items_start l _ Hne)) by reflexivity.
  rewrite (parse_items_repr _ l fuel ("]" +:+ rest)) by done.
  cbn [mbind option_bind]. by rewrite strip_app.
Qed.

Lemma parse_val_set fuel (l : list pyobj) rest :
  Forall (reads_back fuel) l → length l ≤ fuel →
  parse_val (S fuel) (("set([" +:+ join ", " (map repr l) +:+ "])") +:+ rest)
    = Some (PySet (map as_evaluated l), rest).
Proof.
  intros Hl Hlen. destruct (decide (l = [])) as [->|Hne]; [reflexivity|].
  rewrite !append_assoc. cbn [parse_val].
  assert (strip "(" ("set([" +:+ join ", " (map repr l) +:+ "])" +:+ rest) = None)
    as -> by reflexivity.
  assert (strip "[" ("set([" +:+ join ", " (map repr l) +:+ "])" +:+ rest) = None)
    as -> by reflexivity.
  rewrite strip_app.
  rewrite (strip_starts _ _ _ _ (items_start l _ Hne)) by reflexivity.
  rewrite (parse_items_repr _ l fuel ("])" +:+ rest)) by done.
  cbn [mbind option_bind]. by rewrite strip_app.
Qed.

Lemma parse_val_dict fuel (l : list (pyobj * pyobj)) rest :
  Forall (λ kv, reads_back fuel kv.1 ∧ reads_back fuel kv.2) l →
  length l ≤ fuel →
  parse_val (S fuel)
    (("{" +:+ join ", " (map (λ kv, repr kv.1 +:+ ": " +:+ repr kv.2) l)
          +:+ "}") +:+ rest)
    = Some (PyDict (map (λ kv, (as_evaluated kv.1, as_evaluated kv.2)) l), rest).
Proof.
  intros Hl Hlen. destruct (decide (l = [])) as [->|Hne]; [reflexivity|].
  rewrite !append_assoc. cbn [parse_val].
  set (J := join ", " _).
  assert (strip "(" ("{" +:+ J +:+ "}" +:+ rest) = None) as -> by reflexivity.
  assert (strip "[" ("{" +:+ J +:+ "}" +:+ rest) = None) as -> by reflexivity.
  assert (strip "set([" ("{" +:+ J +:+ "}" +:+ rest) = None) as -> by reflexivity.
  rewrite strip_app. subst J.
  rewrite (strip_starts _ _ _ _ (entries_start l _ Hne)) by reflexivity.
  rewrite (parse_entries_repr _ l fuel ("}" +:+ rest)) by done.
  cbn [mbind option_bind]. by rewrite strip_app.
Qed.

Lemma parse_val_tuple fuel (l : list pyobj) rest :
  Forall (reads_back fuel) l → length l ≤ fuel →
  parse_val (S fuel) (repr (PyTuple l) +:+ rest)
    = Some (PyTuple (map as_evaluated l), rest).
Proof.
  intros Hl Hlen. destruct l as [|a [|b l]]; [reflexivity| |].
  - cbn [repr]. rewrite !append_assoc. cbn [parse_val]. rewrite strip_app.
    rewrite (strip_starts _ _ _ _ (starts_with_app _ _ _ (repr_starts a)))
      by reflexivity.
    change (repr a +:+ ",)" +:+ rest)
      with (join ", " (map repr [a]) +:+ ",)" +:+ rest).
    rewrite (parse_items_repr _ [a] fuel (",)" +:+ rest)) by done.
    cbn [mbind option_bind map].
    assert (strip ")" (",)" +:+ rest) = None) as -> by reflexivity.
    by rewrite strip_app.
  - cbn [repr]. rewrite !append_assoc. cbn [parse_val]. rewrite strip_app.
    rewrite (strip_starts _ _ _ _ (items_start (a :: b :: l) _ ltac:(done)))
      by reflexivity.
    rewrite (parse_items_repr _ (a :: b :: l) fuel (")" +:+ rest)) by done.
    cbn [mbind option_bind]. by rewrite strip_app.
Qed.

Lemma py_size_pos v : 1 ≤ py_size v.
Proof. destruct v; simpl; lia. Qed.

Lemma length_le_size (l : list pyobj) :
  length l ≤ foldr (λ a n, py_size a + n) 0 l.
Proof.
  induction l as [|a l IH]; simpl; [lia|]. pose proof (py_size_pos a). lia.
Qed.

Lemma length_le_size_entries (l : list (pyobj * pyobj)) :
  length l ≤ foldr (λ kv n, py_size kv.1 + py_size kv.2 + n) 0 l.
Proof.
  induction l as [|a l IH]; simpl; [lia|]. pose proof (py_size_pos a.1). lia.
Qed.

(** [eval] with enough fuel reads the text of a value back, up to the
    numpy integers, which come back as [int]. *)
Lemma parse_val_repr v fuel : py_size v ≤ fuel → reads_back fuel v.
Proof.
  revert fuel. induction v as [|n|n|l IH|l IH|l IH|l IH] using pyobj_nested_ind;
    intros [|fuel] Hfuel; try (simpl in Hfuel; lia); intros rest Hrest.
  - apply parse_val_None.
  - by apply parse_val_int.
  - by apply parse_val_int.
  - simpl in Hfuel. apply parse_val_tuple.
    + apply Forall_forall. intros x Hx. rewrite Forall_forall in IH.
      apply IH; [done|]. pose proof (py_size_elem _ _ Hx). lia.
    + pose proof (length_le_size l). lia.
  - simpl in Hfuel. apply parse_val_list.
    + apply Forall_forall. intros x Hx. rewrite Forall_forall in IH.
      apply IH; [done|]. pose proof (py_size_elem _ _ Hx). lia.
    + pose proof (length_le_size l). lia.
  - simpl in Hfuel. apply parse_val_set.
    + apply Forall_forall. intros x Hx. rewrite Forall_forall in IH.
      apply IH; [done|]. pose proof (py_size_elem _ _ Hx). lia.
    + pose proof (length_le_size l). lia.
  - simpl in Hfuel. apply parse_val_dict.
    + apply Forall_forall. intros x Hx. rewrite Forall_forall in IH.
      pose proof (py_size_entry _ _ Hx).
      split; apply IH; try done; lia.
    + pose proof (length_le_size_entries l). lia.
Qed.

End ReadingBack.

(** *** The characters of a text *)

Lemma length_append (a b : string) :
  String.length (a +:+ b) = String.length a + String.length b.
Proof. induction a as [|c a IH]; [done|]. rewrite append_cons. simpl. lia. Qed.

Lemma all_chars_join p (l : list string) :
  p ","%char = true → p " "%char = true →
  Forall (λ s, all_chars p s = true) l → all_chars p (join ", " l) = true.
Proof.
  intros Hc Hs. induction 1 as [|x l Hx Hl IH]; [done|].
  destruct l as [|y l]; [done|]. rewrite join_cons by done.
  rewrite !all_chars_app, Hx, IH. simpl. by rewrite Hc, Hs.
Qed.

Lemma all_chars_uint (u : Decimal.uint) :
  all_chars repr_char (DecimalString.NilEmpty.string_of_uint u) = true.
Proof. induction u; simpl; done. Qed.

Lemma all_chars_repr_int n : all_chars repr_char (repr_int n) = true.
Proof.
  unfold repr_int. destruct (Z.to_int n); simpl; apply all_chars_uint.
Qed.

(** [repr] prints digits and the characters of ["-None(), []set{}:"]
    only: no [";"] and no ["a"]. *)
Lemma all_chars_repr v : all_chars repr_char (repr v) = true.
Proof.
  induction v as [|n|n|l IH|l IH|l IH|l IH] using pyobj_nested_ind;
    try done; try apply all_chars_repr_int.
  - assert (all_chars repr_char (join ", " (map repr l)) = true) as HJ.
    { apply all_chars_join; [done..|]. by apply Forall_fmap. }
    destruct l as [|a [|b l]]; [done| |].
    + cbn [repr]. rewrite !all_chars_app. simpl in HJ. by rewrite HJ.
    + cbn [repr]. rewrite !all_chars_app. by rewrite HJ.
  - cbn [repr]. rewrite !all_chars_app, all_chars_join; [done..|].
    by apply Forall_fmap.
  - cbn [repr]. rewrite !all_chars_app, all_chars_join; [done..|].
    by apply Forall_fmap.
  - cbn [repr]. rewrite !all_chars_app, all_chars_join; [done..|].
    apply Forall_fmap. eapply Forall_impl; [exact IH|].
    intros [k v] [Hk Hv]. simpl in *. rewrite !all_chars_app, Hk, Hv. done.
Qed.

(** A text in which a separator cannot start does not contain it. *)
Lemma contains_all_chars p c sep s :
  p c = false → all_chars p s = true → contains (String c sep) s = false.
Proof.
  intros Hc. induction s as [|d s IH]; [done|]. simpl.
  intros [Hd Hs]%andb_true_iff.
  destruct (Ascii.eqb_spec c d) as [->|]; [congruence|]. by apply IH.
Qed.

Lemma contains_all_chars2 p c c2 sep s :
  p c2 = false → all_chars p s = true →
  contains (String c (String c2 sep)) s = false.
Proof.
  intros Hc. induction s as [|d s IH]; [done|]. cbn [contains all_chars].
  intros [Hd Hs]%andb_true_iff.
  assert (strip (String c (String c2 sep)) (String d s) = None) as ->;
    [|by apply IH].
  cbn [strip]. destruct (Ascii.eqb c d); [|done].
  destruct s as [|e s]; [done|]. simpl in Hs.
  apply andb_true_iff in Hs as [He _].
  destruct (Ascii.eqb_spec c2 e) as [->|]; [congruence|done].
Qed.

Lemma contains_cons c sep d s :
  contains (String c sep) (String d s) =
  if Ascii.eqb c d
  then match strip sep s with
       | Some _ => true
       | None => contains (String c sep) s
       end
  else contains (String c sep) s.
Proof. cbn [contains strip]. by destruct (Ascii.eqb c d). Qed.

Lemma strip_all_chars p c x s :
  p c = false → all_chars p s = true → strip (String c x) s = None.
Proof.
  intros Hc. destruct s as [|d s]; [done|]. simpl.
  intros [Hd _]%andb_true_iff.
  destruct (Ascii.eqb_spec c d) as [->|]; [congruence|done].
Qed.

Lemma all_chars_starts p q s :
  all_chars p s = true → (∀ c, p c = true → q c = false) →
  starts_with q s = false.
Proof.
  destruct s as [|c s]; [done|]. simpl. intros [Hc _]%andb_true_iff Hq.
  by apply Hq.
Qed.

(** *** One clause *)

Lemma rsplit1_encode name payload :
  all_chars repr_char payload = true →
  rsplit1 " at " (name +:+ " at " +:+ payload) = Some (name, payload).
Proof.
  intros Hp.
  assert (rsplit1 " at " (" at " +:+ payload) = Some ("", payload)) as Hbase.
  { assert (contains " at " ("at " +:+ payload) = false) as Hno.
    { change ("at " +:+ payload)
        with (String "a" (String "t" (String " " payload))).
      rewrite !contains_cons. cbn [Ascii.eqb Bool.eqb].
      rewrite (strip_all_chars repr_char "a" "t " payload eq_refl Hp).
      exact (contains_all_chars2 repr_char " " "a" "t " payload eq_refl Hp). }
    apply rsplit1_None in Hno.
    change (" at " +:+ payload) with (String " " ("at " +:+ payload)).
    cbn [rsplit1]. rewrite Hno. reflexivity. }
  induction name as [|c name IH]; [done|].
  rewrite append_cons. by apply rsplit1_cons.
Qed.

Lemma strip2_None p0 p1 c s :
  strip (String p0 (String p1 "")) (String c s) = None ↔
  Ascii.eqb p0 c && starts_with (Ascii.eqb p1) s = false.
Proof.
  cbn [strip]. destruct (Ascii.eqb p0 c); [|done].
  destruct s as [|d s]; [done|]. simpl. by destruct (Ascii.eqb p1 d).
Qed.

Lemma starts_with_app_l P a b :
  a ≠ "" → starts_with P (a +:+ b) = starts_with P a.
Proof. by destruct a. Qed.

Lemma contains_app_payload name payload :
  contains "; " (name +:+ " at ") = false →
  all_chars repr_char payload = true →
  contains "; " (name +:+ " at " +:+ payload) = false.
Proof.
  intros Hname Hp. induction name as [|c name IH].
  - pose proof (contains_all_chars repr_char ";" " " payload eq_refl Hp) as H.
    destruct payload as [|d s]; [done|].
    cbn. cbn in H. exact H.
  - rewrite append_cons in *. cbn [contains] in *.
    destruct (strip "; " (String c (name +:+ " at "))) eqn:Hs; [done|].
    apply strip2_None in Hs.
    assert (strip "; " (String c (name +:+ " at " +:+ payload)) = None) as ->.
    { apply strip2_None. rewrite <- append_assoc, starts_with_app_l; [done|].
      by destruct name. }
    by apply IH.
Qed.

(** *** Several clauses *)

Lemma split_clause clause rest :
  contains "; " clause = false →
  split "; " (clause +:+ "; " +:+ rest) = clause :: split "; " rest.
Proof.
  unfold split. induction clause as [|c clause IH].
  - intros _. destruct rest; reflexivity.
  - intros H. cbn [contains] in H.
    destruct (strip "; " (String c clause)) eqn:Hs; [done|].
    rewrite append_cons. cbn [split_from].
    assert (strip "; " (String c (clause +:+ "; " +:+ rest)) = None) as ->.
    { apply strip2_None. apply strip2_None in Hs.
      destruct (Ascii.eqb ";" c); [|done]. simpl in *.
      destruct clause as [|d clause]; [done|done]. }
    by rewrite IH.
Qed.

(** *** Enough fuel *)

Lemma size_le_join (l : list pyobj) :
  Forall (λ v, py_size v ≤ String.length (repr v)) l →
  foldr (λ a n, py_size a + n) 0 l ≤ String.length (join ", " (map repr l)).
Proof.
  induction 1 as [|x l Hx Hl IH]; [done|].
  destruct l as [|y l]; [simpl in *; lia|].
  rewrite map_cons, join_cons by done. rewrite !length_append.
  cbn [foldr]. cbn [foldr] in IH. lia.
Qed.

Lemma size_le_join_entries (l : list (pyobj * pyobj)) :
  Forall (λ kv, py_size kv.1 ≤ String.length (repr kv.1) ∧
                py_size kv.2 ≤ String.length (repr kv.2)) l →
  foldr (λ kv n, py_size kv.1 + py_size kv.2 + n) 0 l
    ≤ String.length
        (join ", " (map (λ kv, repr kv.1 +:+ ": " +:+ repr kv.2) l)).
Proof.
  induction 1 as [|[k v] l [Hk Hv] Hl IH]; [done|]. simpl in Hk, Hv.
  destruct l as [|y l].
  - cbn [map join foldr fst snd]. rewrite !length_append. lia.
  - rewrite map_cons, join_cons by done. rewrite !length_append.
    cbn [foldr fst snd]. cbn [foldr] in IH. lia.
Qed.

Lemma size_le_length v : py_size v ≤ String.length (repr v).
Proof.
  induction v as [|n|n|l IH|l IH|l IH|l IH] using pyobj_nested_ind.
  - simpl. lia.
  - pose proof (repr_int_starts n). simpl. destruct (repr_int n); [done|].
    simpl. lia.
  - pose proof (repr_int_starts n). simpl. destruct (repr_int n); [done|].
    simpl. lia.
  - pose proof (size_le_join l IH) as HJ.
    destruct l as [|a [|b l]]; [simpl; lia| |].
    + cbn [repr py_size]. rewrite !length_append. simpl in HJ. simpl. lia.
    + cbn [repr py_size]. rewrite !length_append. simpl in HJ. simpl. lia.
  - pose proof (size_le_join l IH) as HJ.
    cbn [repr py_size]. rewrite !length_append. simpl. lia.
  - pose proof (size_le_join l IH) as HJ.
    cbn [repr py_size]. rewrite !length_append. simpl. lia.
  - pose proof (size_le_join_entries l IH) as HJ.
    cbn [repr py_size]. rewrite !length_append. simpl. lia.
Qed.

(** [eval(repr(v))] is [v] with its numpy integers made [int]. *)
Lemma eval_repr v : eval (repr v) = Ok (as_evaluated v).
Proof.
  unfold eval.
  assert (py_size v ≤ S (String.length (repr v))) as Hfuel
    by (pose proof (size_le_length v); lia).
  pose proof (parse_val_repr v _ Hfuel "" eq_refl) as H.
  rewrite append_nil_r in H. by rewrite H.
Qed.

(** *** Equality after [eval] *)

Lemma py_eqb_set a b :
  py_eqb (PySet a) (PySet b) =
  forallb (λ x, existsb (py_eqb x) b) a &&
  forallb (λ y, existsb (λ x, py_eqb x y) a) b.
Proof.
  simpl. f_equal.
  - induction a as [|x a IH]; simpl; [done|]. by rewrite IH.
  - induction b as [|y b IH]; simpl; [done|]. rewrite IH. f_equal.
    clear. induction a as [|x a IH]; simpl; [done|]. by rewrite IH.
Qed.

Lemma py_eqb_dict a b :
  py_eqb (PyDict a) (PyDict b) =
  forallb (λ kv, existsb (λ kv', py_eqb kv.1 kv'.1 && py_eqb kv.2 kv'.2) b) a &&
  forallb (λ kv', existsb (λ kv, py_eqb kv.1 kv'.1 && py_eqb kv.2 kv'.2) a) b.
Proof.
  simpl. f_equal.
  - induction a as [|[k v] a IH]; simpl; [done|]. by rewrite IH.
  - induction b as [|y b IH]; simpl; [done|]. rewrite IH. f_equal.
    clear. induction a as [|[k v] a IH]; simpl; [done|]. by rewrite IH.
Qed.

Lemma py_eqb_tuple_map (l : list pyobj) :
  Forall (λ v, py_eqb (as_evaluated v) v = true) l →
  py_eqb (PyTuple (map as_evaluated l)) (PyTuple l) = true.
Proof.
  induction 1 as [|x l Hx Hl IH]; [done|]. simpl in *. by rewrite Hx, IH.
Qed.

Lemma py_eqb_list_map (l : list pyobj) :
  Forall (λ v, py_eqb (as_evaluated v) v = true) l →
  py_eqb (PyList (map as_evaluated l)) (PyList l) = true.
Proof.
  induction 1 as [|x l Hx Hl IH]; [done|]. simpl in *. by rewrite Hx, IH.
Qed.

(** Under [==] the value that [eval] gives is the value printed. *)
Lemma py_eqb_as_evaluated v : py_eqb (as_evaluated v) v = true.
Proof.
  induction v as [|n|n|l IH|l IH|l IH|l IH] using pyobj_nested_ind.
  - done.
  - simpl. apply Z.eqb_refl.
  - simpl. apply Z.eqb_refl.
  - by apply py_eqb_tuple_map.
  - by apply py_eqb_list_map.
  - cbn [as_evaluated]. rewrite py_eqb_set. rewrite Forall_forall in IH.
    apply andb_true_iff. split; apply forallb_forall.
    + intros x' Hx'%in_map_iff. destruct Hx' as (x & <- & Hx).
      apply existsb_exists. exists x. split; [done|].
      by apply IH, list_elem_of_In.
    + intros x Hx. apply existsb_exists. exists (as_evaluated x).
      split; [by apply in_map|]. by apply IH, list_elem_of_In.
  - cbn [as_evaluated]. rewrite py_eqb_dict. rewrite Forall_forall in IH.
    apply andb_true_iff. split; apply forallb_forall.
    + intros x' Hx'%in_map_iff. destruct Hx' as (x & <- & Hx).
      apply existsb_exists. exists x. split; [done|].
      apply list_elem_of_In, IH in Hx as [Hk Hv]. simpl. by rewrite Hk, Hv.
    + intros x Hx. apply existsb_exists.
      exists (as_evaluated x.1, as_evaluated x.2).
      split; [by apply (in_map (λ kv, (as_evaluated kv.1, as_evaluated kv.2)))|].
      apply list_elem_of_In, IH in Hx as [Hk Hv]. simpl. by rewrite Hk, Hv.
Qed.

(** *** Decoding an encoded message *)

Lemma contains_encode name r :
  contains "; " (name +:+ " at ") = false →
  contains "; " (encode name r) = false.
Proof. intros H. apply contains_app_payload; [done|apply all_chars_repr]. Qed.

Lemma collapsed_fold_encode (clauses : list (string * pyobj))
    (m : gmap string pyobj) :
  clauses ≠ [] →
  Forall (λ c, contains "; " (c.1 +:+ " at ") = false) clauses →
  foldl (λ acc message,
           collapses ← acc;
           match rsplit1 " at " message with
           | Some (name, msg) => v ← eval msg; Ok (<[name := v]> collapses)
           | None => Ok collapses
           end) (Ok m)
    (split "; " (join "; " (map (λ c, encode c.1 c.2) clauses)))
  = Ok (foldl (λ m c, <[c.1 := as_evaluated c.2]> m) m clauses).
Proof.
  intros Hne Hall. revert m.
  induction Hall as [|[n r] l Hn Hl IH]; [done|]. intros m. simpl in Hn.
  destruct l as [|c l].
  - cbn [map join fst snd]. rewrite split_no_sep by by apply contains_encode.
    cbn [foldl]. unfold encode at 1.
    rewrite rsplit1_encode by apply all_chars_repr. by rewrite eval_repr.
  - rewrite map_cons, join_cons by done. cbn [fst snd].
    rewrite split_clause by by apply contains_encode.
    cbn [foldl]. unfold encode at 1.
    rewrite rsplit1_encode by apply all_chars_repr. rewrite eval_repr.
    cbn [mbind result_bind]. by rewrite IH.
Qed.

Lemma foldl_insert_nonempty (clauses : list (string * pyobj))
    (m : gmap string pyobj) :
  m ≠ ∅ → foldl (λ m c, <[c.1 := as_evaluated c.2]> m) m clauses ≠ ∅.
Proof.
  revert m. induction clauses as [|c l IH]; intros m Hm; [done|]. simpl.
  apply IH, insert_non_empty.
Qed.

(** C5 (amended): for every result [r] made of [None], integers,
    tuples, lists, sets and dicts, and every name such that the name
    followed by [" at "] does not contain ["; "], decoding the clauses
    of such names and results joined by ["; "] gives the mapping built
    by entering, in order, each name with what [eval] makes of the text
    of its result: the result itself with its numpy integers made
    [int], which is equal to the result under [==].  A name that occurs
    twice keeps the result of its last clause.  For one clause the
    mapping is the name with its result. *)
Theorem collapsed_encode (clauses : list (string * pyobj)) :
  clauses ≠ [] →
  Forall (λ c, contains "; " (c.1 +:+ " at ") = false) clauses →
  collapsed (join "; " (map (λ c, encode c.1 c.2) clauses))
    = Ok (Some (foldl (λ m c, <[c.1 := as_evaluated c.2]> m) ∅ clauses)) ∧
  Forall (λ c, py_eqb (as_evaluated c.2) c.2 = true) clauses ∧
  (∀ name r, clauses = [(name, r)] →
     collapsed (encode name r) = Ok (Some {[name := as_evaluated r]})).
Proof.
  intros Hne Hall.
  assert (collapsed (join "; " (map (λ c, encode c.1 c.2) clauses))
          = Ok (Some (foldl (λ m c, <[c.1 := as_evaluated c.2]> m) ∅ clauses)))
    as Hrun.
  { unfold collapsed. rewrite collapsed_fold_encode by done.
    cbn [mbind result_bind]. destruct clauses as [|c l]; [done|].
    rewrite decide_False; [done|]. simpl.
    apply foldl_insert_nonempty, insert_non_empty. }
  split; [done|]. split.
  - apply Forall_forall. intros c _. apply py_eqb_as_evaluated.
  - intros name r ->. exact Hrun.
Qed.

Lemma collapsed_encode_witness :
  collapsed
    (join "; "
       (map (λ c, encode c.1 c.2)
          [("weights", PySet [PyTuple [NpInt 0; NpInt 1]]);
           ("at rest", PyDict [(PyInt 0, PySet [NpInt 2; NpInt 3])])]))
  = Ok (Some (<["at rest" := PyDict [(PyInt 0, PySet [PyInt 2; PyInt 3])]]>
                (<["weights" := PySet [PyTuple [PyInt 0; PyInt 1]]]> ∅))).
Proof.
  destruct (collapsed_encode
              [("weights", PySet [PyTuple [NpInt 0; NpInt 1]]);
               ("at rest", PyDict [(PyInt 0, PySet [NpInt 2; NpInt 3])])])
    as [H _]; [done|by repeat constructor|].
  exact H.
Defined.

(** C5 as the specification has it fails for a name with ["; "] in it:
    the message is cut inside the name, and the result is found under
    what follows the cut; and for two clauses of one name, of which only
    the last is kept. *)
Lemma collapsed_encode_counterexample :
  collapsed (encode "a; b" (PySet [PyInt 1]))
    = Ok (Some {["b" := PySet [PyInt 1]]}) ∧
  ({["b" := PySet [PyInt 1]]} : gmap string pyobj)
    ≠ {["a; b" := PySet [PyInt 1]]} ∧
  collapsed (encode "c" (PySet [PyInt 1]) +:+ "; " +:+ encode "c" (PySet [PyInt 2]))
    = Ok (Some {["c" := PySet [PyInt 2]]}).
Proof.
  split; [vm_compute; reflexivity|]. split; [|vm_compute; reflexivity].
  intros H. apply (f_equal (λ m, m !! "b")) in H.
  rewrite lookup_singleton_eq, lookup_singleton_ne in H; done.
Qed.
End CodecFacts.
